(** * Sentra-Emo: affective mapping core (app/analysis.py, app/models.py, app/main.py)

    Shallow embedding of the label canonicaliser, the VAD mapping engine,
    negative-label derivation, stress scoring, sentiment normalisation,
    emotion selection and the metrics buffers.

    Modelling conventions:
    - Python floats are modelled as exact rationals [Q]; equalities between
      computed floats are stated up to [Qeq] ([==]).
    - Python [str.lower]/[str.strip] are modelled on ASCII characters.
    - A Python [dict] is an association list whose keys are unique, with
      the insertion order of the source ([dict_set] overwrites in place or
      appends, as [d[k] = v] does); a Python [set] of strings is a list with
      set insertion ([set_add]). *)

From Stdlib Require Import String Ascii List ZArith QArith Qround Lia.
From Stdlib Require Import Sorted Permutation Bool Lqa.
Import ListNotations.
Open Scope string_scope.

(* ------------------------------------------------------------------ *)
(** ** Python string helpers *)

Definition lower_ascii (c : ascii) : ascii :=
  let n := nat_of_ascii c in
  if (65 <=? n)%nat && (n <=? 90)%nat then ascii_of_nat (n + 32) else c.

(** [str.lower] *)
Fixpoint lower (s : string) : string :=
  match s with
  | EmptyString => EmptyString
  | String c s' => String (lower_ascii c) (lower s')
  end.

(** Python whitespace (ASCII part): space, \t, \n, \v, \f, \r and the
    separators \x1c-\x1f *)
Definition is_space (c : ascii) : bool :=
  let n := nat_of_ascii c in
  (n =? 32)%nat || ((9 <=? n)%nat && (n <=? 13)%nat) || ((28 <=? n)%nat && (n <=? 31)%nat).

Fixpoint lstrip (s : string) : string :=
  match s with
  | EmptyString => EmptyString
  | String c s' => if is_space c then lstrip s' else s
  end.

Fixpoint rev_string (s : string) (acc : string) : string :=
  match s with
  | EmptyString => acc
  | String c s' => rev_string s' (String c acc)
  end.

(** [str.strip] *)
Definition strip (s : string) : string :=
  rev_string (lstrip (rev_string (lstrip s) EmptyString)) EmptyString.

(** [needle in hay] for strings *)
Fixpoint contains (needle hay : string) : bool :=
  match hay with
  | EmptyString => String.prefix needle hay
  | String _ hay' => String.prefix needle hay || contains needle hay'
  end.

(* ------------------------------------------------------------------ *)
(** ** Python dicts and sets as association lists *)

Fixpoint dict_get {A} (k : string) (d : list (string * A)) : option A :=
  match d with
  | [] => None
  | (k', v) :: d' => if String.eqb k k' then Some v else dict_get k d'
  end.

(** [d.get(k, dflt)] *)
Definition dict_get_or {A} (k : string) (dflt : A) (d : list (string * A)) : A :=
  match dict_get k d with Some v => v | None => dflt end.

(** [d[k] = v]: overwrite in place, or append a new key at the end *)
Fixpoint dict_set {A} (k : string) (v : A) (d : list (string * A)) : list (string * A) :=
  match d with
  | [] => [(k, v)]
  | (k', v') :: d' => if String.eqb k k' then (k', v) :: d' else (k', v') :: dict_set k v d'
  end.

(** [d.setdefault(k, v)] (result discarded) *)
Definition dict_setdefault {A} (k : string) (v : A) (d : list (string * A)) : list (string * A) :=
  match dict_get k d with Some _ => d | None => dict_set k v d end.

(** [{f(k): g(v) for k, v in items}] *)
Definition dict_of_list {A} (l : list (string * A)) : list (string * A) :=
  fold_left (fun d kv => dict_set (fst kv) (snd kv) d) l [].

(** [s.add(x)] *)
Definition set_add (x : string) (s : list string) : list string :=
  if existsb (String.eqb x) s then s else s ++ [x].

Definition set_of_list (l : list string) : list string :=
  fold_left (fun s x => set_add x s) l [].

(** Python [sum(xs)] over floats: left fold from [0] *)
Definition py_sum (xs : list Q) : Q := fold_left Qplus xs 0.

(** Python float [a < b] *)
Definition Qlt_bool (a b : Q) : bool := negb (Qle_bool b a).

(** Python [max(a, b)] / [min(a, b)] on floats: the first argument unless
    the second is strictly larger / smaller. *)
Definition py_max (a b : Q) : Q := if Qlt_bool a b then b else a.
Definition py_min (a b : Q) : Q := if Qlt_bool b a then b else a.

(* ------------------------------------------------------------------ *)
(** ** VADMapper (analysis.py) *)

Definition vad : Type := (Q * Q * Q)%type.

Definition neutral_vad : vad := (1#2, 1#2, 1#2).

Record VADMapper := mkVADMapper {
  mapping : list (string * vad);
  alias : list (string * string)
}.

(** [VADMapper.__init__]: keys (and alias values) lower-cased *)
Definition VADMapper_init (m : list (string * vad)) (al : option (list (string * string))) : VADMapper :=
  {| mapping := dict_of_list (map (fun kv => (lower (fst kv), snd kv)) m);
     alias := dict_of_list (map (fun kv => (lower (fst kv), lower (snd kv)))
                                 (match al with Some a => a | None => [] end)) |}.

(** [VADMapper.canonical] *)
Definition canonical (mp : VADMapper) (label : string) : string :=
  let l := lower label in dict_get_or l l (alias mp).

(** [VADMapper.map_label] *)
Definition map_label (mp : VADMapper) (label : string) : vad :=
  dict_get_or (canonical mp label) neutral_vad (mapping mp).

(** One iteration of the loop of [VADMapper.map_distribution] on the
    accumulator [(v, a, d, total)] *)
Definition map_distribution_step (mp : VADMapper) (acc : Q * Q * Q * Q) (pair : string * Q)
    : Q * Q * Q * Q :=
  let '(v, a, d, total) := acc in
  let '(label, score) := pair in
  let '(vv, aa, dd) := map_label mp label in
  (v + score * vv, a + score * aa, d + score * dd, total + score).

(** [VADMapper.map_distribution] *)
Definition map_distribution (mp : VADMapper) (distribution : list (string * Q)) : vad :=
  match distribution with
  | [] => neutral_vad
  | _ =>
    let '(v, a, d, total) := fold_left (map_distribution_step mp) distribution (0, 0, 0, 0) in
    if Qle_bool total 0 then neutral_vad else (v / total, a / total, d / total)
  end.

(* ------------------------------------------------------------------ *)
(** ** JSON values and Python [str] / truthiness on them *)

(** A value returned by [json.loads]; [JFloat q r] carries the float's value
    and its Python [str] text. An object is a Python dict (unique keys). *)
Set Warnings "-register-all".
Inductive json : Type :=
| JNull
| JBool (b : bool)
| JInt (z : Z)
| JFloat (q : Q) (r : string)
| JStr (s : string)
| JList (l : list json)
| JObj (o : list (string * json)).

Fixpoint uint_to_string (d : Decimal.uint) : string :=
  match d with
  | Decimal.Nil => EmptyString
  | Decimal.D0 d' => String "0" (uint_to_string d')
  | Decimal.D1 d' => String "1" (uint_to_string d')
  | Decimal.D2 d' => String "2" (uint_to_string d')
  | Decimal.D3 d' => String "3" (uint_to_string d')
  | Decimal.D4 d' => String "4" (uint_to_string d')
  | Decimal.D5 d' => String "5" (uint_to_string d')
  | Decimal.D6 d' => String "6" (uint_to_string d')
  | Decimal.D7 d' => String "7" (uint_to_string d')
  | Decimal.D8 d' => String "8" (uint_to_string d')
  | Decimal.D9 d' => String "9" (uint_to_string d')
  end.

(** [str(int)] *)
Definition Z_to_string (z : Z) : string :=
  match Z.to_int z with
  | Decimal.Pos d => uint_to_string d
  | Decimal.Neg d => "-" ++ uint_to_string d
  end.

Fixpoint join (sep : string) (l : list string) : string :=
  match l with
  | [] => ""
  | [x] => x
  | x :: l' => x ++ sep ++ join sep l'
  end.

(** [repr] of a JSON value as Python prints it inside a container
    (strings in single quotes, escapes not modelled) *)
Fixpoint py_repr (j : json) : string :=
  match j with
  | JNull => "None"
  | JBool true => "True"
  | JBool false => "False"
  | JInt z => Z_to_string z
  | JFloat _ r => r
  | JStr s => "'" ++ s ++ "'"
  | JList l => "[" ++ join ", " (map py_repr l) ++ "]"
  | JObj o => "{" ++ join ", " (map (fun kv => "'" ++ fst kv ++ "': " ++ py_repr (snd kv)) o) ++ "}"
  end.

(** [str(x)] *)
Definition py_str (j : json) : string :=
  match j with
  | JStr s => s
  | _ => py_repr j
  end.

(** [bool(x)] *)
Definition truthy (j : json) : bool :=
  match j with
  | JNull => false
  | JBool b => b
  | JInt z => negb (Z.eqb z 0)
  | JFloat q _ => negb (Qeq_bool q 0)
  | JStr s => negb (String.eqb s "")
  | JList l => negb (match l with [] => true | _ => false end)
  | JObj o => negb (match o with [] => true | _ => false end)
  end.

(* ------------------------------------------------------------------ *)
(** ** Module state of analysis.py and its environment *)

(** The process-wide globals [_vad_mapper], [_negative_labels] and the
    negative-label part of [_vad_status]. *)
Record analysis_state := mkState {
  vad_mapper : option VADMapper;
  negative_labels : option (list string);
  negative_path : option string;
  negative_labels_count : nat;
  negative_labels_source : option string;
  negative_threshold : option Q
}.

Definition initial_state : analysis_state :=
  {| vad_mapper := None; negative_labels := None; negative_path := None;
     negative_labels_count := 0; negative_labels_source := None;
     negative_threshold := None |}.

(** What the code reads from configuration and the file system:
    - [default_map]: the mapping loaded from app/vad_maps/default.json, if
      that file exists;
    - [neg_config_path dir]: [get_negative_config_paths(dir)["neg"]];
    - [fs p]: [None] when [p] does not exist, [Some None] when it exists but
      reading or [json.loads] raises, [Some (Some j)] otherwise;
    - [neg_valence_threshold]: [get_negative_valence_threshold()];
    - [project_root]: [PROJECT_ROOT]. *)
Record env := mkEnv {
  default_map : option (list (string * vad));
  neg_config_path : string -> option string;
  fs : string -> option (option json);
  neg_valence_threshold : Q;
  project_root : string
}.

(** [_ensure_default_mapper]; returns the mapper now installed *)
Definition ensure_default_mapper (E : env) (st : analysis_state) : VADMapper * analysis_state :=
  match vad_mapper st with
  | Some mp => (mp, st)
  | None =>
    let mp := match default_map E with
              | Some m => VADMapper_init m None
              | None => VADMapper_init [("neutral", (1#2, 3#10, 1#2))] None
              end in
    (mp, {| vad_mapper := Some mp; negative_labels := negative_labels st;
            negative_path := negative_path st;
            negative_labels_count := negative_labels_count st;
            negative_labels_source := negative_labels_source st;
            negative_threshold := negative_threshold st |})
  end.

(** [_load_negative_from_file]: [contents] is what reading and parsing the
    file gave ([None] when an exception was raised). *)
Definition load_negative_from_file (contents : option json) : option (list string) :=
  match contents with
  | None => None
  | Some data =>
    Some (match data with
          | JList xs => set_of_list (map (fun x => lower (py_str x)) xs)
          | JObj o =>
            match dict_get "labels" o with
            | Some (JList xs) => set_of_list (map (fun x => lower (py_str x)) xs)
            | _ => fold_left (fun s kv => if truthy (snd kv) then set_add (lower (fst kv)) s else s) o []
            end
          | _ => []
          end)
  end.

(** Step 2 of [init_negative_labels]: the derived set *)
Definition derive_negative (mp : VADMapper) (threshold : Q) (candidates : list string) : list string :=
  fold_left (fun derived lbl =>
               let '(v, _, _) := map_label mp lbl in
               if Qlt_bool v threshold then set_add (canonical mp lbl) derived else derived)
            candidates [].

(** [emotion_labels if emotion_labels else list(mapper.mapping.keys())] *)
Definition negative_candidates (mp : VADMapper) (emotion_labels : option (list string)) : list string :=
  match emotion_labels with
  | Some ((_ :: _) as l) => l
  | _ => map fst (mapping mp)
  end.

(** [init_negative_labels] *)
Definition init_negative_labels (E : env) (st : analysis_state) (emotion_model_dir : string)
    (emotion_labels : option (list string)) : analysis_state :=
  let derive (st : analysis_state) :=
    let '(mp, st1) := ensure_default_mapper E st in
    let threshold := neg_valence_threshold E in
    let derived := derive_negative mp threshold (negative_candidates mp emotion_labels) in
    {| vad_mapper := vad_mapper st1; negative_labels := Some derived;
       negative_path := None; negative_labels_count := length derived;
       negative_labels_source := Some "derived"; negative_threshold := Some threshold |} in
  match neg_config_path E emotion_model_dir with
  | Some p =>
    match fs E p with
    | Some contents =>
      match load_negative_from_file contents with
      | Some loaded =>
        {| vad_mapper := vad_mapper st; negative_labels := Some loaded;
           negative_path := Some p; negative_labels_count := length loaded;
           negative_labels_source := Some "file"; negative_threshold := negative_threshold st |}
      | None => derive st
      end
    | None => derive st
    end
  | None => derive st
  end.

(** [normalize_distribution] *)
Definition normalize_distribution (pairs : list (string * Q)) : list (string * Q) :=
  let total := py_sum (map (fun p => py_max 0 (snd p)) pairs) in
  if Qle_bool total 0 then
    let n := match pairs with [] => 1%nat | _ => length pairs end in
    map (fun p => (fst p, 1 / inject_Z (Z.of_nat n))) pairs
  else map (fun p => (fst p, py_max 0 (snd p) / total)) pairs.

(** [emotions_to_vad] *)
Definition emotions_to_vad (E : env) (st : analysis_state) (distribution : list (string * Q))
    : vad * analysis_state :=
  let '(mp, st1) := ensure_default_mapper E st in (map_distribution mp distribution, st1).

Definition stress_level (stress : Q) : string :=
  if Qlt_bool stress (33#100) then "low"
  else if Qlt_bool stress (66#100) then "medium"
  else "high".

(** [derive_stress]: returns [(stress, level)] and the state after the lazy
    initialisation of the negative labels *)
Definition derive_stress (E : env) (st : analysis_state) (valence arousal : Q)
    (distribution : list (string * Q)) : Q * string * analysis_state :=
  let st1 := match negative_labels st with
             | None => init_negative_labels E st (project_root E ++ "/models/emotion") None
             | Some _ => st
             end in
  let neg_sum :=
    fold_left (fun acc pair =>
                 let '(label, score) := pair in
                 let canon := match vad_mapper st1 with
                              | Some mp => canonical mp label
                              | None => lower label
                              end in
                 match negative_labels st1 with
                 | Some ((_ :: _) as neg) => if existsb (String.eqb canon) neg then acc + score else acc
                 | _ => acc
                 end)
              distribution 0 in
  let stress := (6#10) * (1 - valence) + (4#10) * arousal + (15#100) * neg_sum in
  let stress := py_max 0 (py_min 1 stress) in
  (stress, stress_level stress, st1).

(** [canonicalize_distribution] *)
Definition canonicalize_distribution (E : env) (st : analysis_state) (distribution : list (string * Q))
    : list (string * Q) * analysis_state :=
  let '(mp, st1) := ensure_default_mapper E st in
  (fold_left (fun res pair => let '(lbl, score) := pair in app res [(canonical mp lbl, score)])
             distribution [], st1).

(* ------------------------------------------------------------------ *)
(** ** ModelManager (models.py) *)

(** [ModelManager._normalize_scores]: [items] are the classifier's
    [(label, score)] entries (after [it.get(...)]). *)
Definition normalize_scores (items : list (string * Q)) (normalize : bool) : list (string * Q) :=
  let pairs := map (fun it => (strip (fst it), snd it)) items in
  if normalize then
    let total := py_sum (map (fun p => py_max 0 (snd p)) pairs) in
    if Qlt_bool 0 total then map (fun p => (fst p, py_max 0 (snd p) / total)) pairs else pairs
  else pairs.

(** [lbl.split()[0]]: [None] when the split is empty (IndexError) *)
Definition first_token (s : string) : option string :=
  let fix tok (s : string) : string :=
    match s with
    | EmptyString => EmptyString
    | String c s' => if is_space c then EmptyString else String c (tok s')
    end in
  match lstrip s with
  | EmptyString => None
  | s' => Some (tok s')
  end.

Definition digit_val (c : ascii) : option Z :=
  let n := nat_of_ascii c in
  if (48 <=? n)%nat && (n <=? 57)%nat then Some (Z.of_nat (n - 48)) else None.

(** Digits with single underscores between them, as [int()] accepts *)
Fixpoint parse_digits (s : string) (acc : Z) (last_us : bool) : option Z :=
  match s with
  | EmptyString => if last_us then None else Some acc
  | String c s' =>
    match digit_val c with
    | Some d => parse_digits s' (acc * 10 + d) false
    | None => if Ascii.eqb c "_" && negb last_us then parse_digits s' acc true else None
    end
  end.

Definition parse_unsigned (s : string) : option Z :=
  match s with
  | String c s' => match digit_val c with Some d => parse_digits s' d false | None => None end
  | EmptyString => None
  end.

(** [int(token)] for an ASCII token without surrounding whitespace;
    [None] when it raises ValueError *)
Definition parse_py_int (s : string) : option Z :=
  match s with
  | String "+" s' => parse_unsigned s'
  | String "-" s' => option_map Z.opp (parse_unsigned s')
  | _ => parse_unsigned s
  end.

Fixpoint zdict_get (k : Z) (d : list (Z * Q)) : option Q :=
  match d with
  | [] => None
  | (k', v) :: d' => if Z.eqb k k' then Some v else zdict_get k d'
  end.

Definition zdict_get_or (k : Z) (dflt : Q) (d : list (Z * Q)) : Q :=
  match zdict_get k d with Some v => v | None => dflt end.

Fixpoint zdict_set (k : Z) (v : Q) (d : list (Z * Q)) : list (Z * Q) :=
  match d with
  | [] => [(k, v)]
  | (k', v') :: d' => if Z.eqb k k' then (k', v) :: d' else (k', v') :: zdict_set k v d'
  end.

(** Python [x or dflt] on a float *)
Definition py_or (x dflt : Q) : Q := if Qeq_bool x 0 then dflt else x.

(** [max(items, key=lambda x: x[1])]: the first item of maximal score *)
Fixpoint max_by_score {A} (best : A * Q) (l : list (A * Q)) : A * Q :=
  match l with
  | [] => best
  | x :: l' => max_by_score (if Qlt_bool (snd best) (snd x) then x else best) l'
  end.

Definition star_model_prefix : string := "nlptown/bert-base-multilingual-uncased-sentiment".

(** Star-rating branch of [analyze_sentiment] *)
Definition star_scores_of (pairs : list (string * Q)) : list (Z * Q) :=
  fold_left (fun ss pair =>
               let '(lbl, s) := pair in
               match first_token lbl with
               | Some t => match parse_py_int t with Some star => zdict_set star s ss | None => ss end
               | None => ss
               end) pairs [].

Definition star_sentiment (neutral_mode : string) (pairs : list (string * Q)) : list (string * Q) :=
  let star_scores := star_scores_of pairs in
  let neg := zdict_get_or 1 0 star_scores + zdict_get_or 2 0 star_scores in
  let neu := zdict_get_or 3 0 star_scores in
  let pos := zdict_get_or 4 0 star_scores + zdict_get_or 5 0 star_scores in
  let total := py_max (1#1000000000) (neg + neu + pos) in
  let scores := [("negative", neg / total); ("neutral", neu / total); ("positive", pos / total)] in
  if String.eqb neutral_mode "off" then
    let pos_neg := dict_get_or "positive" 0 scores + dict_get_or "negative" 0 scores in
    if Qle_bool pos_neg 0 then [("positive", 1); ("negative", 0)]
    else [("positive", dict_get_or "positive" 0 scores / pos_neg);
          ("negative", dict_get_or "negative" 0 scores / pos_neg)]
  else scores.

(** [model_has_neutral] *)
Definition model_has_neutral (id2label : list string) : bool :=
  existsb (fun v => let lv := lower v in contains "neu" lv || contains "neutral" lv) id2label.

(** The classification loop of the generic branch: [(tmp, unknown_sum)] *)
Definition generic_accumulate (pairs : list (string * Q)) : list (string * Q) * Q :=
  fold_left (fun acc pair =>
               let '(tmp, unknown_sum) := acc in
               let '(lbl, s) := pair in
               let l := lower lbl in
               if contains "pos" l || contains "positive" l then
                 (dict_set "positive" (dict_get_or "positive" 0 tmp + s) tmp, unknown_sum)
               else if contains "neg" l || contains "negative" l then
                 (dict_set "negative" (dict_get_or "negative" 0 tmp + s) tmp, unknown_sum)
               else if contains "neu" l || contains "neutral" l then
                 (dict_set "neutral" (dict_get_or "neutral" 0 tmp + s) tmp, unknown_sum)
               else (tmp, unknown_sum + s)) pairs ([], 0).

(** [tmp] after folding the unknown mass into neutral when allowed *)
Definition generic_tmp (id2label : list string) (neutral_mode : string) (pairs : list (string * Q))
    : list (string * Q) :=
  let '(tmp, unknown_sum) := generic_accumulate pairs in
  if (model_has_neutral id2label && negb (String.eqb neutral_mode "off")) && Qlt_bool 0 unknown_sum
  then dict_set "neutral" (dict_get_or "neutral" 0 tmp + unknown_sum) tmp
  else tmp.

(** The neutral policy resolves to "no neutral" in the generic branch *)
Definition generic_drops_neutral (id2label : list string) (neutral_mode : string) : bool :=
  String.eqb neutral_mode "off" || (String.eqb neutral_mode "auto" && negb (model_has_neutral id2label)).

Definition generic_sentiment (id2label : list string) (neutral_mode : string) (pairs : list (string * Q))
    : list (string * Q) :=
  let tmp := generic_tmp id2label neutral_mode pairs in
  let total := py_or (py_sum (map snd tmp)) 1 in
  let scores := map (fun kv => (fst kv, snd kv / total)) tmp in
  if generic_drops_neutral id2label neutral_mode then
    let pos := dict_get_or "positive" 0 scores in
    let neg := dict_get_or "negative" 0 scores in
    let denom := pos + neg in
    if Qle_bool denom 0 then [("positive", 1); ("negative", 0)]
    else [("positive", pos / denom); ("negative", neg / denom)]
  else
    let scores := fold_left (fun sc k => dict_setdefault k 0 sc) ["negative"; "neutral"; "positive"] scores in
    let total := py_or (py_sum (map snd scores)) 1 in
    map (fun kv => (fst kv, snd kv / total)) scores.

Record sentiment_result := mkSentiment {
  sent_label : string;
  sent_scores : list (string * Q);
  raw_model : string
}.

(** [ModelManager.analyze_sentiment]: [mid] is the loaded model id,
    [id2label] the values of its [config.id2label], [neutral_mode] the
    value of [get_sentiment_neutral_mode()] and [raw] the classifier's
    output for the text. *)
Definition analyze_sentiment (mid : string) (id2label : list string) (neutral_mode : string)
    (raw : list (string * Q)) : sentiment_result :=
  let pairs := normalize_scores raw true in
  let scores := if String.prefix star_model_prefix mid then star_sentiment neutral_mode pairs
                else generic_sentiment id2label neutral_mode pairs in
  let label := match scores with
               | [] => ""  (* unreachable: scores is never empty *)
               | x :: l => fst (max_by_score x l)
               end in
  {| sent_label := label; sent_scores := scores; raw_model := mid |}.

(** [list.sort(key=score, reverse=True)] / [sorted(...)]: stable, so equal
    scores keep their input order *)
Fixpoint insert_desc (x : string * Q) (l : list (string * Q)) : list (string * Q) :=
  match l with
  | [] => [x]
  | y :: l' => if Qlt_bool (snd y) (snd x) then x :: l else y :: insert_desc x l'
  end.

Definition sort_desc (l : list (string * Q)) : list (string * Q) :=
  fold_left (fun acc x => insert_desc x acc) l [].

(** [if topk and len(xs) > topk: xs = xs[:topk]] *)
Definition truncate_topk (topk : option nat) (xs : list (string * Q)) : list (string * Q) :=
  match topk with
  | Some k => if (0 <? k)%nat && (k <? length xs)%nat then firstn k xs else xs
  | None => xs
  end.

(** [ModelManager.analyze_emotions]: [multi], [thr] and [topk] are the
    values of [is_emotion_multi_label()], [get_emotion_threshold()] and
    [get_emotion_topk()] (an optional cap; [None]/[0] mean no cap). *)
Definition analyze_emotions (multi : bool) (thr : Q) (topk : option nat) (raw : list (string * Q))
    : list (string * Q) :=
  let pairs := normalize_scores raw (negb multi) in
  if multi then
    let selected := filter (fun p => Qle_bool thr (snd p)) pairs in
    let selected := sort_desc selected in
    let selected := truncate_topk topk selected in
    match selected, pairs with
    | [], p :: ps => [max_by_score p ps]
    | _, _ => selected
    end
  else truncate_topk topk (sort_desc pairs).

(* ------------------------------------------------------------------ *)
(** ** Metrics (main.py) *)

Record metrics := mkMetrics {
  start_time : Q;
  inference_latencies_ms : list Q;
  inference_count : nat;
  error_count : nat;
  emotion_top1_scores : list Q;
  emotion_top1_times : list Q
}.

Definition initial_metrics (t0 : Q) : metrics :=
  {| start_time := t0; inference_latencies_ms := []; inference_count := 0; error_count := 0;
     emotion_top1_scores := []; emotion_top1_times := [] |}.

(** [del buf[: len(buf) - 1000]] when [len(buf) > 2000] *)
Definition compact {A} (buf : list A) : list A :=
  if (2000 <? length buf)%nat then skipn (length buf - 1000) buf else buf.

(** [_record_latency_ms] *)
Definition record_latency_ms (ms : Q) (m : metrics) : metrics :=
  let buf := (inference_latencies_ms m ++ [ms])%list in
  {| start_time := start_time m;
     inference_latencies_ms := compact buf;
     inference_count := S (inference_count m);
     error_count := error_count m;
     emotion_top1_scores := emotion_top1_scores m;
     emotion_top1_times := emotion_top1_times m |}.

(** [_record_emotion_top1]; [now] is [time.perf_counter()]. The cap test
    looks at the score buffer only; each buffer drops its own excess. *)
Definition record_emotion_top1 (score now : Q) (m : metrics) : metrics :=
  let scores := (emotion_top1_scores m ++ [score])%list in
  let times := (emotion_top1_times m ++ [now])%list in
  let '(scores, times) :=
    if (2000 <? length scores)%nat
    then (skipn (length scores - 1000) scores, skipn (length times - 1000) times)
    else (scores, times) in
  {| start_time := start_time m;
     inference_latencies_ms := inference_latencies_ms m;
     inference_count := inference_count m;
     error_count := error_count m;
     emotion_top1_scores := scores;
     emotion_top1_times := times |}.

(** Stable ascending insertion, as [sorted(values)] *)
Fixpoint insert_asc (x : Q) (l : list Q) : list Q :=
  match l with
  | [] => [x]
  | y :: l' => if Qlt_bool x y then x :: l else y :: insert_asc x l'
  end.

Definition sort_asc (l : list Q) : list Q := fold_left (fun acc x => insert_asc x acc) l [].

(** Python [int(x)] on a float: truncation toward zero *)
Definition py_int (x : Q) : Z := Z.quot (Qnum x) (Zpos (Qden x)).

(** [_percentile] *)
Definition percentile (values : list Q) (q : Q) : option Q :=
  match values with
  | [] => None
  | _ =>
    let s := sort_asc values in
    let n := Z.of_nat (length s) in
    let idx := py_int (q * inject_Z (n - 1)) in
    let idx := Z.max 0 (Z.min idx (n - 1)) in
    Some (nth (Z.to_nat idx) s 0)
  end.

(** The outcome of one [POST /analyze] request as seen by the metrics:
    - [ReqEmptyText]: rejected with 400 before the timer starts;
    - [ReqFailed dt]: an exception after [t0], handled by the [except];
    - [ReqOk dt canon_pairs now]: the response was built; [canon_pairs]
      is the emotion list and [now] the clock read by the top-1 record. *)
Inductive request_outcome : Type :=
| ReqEmptyText
| ReqFailed (dt : Q)
| ReqOk (dt : Q) (canon_pairs : list (string * Q)) (now : Q).

(** Effect of [analyze] on [_metrics] *)
Definition analyze_metrics (r : request_outcome) (m : metrics) : metrics :=
  match r with
  | ReqEmptyText => m
  | ReqFailed dt =>
    let m1 := record_latency_ms dt m in
    {| start_time := start_time m1;
       inference_latencies_ms := inference_latencies_ms m1;
       inference_count := inference_count m1;
       error_count := S (error_count m1);
       emotion_top1_scores := emotion_top1_scores m1;
       emotion_top1_times := emotion_top1_times m1 |}
  | ReqOk dt canon_pairs now =>
    let m1 := record_latency_ms dt m in
    match canon_pairs with
    | [] => m1
    | (_, s) :: _ => record_emotion_top1 s now m1
    end
  end.

Definition run_requests (rs : list request_outcome) (m : metrics) : metrics :=
  fold_left (fun m r => analyze_metrics r m) rs m.

(** Direct calls of the two record functions *)
Inductive record_op : Type :=
| RecLatency (ms : Q)
| RecTop1 (score now : Q).

Definition record_step (o : record_op) (m : metrics) : metrics :=
  match o with
  | RecLatency ms => record_latency_ms ms m
  | RecTop1 s t => record_emotion_top1 s t m
  end.

Definition run_records (os : list record_op) (m : metrics) : metrics :=
  fold_left (fun m o => record_step o m) os m.

(* ------------------------------------------------------------------ *)
(** ** Unknown labels (analysis.py) *)

(** Python [<] on strings: lexicographic on the code points *)
Fixpoint str_ltb (s1 s2 : string) : bool :=
  match s1, s2 with
  | EmptyString, EmptyString => false
  | EmptyString, String _ _ => true
  | String _ _, EmptyString => false
  | String c1 s1', String c2 s2' =>
    if (nat_of_ascii c1 <? nat_of_ascii c2)%nat then true
    else if (nat_of_ascii c1 =? nat_of_ascii c2)%nat then str_ltb s1' s2' else false
  end.

Fixpoint insert_str (x : string) (l : list string) : list string :=
  match l with
  | [] => [x]
  | y :: l' => if str_ltb x y then x :: l else y :: insert_str x l'
  end.

(** [sorted(xs)] on strings *)
Definition sort_str (l : list string) : list string :=
  fold_left (fun acc x => insert_str x acc) l [].

(** [VADMapper.unknown_labels] *)
Definition unknown_labels (mp : VADMapper) (labels : list string) : list string :=
  let res := fold_left (fun res l =>
                          let c := canonical mp l in
                          if existsb (String.eqb c) (map fst (mapping mp)) then res else app res [l])
                       labels [] in
  sort_str (set_of_list res).

(* ------------------------------------------------------------------ *)
(** ** Loading a VAD table and initialising the mapper (analysis.py) *)

Definition opt_bind {A B} (o : option A) (f : A -> option B) : option B :=
  match o with Some a => f a | None => None end.

(** Python [float(x)] on a value of [json.loads]; [float_of_str] is [float]
    on a string. [None] when it raises. *)
Definition py_float (float_of_str : string -> option Q) (j : json) : option Q :=
  match j with
  | JInt z => Some (inject_Z z)
  | JFloat q _ => Some q
  | JBool b => Some (if b then 1 else 0)
  | JStr s => float_of_str s
  | _ => None
  end.

(** One entry of the loop of [_load_mapping_from_json]: [None] when [float]
    raises, [Some None] when the entry is skipped with a warning *)
Definition load_mapping_entry (float_of_str : string -> option Q) (v : json) : option (option vad) :=
  match v with
  | JObj o =>
    let field key := py_float float_of_str
                       (match dict_get key o with Some x => x | None => JFloat (1#2) "0.5" end) in
    opt_bind (field "valence") (fun va =>
    opt_bind (field "arousal") (fun ar =>
    opt_bind (field "dominance") (fun d => Some (Some (va, ar, d)))))
  | JList [x; y; z] =>
    opt_bind (py_float float_of_str x) (fun va =>
    opt_bind (py_float float_of_str y) (fun ar =>
    opt_bind (py_float float_of_str z) (fun d => Some (Some (va, ar, d)))))
  | _ => Some None
  end.

(** [_load_mapping_from_json] on the parsed file; [None] when it raises
    ([data.items()] on a non-object, or a [float] conversion) *)
Definition load_mapping_from_json (float_of_str : string -> option Q) (data : json)
    : option (list (string * vad)) :=
  match data with
  | JObj o =>
    fold_left (fun acc kv =>
                 opt_bind acc (fun mapping =>
                   match load_mapping_entry float_of_str (snd kv) with
                   | None => None
                   | Some None => Some mapping
                   | Some (Some x) => Some (dict_set (fst kv) x mapping)
                   end))
              o (Some [])
  | _ => None
  end.

(** [(alias or {}).items()] in [VADMapper.__init__], with [str(v)] applied
    to the values; [None] when a truthy non-object raises *)
Definition alias_items (al : option json) : option (list (string * string)) :=
  match al with
  | None => Some []
  | Some j =>
    if truthy j then
      match j with
      | JObj o => Some (map (fun kv => (fst kv, py_str (snd kv))) o)
      | _ => None
      end
    else Some []
  end.

(** [_vad_mapper] replaced, the rest of the state kept *)
Definition set_vad_mapper (st : analysis_state) (mp : VADMapper) : analysis_state :=
  {| vad_mapper := Some mp; negative_labels := negative_labels st;
     negative_path := negative_path st; negative_labels_count := negative_labels_count st;
     negative_labels_source := negative_labels_source st;
     negative_threshold := negative_threshold st |}.

(** The unknown-label part of [_vad_status] *)
Record vad_status := mkVadStatus {
  status_emotion_model_dir : option string;
  status_map_path : option string;
  status_alias_path : option string;
  status_unknown_labels_path : option string;
  status_unknown_labels_count : nat;
  status_unknown_labels : list string
}.

(** The globals of analysis.py: the state, [_last_emotion_dir] and
    [_vad_status] *)
Record vad_globals := mkVadGlobals {
  g_state : analysis_state;
  last_emotion_dir : option string;
  status : vad_status
}.

(** [get_vad_config_paths(dir)] *)
Record vad_paths := mkVadPaths {
  path_map : option string;
  path_alias : option string;
  path_unknown : string
}.

(** What [init_vad_mapper] reads besides [env]: the configured paths,
    [float] on strings, [str(Path(d))], and whether writing a file
    succeeds *)
Record vad_env := mkVadEnv {
  get_vad_config_paths : string -> vad_paths;
  float_of_str : string -> option Q;
  path_str : string -> string;
  write_ok : string -> bool
}.

(** [p.read_text()] then [json.loads]; [None] when either raises *)
Definition read_json (E : env) (p : string) : option json :=
  match fs E p with Some (Some j) => Some j | _ => None end.

(** [init_vad_mapper]; the boolean is [true] when the call raised *)
Definition init_vad_mapper (E : env) (VE : vad_env) (g : vad_globals) (emotion_model_dir : string)
    (emotion_labels : option (list string)) : vad_globals * bool :=
  let emo_dir := path_str VE emotion_model_dir in
  let paths := get_vad_config_paths VE emo_dir in
  let loaded :=
    match path_map paths with
    | None => Some (ensure_default_mapper E (g_state g))
    | Some map_path =>
      opt_bind (read_json E map_path) (fun data =>
      opt_bind (load_mapping_from_json (float_of_str VE) data) (fun mapping =>
        let al := match path_alias paths with
                  | Some ap => read_json E ap
                  | None => None
                  end in
        opt_bind (alias_items al) (fun items =>
          let mp := VADMapper_init mapping (Some items) in
          Some (mp, set_vad_mapper (g_state g) mp))))
    end in
  match loaded with
  | None => ({| g_state := g_state g; last_emotion_dir := Some emo_dir; status := status g |}, true)
  | Some (mapper, st1) =>
    let unknown_path := path_unknown paths in
    let unknowns := match emotion_labels with Some ls => unknown_labels mapper ls | None => [] end in
    let status1 :=
      if write_ok VE unknown_path then
        {| status_emotion_model_dir := Some emo_dir;
           status_map_path := path_map paths;
           status_alias_path := path_alias paths;
           status_unknown_labels_path := Some unknown_path;
           status_unknown_labels_count := length unknowns;
           status_unknown_labels := unknowns |}
      else status g in
    ({| g_state := st1; last_emotion_dir := Some emo_dir; status := status1 |}, false)
  end.

(** The file [init_vad_mapper] writes: [{"unknown_labels": unknowns}] *)
Definition unknown_labels_json (unknowns : list string) : json :=
  JObj [("unknown_labels", JList (map JStr unknowns))].

(** [get_vad_status]: the globals after the call and the snapshot it
    returns *)
Definition get_vad_status (E : env) (g : vad_globals) : vad_globals * vad_status :=
  let st1 := snd (ensure_default_mapper E (g_state g)) in
  let s := status g in
  let s1 :=
    match status_unknown_labels_path s with
    | Some upath =>
      if String.eqb upath "" then s else
      match read_json E upath with
      | Some (JObj o) =>
        match dict_get_or "unknown_labels" (JList []) o with
        | JList u =>
          let u' := map py_str u in
          {| status_emotion_model_dir := status_emotion_model_dir s;
             status_map_path := status_map_path s;
             status_alias_path := status_alias_path s;
             status_unknown_labels_path := status_unknown_labels_path s;
             status_unknown_labels_count := length u';
             status_unknown_labels := u' |}
        | _ => s
        end
      | _ => s
      end
    | None => s
    end in
  ({| g_state := st1; last_emotion_dir := last_emotion_dir g; status := s1 |}, s1).

(* ------------------------------------------------------------------ *)
(** ** Emotion labels from the model config (main.py) *)

(** A key of [config.id2label]: an [int] or a [str] *)
Inductive pykey : Type :=
| KInt (z : Z)
| KStr (s : string).

Definition pykey_eqb (k1 k2 : pykey) : bool :=
  match k1, k2 with
  | KInt a, KInt b => Z.eqb a b
  | KStr a, KStr b => String.eqb a b
  | _, _ => false
  end.

(** [str.isdigit()] on ASCII *)
Definition isdigit (s : string) : bool :=
  match s with
  | EmptyString => false
  | _ => forallb (fun c => match digit_val c with Some _ => true | None => false end) (list_ascii_of_string s)
  end.

Definition key_is_numeric (k : pykey) : bool :=
  match k with KInt _ => true | KStr s => isdigit s end.

(** [int(k)]: [int] on a string ignores surrounding whitespace *)
Definition key_int (k : pykey) : option Z :=
  match k with KInt z => Some z | KStr s => parse_py_int (strip s) end.

Fixpoint map_option {A B} (f : A -> option B) (l : list A) : option (list B) :=
  match l with
  | [] => Some []
  | x :: l' => opt_bind (f x) (fun y => option_map (cons y) (map_option f l'))
  end.

Fixpoint pykey_lookup {A} (k : pykey) (d : list (pykey * A)) : option A :=
  match d with
  | [] => None
  | (k', v) :: d' => if pykey_eqb k k' then Some v else pykey_lookup k d'
  end.

Fixpoint insert_Z (x : Z) (l : list Z) : list Z :=
  match l with
  | [] => [x]
  | y :: l' => if Z.ltb x y then x :: l else y :: insert_Z x l'
  end.

(** [sorted(...)] on ints *)
Definition sort_Z (l : list Z) : list Z := fold_left (fun acc x => insert_Z x acc) l [].

(** The [labels] computed from [getattr(emo_pipe.model.config, "id2label",
    None)] in [lifespan] and [analyze]; [None] when it is not a dict. An
    exception inside the [try] leaves [labels = []]. *)
Definition id2label_labels (id2label : option (list (pykey * json))) : list string :=
  match id2label with
  | Some ((_ :: _) as d) =>
    if existsb key_is_numeric (map fst d) then
      match map_option key_int (map fst d) with
      | Some ks =>
        match map_option (fun i => pykey_lookup (KInt i) d) (sort_Z ks) with
        | Some vs => map py_str vs
        | None => []
        end
      | None => []
      end
    else map (fun kv => py_str (snd kv)) d
  | _ => []
  end.

(* ------------------------------------------------------------------ *)
(** ** Recent-window statistics of /metrics (main.py) *)

Record window_stats := mkWindowStats {
  ws_avg : option Q;
  ws_p50 : option Q;
  ws_p95 : option Q;
  ws_p99 : option Q;
  ws_count : nat
}.

Definition empty_window : window_stats :=
  {| ws_avg := None; ws_p50 := None; ws_p95 := None; ws_p99 := None; ws_count := 0 |}.

(** [_recent(vals, times, window_sec)] inside [metrics]; [now] is the
    clock read at the start of the request *)
Definition recent (now : Q) (vals times : list Q) (window_sec : Q) : window_stats :=
  match vals, times with
  | [], _ | _, [] => empty_window
  | _, _ =>
    let sel := map fst (filter (fun vt => Qle_bool (now - snd vt) window_sec) (combine vals times)) in
    match sel with
    | [] => empty_window
    | _ => {| ws_avg := Some (py_sum sel / inject_Z (Z.of_nat (length sel)));
              ws_p50 := percentile sel (50#100);
              ws_p95 := percentile sel (95#100);
              ws_p99 := percentile sel (99#100);
              ws_count := length sel |}
    end
  end.

(* ------------------------------------------------------------------ *)
(** ** Local model discovery and loading (models.py) *)

(** [Path(a) / b] and [Path(s).is_absolute()] on paths in normal form *)
Definition path_join (a b : string) : string := a ++ "/" ++ b.

Definition is_absolute (s : string) : bool := String.prefix "/" s.

(** The file system and configuration seen by [_build_local_candidates]:
    [fs_exists], [fs_is_dir], the entry names of [iterdir()] in iteration
    order, [read_text] ([None] when it raises), [get_model_selector(kind)]
    ([None] when it returns None or raises) and the project root
    [Path(__file__).resolve().parents[1]]. *)
Record fs_env := mkFsEnv {
  fs_exists : string -> bool;
  fs_is_dir : string -> bool;
  fs_iterdir : string -> list string;
  fs_read_text : string -> option string;
  get_model_selector : string -> option string;
  fs_project_root : string
}.

(** [is_model_dir] *)
Definition is_model_dir (F : fs_env) (d : string) : bool :=
  fs_exists F (path_join d "config.json") || fs_exists F (path_join d "pytorch_model.bin")
  || fs_exists F (path_join d "model.safetensors").

(** The line boundaries of [str.splitlines] among ASCII characters *)
Definition is_line_boundary (c : ascii) : bool :=
  let n := nat_of_ascii c in
  (n =? 10)%nat || (n =? 13)%nat || (n =? 11)%nat || (n =? 12)%nat
  || (n =? 28)%nat || (n =? 29)%nat || (n =? 30)%nat.

Fixpoint first_line_chars (s : string) : string :=
  match s with
  | EmptyString => EmptyString
  | String c s' => if is_line_boundary c then EmptyString else String c (first_line_chars s')
  end.

(** [s.splitlines()[0]]; [None] for the [IndexError] of an empty string *)
Definition splitlines_first (s : string) : option string :=
  match s with
  | EmptyString => None
  | String _ _ => Some (first_line_chars s)
  end.

(** The optional [priority.txt] line *)
Definition read_priority (F : fs_env) (base : string) : option string :=
  let priority_path := path_join base "priority.txt" in
  if fs_exists F priority_path then
    match fs_read_text F priority_path with
    | Some t => match splitlines_first (strip t) with
                | Some l => Some (strip l)
                | None => None
                end
    | None => None
    end
  else None.

(** The environment selector, when it names a model directory *)
Definition selector_candidate (F : fs_env) (kind base : string) : option string :=
  match get_model_selector F kind with
  | Some selector =>
    if String.eqb selector "" then None
    else
      let sp := if is_absolute selector then selector else path_join base selector in
      if is_model_dir F sp then Some sp else None
  | None => None
  end.

(** [subs]: the names of the model subdirectories, in [iterdir()] order *)
Definition model_subdirs (F : fs_env) (base : string) : list string :=
  filter (fun n => fs_is_dir F (path_join base n) && is_model_dir F (path_join base n)) (fs_iterdir F base).

(** [sorted(xs, key=...)] for a strict order [ltb] on the keys: a stable
    insertion sort *)
Fixpoint insert_by {A} (ltb : A -> A -> bool) (x : A) (l : list A) : list A :=
  match l with
  | [] => [x]
  | y :: l' => if ltb x y then x :: l else y :: insert_by ltb x l'
  end.

Definition sort_by {A} (ltb : A -> A -> bool) (l : list A) : list A :=
  fold_left (fun acc x => insert_by ltb x acc) l [].

(** [key=lambda p: p.name.lower()] *)
Definition name_ltb (a b : string) : bool := str_ltb (lower a) (lower b).

(** [key=lambda p: (0 if p.name == priority else 1, p.name.lower())] *)
Definition priority_rank (priority n : string) : nat := if String.eqb n priority then 0 else 1.

Definition priority_ltb (priority a b : string) : bool :=
  let ra := priority_rank priority a in
  let rb := priority_rank priority b in
  (ra <? rb)%nat || ((ra =? rb)%nat && str_ltb (lower a) (lower b)).

(** [ModelManager._build_local_candidates] *)
Definition build_local_candidates (F : fs_env) (kind : string) : list string :=
  let base := path_join (path_join (fs_project_root F) "models") kind in
  if negb (fs_exists F base) then []
  else
    match selector_candidate F kind base with
    | Some sp => [sp]
    | None =>
      if is_model_dir F base then [base]
      else
        let priority := read_priority F base in
        let subs_sorted := sort_by name_ltb (model_subdirs F base) in
        let subs_sorted := match priority with
                           | Some p => if String.eqb p "" then subs_sorted
                                       else sort_by (priority_ltb p) subs_sorted
                           | None => subs_sorted
                           end in
        map (path_join base) subs_sorted
    end.

Section ModelLoading.
Context {P : Type}.

(** The loader state of [ModelManager]; [P] is the pipeline type *)
Record model_manager := mkModelManager {
  sentiment_pipe : option P;
  sentiment_model_id : option string;
  emotion_pipe : option P;
  emotion_model_id : option string;
  sentiment_candidates : list string;
  emotion_candidates : list string;
  sentiment_load_sec : option Q;
  emotion_load_sec : option Q
}.

(** [_load_first_available]: [try_load mid multilabel] is the pipeline
    built from [mid] with its load time, or [None] when loading raises;
    [None] as a result is the final [RuntimeError]. *)
Fixpoint load_first_available (try_load : string -> bool -> option (P * Q)) (model_ids : list string)
    (multilabel : bool) : option (P * string * Q) :=
  match model_ids with
  | [] => None
  | mid :: rest =>
    match try_load mid multilabel with
    | Some (pipe, dt) => Some (pipe, mid, dt)
    | None => load_first_available try_load rest multilabel
    end
  end.

(** [ensure_emotion]: [multi] is [is_emotion_multi_label()]; the state is
    returned also when the call raises ([None]), since the candidate list
    is stored first. *)
Definition ensure_emotion (F : fs_env) (try_load : string -> bool -> option (P * Q)) (multi : bool)
    (st : model_manager) : model_manager * option (P * option string) :=
  match emotion_pipe st with
  | Some pipe => (st, Some (pipe, emotion_model_id st))
  | None =>
    let local := build_local_candidates F "emotion" in
    let st1 := {| sentiment_pipe := sentiment_pipe st; sentiment_model_id := sentiment_model_id st;
                  emotion_pipe := emotion_pipe st; emotion_model_id := emotion_model_id st;
                  sentiment_candidates := sentiment_candidates st; emotion_candidates := local;
                  sentiment_load_sec := sentiment_load_sec st; emotion_load_sec := emotion_load_sec st |} in
    match local with
    | [] => (st1, None)
    | _ :: _ =>
      match load_first_available try_load local multi with
      | None => (st1, None)
      | Some (pipe, mid, dt) =>
        ({| sentiment_pipe := sentiment_pipe st; sentiment_model_id := sentiment_model_id st;
            emotion_pipe := Some pipe; emotion_model_id := Some mid;
            sentiment_candidates := sentiment_candidates st; emotion_candidates := local;
            sentiment_load_sec := sentiment_load_sec st; emotion_load_sec := Some dt |},
         Some (pipe, Some mid))
      end
    end
  end.

End ModelLoading.

(* ------------------------------------------------------------------ *)
(** ** Specification-side definitions (from the spec's words) *)

Definition vad_v (x : vad) : Q := fst (fst x).
Definition vad_a (x : vad) : Q := snd (fst x).
Definition vad_d (x : vad) : Q := snd x.

(** Componentwise equality of VAD vectors *)
Definition vad_eq (x y : vad) : Prop :=
  vad_v x == vad_v y /\ vad_a x == vad_a y /\ vad_d x == vad_d y.

(** Sum of the scores of a distribution *)
Definition total_score (D : list (string * Q)) : Q :=
  fold_right (fun p acc => snd p + acc) 0 D.

(** Sum over pairs of [score * axis(map_label label)] *)
Definition weighted_axis (axis : vad -> Q) (mp : VADMapper) (D : list (string * Q)) : Q :=
  fold_right (fun p acc => snd p * axis (map_label mp (fst p)) + acc) 0 D.

(** The score-weighted average as the spec describes it *)
Definition map_distribution_spec (mp : VADMapper) (D : list (string * Q)) : vad :=
  if match D with [] => true | _ => false end || Qle_bool (total_score D) 0 then neutral_vad
  else (weighted_axis vad_v mp D / total_score D,
        weighted_axis vad_a mp D / total_score D,
        weighted_axis vad_d mp D / total_score D).

(** The canonicaliser in use once the mapper has been ensured *)
Definition ensured_mapper (E : env) (st : analysis_state) : VADMapper :=
  fst (ensure_default_mapper E st).

(** The canonical form [derive_stress] uses in a given state *)
Definition stress_canon (st : analysis_state) (label : string) : string :=
  match vad_mapper st with Some mp => canonical mp label | None => lower label end.

(** The negative-label set of a state ([None] read as empty) *)
Definition neg_set (st : analysis_state) : list string :=
  match negative_labels st with Some s => s | None => [] end.

(** Sum of the scores of the entries whose canonical label is negative *)
Definition neg_mass (canon : string -> string) (neg : list string) (D : list (string * Q)) : Q :=
  fold_right (fun p acc => (if existsb (String.eqb (canon (fst p))) neg then snd p else 0) + acc) 0 D.

(** Clamping to [0, 1] *)
Definition clamp01 (x : Q) : Q := if Qlt_bool x 0 then 0 else if Qlt_bool 1 x then 1 else x.

(** Floor of a rational: the index the spec gives for a percentile *)
Definition spec_percentile_index (q : Q) (n : nat) : nat :=
  Z.to_nat (Z.max 0 (Z.min (Qfloor (q * inject_Z (Z.of_nat n - 1))) (Z.of_nat n - 1))).

(** Sorted by descending score *)
Definition desc_sorted (l : list (string * Q)) : Prop := Sorted (fun x y => snd y <= snd x) l.

(** The entries that meet the multi-label threshold *)
Definition above_threshold (thr : Q) (pairs : list (string * Q)) : list (string * Q) :=
  filter (fun p => Qle_bool thr (snd p)) pairs.

(** Invariant of the metrics buffers *)
Definition metrics_inv (m : metrics) : Prop :=
  (length (inference_latencies_ms m) <= 2000)%nat /\
  (length (emotion_top1_scores m) <= 2000)%nat /\
  length (emotion_top1_scores m) = length (emotion_top1_times m).

(** Sum of a list of rationals *)
Definition qsum (l : list Q) : Q := fold_right Qplus 0 l.

(** Total of the negative-clamped scores *)
Definition clamped_total (D : list (string * Q)) : Q := qsum (map (fun p => py_max 0 (snd p)) D).





(** Membership in the set read from a negative-label file, by the shape
    of its parsed contents (an object is a parsed dict: unique keys) *)
Definition file_label_member (j : json) (x : string) : Prop :=
  match j with
  | JList xs => exists y, In y xs /\ lower (py_str y) = x
  | JObj o =>
    match dict_get "labels" o with
    | Some (JList xs) => exists y, In y xs /\ lower (py_str y) = x
    | _ => exists kv, In kv o /\ truthy (snd kv) = true /\ lower (fst kv) = x
    end
  | _ => False
  end.

(** The value of the last entry of key [k] in an association list *)
Definition last_assoc {A} (k : string) (l : list (string * A)) : option A :=
  fold_left (fun acc kv => if String.eqb k (fst kv) then Some (snd kv) else acc) l None.

(** Two distributions with the same labels in the same order and equal
    scores *)
Definition pairs_eq (l1 l2 : list (string * Q)) : Prop :=
  map fst l1 = map fst l2 /\ Forall2 Qeq (map snd l1) (map snd l2).

(** The order of the stress levels *)
Definition level_rank (level : string) : nat :=
  if String.eqb level "low" then 0 else if String.eqb level "medium" then 1 else 2.

(** The latencies recorded by a sequence of requests, in order *)
Definition request_latencies (rs : list request_outcome) : list Q :=
  flat_map (fun r => match r with
                     | ReqEmptyText => []
                     | ReqFailed dt => [dt]
                     | ReqOk dt _ _ => [dt]
                     end) rs.

(** The top-1 scores and clock reads recorded by a sequence of requests *)
Definition request_top1 (rs : list request_outcome) : list (Q * Q) :=
  flat_map (fun r => match r with
                     | ReqOk _ ((_, s) :: _) now => [(s, now)]
                     | _ => []
                     end) rs.

Definition failed_requests (rs : list request_outcome) : nat :=
  length (filter (fun r => match r with ReqFailed _ => true | _ => false end) rs).

(** Order on optional values, as two percentiles compare *)
Definition opt_le (a b : option Q) : Prop :=
  match a, b with
  | Some x, Some y => x <= y
  | None, None => True
  | _, _ => False
  end.

(** The entries [_load_mapping_from_json] keeps, in file order *)
Definition mapping_entries (float_of_str : string -> option Q) (o : list (string * json))
    : list (string * vad) :=
  flat_map (fun kv => match load_mapping_entry float_of_str (snd kv) with
                      | Some (Some x) => [(fst kv, x)]
                      | _ => []
                      end) o.

(** Whether converting an entry raises *)
Definition entry_raises (float_of_str : string -> option Q) (kv : string * json) : bool :=
  match load_mapping_entry float_of_str (snd kv) with None => true | _ => false end.

(** The negative-label part of the state *)
Definition neg_part (st : analysis_state)
    : option (list string) * option string * nat * option string * option Q :=
  (negative_labels st, negative_path st, negative_labels_count st,
   negative_labels_source st, negative_threshold st).

(** Strictly increasing integer keys *)
Definition key_lt (kv1 kv2 : pykey * json) : Prop :=
  match fst kv1, fst kv2 with
  | KInt a, KInt b => (a < b)%Z
  | _, _ => False
  end.

(** The label classes of the generic sentiment branch, by substring of the
    lower-cased label *)
Definition is_pos_label (p : string * Q) : bool := contains "pos" (lower (fst p)).
Definition is_neg_label (p : string * Q) : bool := contains "neg" (lower (fst p)).
Definition is_neu_label (p : string * Q) : bool := contains "neu" (lower (fst p)).

Definition class_mass (f : string * Q -> bool) (pairs : list (string * Q)) : Q :=
  qsum (map snd (filter f pairs)).

(* ------------------------------------------------------------------ *)
(** * Proofs *)

(** ** The VAD mapping engine *)

Lemma map_distribution_loop (mp : VADMapper) (D : list (string * Q)) :
  forall acc : Q * Q * Q * Q,
    let r := fold_left (map_distribution_step mp) D acc in
    fst (fst (fst r)) == fst (fst (fst acc)) + weighted_axis vad_v mp D /\
    snd (fst (fst r)) == snd (fst (fst acc)) + weighted_axis vad_a mp D /\
    snd (fst r) == snd (fst acc) + weighted_axis vad_d mp D /\
    snd r == snd acc + total_score D.
Proof.
  induction D as [| [label score] D IH]; intros [[[v a] d] t]; cbn [fold_left].
  - cbn; repeat split; ring.
  - destruct (map_label mp label) as [[vv aa] dd] eqn:Hm.
    assert (Hs : map_distribution_step mp (v, a, d, t) (label, score)
                 = (v + score * vv, a + score * aa, d + score * dd, t + score))
      by (unfold map_distribution_step; rewrite Hm; reflexivity).
    rewrite Hs.
    destruct (IH (v + score * vv, a + score * aa, d + score * dd, t + score)) as (H1 & H2 & H3 & H4).
    unfold weighted_axis, total_score in *. cbn [fold_right fst snd] in *.
    rewrite Hm. unfold vad_v, vad_a, vad_d in *. cbn [fst snd].
    repeat split; [rewrite H1 | rewrite H2 | rewrite H3 | rewrite H4]; ring.
Qed.

Lemma Qle_bool_compat (x y z : Q) : x == y -> Qle_bool x z = Qle_bool y z.
Proof.
  intros H. destruct (Qle_bool x z) eqn:E1, (Qle_bool y z) eqn:E2; auto;
    apply Qle_bool_iff in E1 || apply Qle_bool_iff in E2;
    [ assert (y <= z) by (rewrite <- H; exact E1)
    | assert (x <= z) by (rewrite H; exact E2) ];
    apply Qle_bool_iff in H0; congruence.
Qed.

(** C1: [map_distribution] returns the neutral fallback (0.5, 0.5, 0.5) on
    an empty distribution or when the total score is <= 0, and otherwise,
    axis by axis, the sum of [score * map_label(label)] divided by the total
    score, where [map_label] is the table entry of the canonical label or
    (0.5, 0.5, 0.5) when it is absent. *)
Theorem map_distribution_weighted_average (mp : VADMapper) (D : list (string * Q)) :
  vad_eq (map_distribution mp D) (map_distribution_spec mp D).
Proof.
  unfold map_distribution, map_distribution_spec.
  destruct D as [| p D'].
  - repeat split; reflexivity.
  - set (D := p :: D').
    pose proof (map_distribution_loop mp D (0, 0, 0, 0)) as HL. cbv zeta in HL.
    destruct (fold_left (map_distribution_step mp) D (0, 0, 0, 0)) as [[[v a] d] t].
    cbn [fst snd] in HL. destruct HL as (H1 & H2 & H3 & H4).
    rewrite Qplus_0_l in H1, H2, H3, H4.
    change (match D with [] => true | _ => false end) with false. rewrite orb_false_l.
    rewrite (Qle_bool_compat t (total_score D) 0 H4).
    destruct (Qle_bool (total_score D) 0).
    + repeat split; reflexivity.
    + unfold vad_eq, vad_v, vad_a, vad_d in *; cbn [fst snd].
      rewrite H1, H2, H3, H4. repeat split; reflexivity.
Qed.

(** ** Canonicalising a distribution *)

Lemma canonicalize_loop (mp : VADMapper) (D : list (string * Q)) :
  forall acc,
    fold_left (fun res pair => let '(lbl, score) := pair in app res [(canonical mp lbl, score)]) D acc
    = app acc (map (fun p => (canonical mp (fst p), snd p)) D).
Proof.
  induction D as [| [l s] D IH]; intros acc; simpl.
  - now rewrite app_nil_r.
  - rewrite IH. now rewrite <- app_assoc.
Qed.

(** C10: [canonicalize_distribution] returns a list of the same length as
    its input, pair by pair in the same order, with the same score and the
    label replaced by its canonical form; the input is a value and is not
    changed, and the only state change is installing the default mapper
    when none was loaded. *)
Theorem canonicalize_distribution_pointwise (E : env) (st : analysis_state) (D : list (string * Q)) :
  let '(res, st1) := canonicalize_distribution E st D in
  length res = length D /\
  (forall i, nth_error res i
             = option_map (fun p => (canonical (ensured_mapper E st) (fst p), snd p)) (nth_error D i)) /\
  st1 = snd (ensure_default_mapper E st).
Proof.
  unfold canonicalize_distribution, ensured_mapper.
  destruct (ensure_default_mapper E st) as [mp st1]. simpl.
  rewrite canonicalize_loop. simpl.
  split; [now rewrite length_map |]. split; [| reflexivity].
  intros i. now rewrite nth_error_map.
Qed.

(** ** Percentiles *)

Lemma Qlt_bool_iff (a b : Q) : Qlt_bool a b = true <-> a < b.
Proof.
  unfold Qlt_bool. rewrite negb_true_iff. split.
  - intros H. apply Qnot_le_lt. intros H'. apply Qle_bool_iff in H'. congruence.
  - intros H. destruct (Qle_bool b a) eqn:E; auto.
    apply Qle_bool_iff in E. exfalso. apply (Qlt_not_le a b); auto.
Qed.

Lemma Qlt_bool_false (a b : Q) : Qlt_bool a b = false <-> b <= a.
Proof.
  unfold Qlt_bool. rewrite negb_false_iff. apply Qle_bool_iff.
Qed.

(** Turn the boolean float comparisons of the context into [<] / [<=] *)
Ltac qlt_bool_hyps :=
  repeat match goal with
         | H : Qlt_bool _ _ = true |- _ => apply Qlt_bool_iff in H
         | H : Qlt_bool _ _ = false |- _ => apply Qlt_bool_false in H
         | H : Qle_bool _ _ = true |- _ => apply Qle_bool_iff in H
         end.

(** Case on every float comparison of the goal *)
Ltac case_qlt :=
  repeat match goal with
         | |- context [Qlt_bool ?a ?b] => let H := fresh "Hc" in destruct (Qlt_bool a b) eqn:H
         end; qlt_bool_hyps.

Lemma insert_asc_perm (x : Q) (l : list Q) : Permutation (insert_asc x l) (x :: l).
Proof.
  induction l as [| y l IH]; simpl; auto.
  destruct (Qlt_bool x y); auto.
  rewrite IH. apply perm_swap.
Qed.

Lemma insert_asc_sorted (x : Q) (l : list Q) : Sorted Qle l -> Sorted Qle (insert_asc x l).
Proof.
  induction 1 as [| y l Hs IH Hhd]; simpl.
  - repeat constructor.
  - destruct (Qlt_bool x y) eqn:E.
    + apply Qlt_bool_iff in E. constructor; [constructor; auto | constructor; now apply Qlt_le_weak].
    + apply Qlt_bool_false in E. constructor; auto.
      destruct l as [| z l]; simpl; [constructor; auto |].
      inversion Hhd; subst. destruct (Qlt_bool x z); constructor; auto.
Qed.

Lemma sort_asc_loop (l : list Q) :
  forall acc, Sorted Qle acc ->
    Sorted Qle (fold_left (fun acc x => insert_asc x acc) l acc) /\
    Permutation (fold_left (fun acc x => insert_asc x acc) l acc) (l ++ acc).
Proof.
  induction l as [| x l IH]; intros acc Hs; simpl; [split; auto |].
  destruct (IH (insert_asc x acc) (insert_asc_sorted x acc Hs)) as [H1 H2].
  split; auto.
  rewrite H2, insert_asc_perm. symmetry. apply Permutation_middle.
Qed.

Lemma sort_asc_spec (l : list Q) : Sorted Qle (sort_asc l) /\ Permutation (sort_asc l) l.
Proof.
  unfold sort_asc. destruct (sort_asc_loop l [] (Sorted_nil _)) as [H1 H2].
  rewrite app_nil_r in H2. auto.
Qed.

(** [int()] and the floor agree once the index is clamped at 0 *)
Lemma clamp_py_int_floor (x : Q) (m : Z) :
  (0 <= m)%Z -> Z.max 0 (Z.min (py_int x) m) = Z.max 0 (Z.min (Qfloor x) m).
Proof.
  intros Hm. destruct x as [a b]. unfold py_int, Qfloor. simpl.
  destruct (Z_le_gt_dec 0 a) as [Ha | Ha].
  - rewrite Z.quot_div_nonneg; lia.
  - assert (Hq : (Z.quot a (Z.pos b) <= 0)%Z).
    { assert ((0 <= Z.quot (- a) (Z.pos b))%Z) by (apply Z.quot_pos; lia).
      rewrite Z.quot_opp_l in H by lia. lia. }
    assert (Hd : (a / Z.pos b < 0)%Z) by (apply Z.div_lt_upper_bound; lia).
    lia.
Qed.

(** C7: [_percentile] returns [None] on the empty list and otherwise the
    element of the ascending-sorted list at index [floor(q * (n - 1))]
    clamped to [0, n - 1] (for every [q], in particular [q] in [0, 1]);
    the list it indexes is sorted ascending and a permutation of the input;
    and [percentile([10,20,30,40,50], 0.5) = 30]. *)
Theorem percentile_nearest_rank (values : list Q) (q : Q) :
  percentile values q =
    match values with
    | [] => None
    | _ => Some (nth (spec_percentile_index q (length values)) (sort_asc values) 0)
    end /\
  Sorted Qle (sort_asc values) /\ Permutation (sort_asc values) values /\
  percentile [10; 20; 30; 40; 50] (1#2) = Some 30.
Proof.
  destruct (sort_asc_spec values) as [Hs Hp].
  split; [| split; [exact Hs | split; [exact Hp | reflexivity]]].
  unfold percentile, spec_percentile_index.
  destruct values as [| v vs]; [reflexivity |].
  rewrite (Permutation_length Hp).
  rewrite clamp_py_int_floor; [reflexivity | cbn [length]; lia].
Qed.

(** ** Stress scoring *)

Lemma derive_stress_loop (st1 : analysis_state) (D : list (string * Q)) :
  forall acc,
    fold_left (fun acc pair =>
                 let '(label, score) := pair in
                 let canon := match vad_mapper st1 with
                              | Some mp => canonical mp label
                              | None => lower label
                              end in
                 match negative_labels st1 with
                 | Some ((_ :: _) as neg) => if existsb (String.eqb canon) neg then acc + score else acc
                 | _ => acc
                 end) D acc
    == acc + neg_mass (stress_canon st1) (neg_set st1) D.
Proof.
  induction D as [| [l s] D IH]; intros acc; simpl.
  - ring.
  - rewrite IH. unfold neg_set, stress_canon.
    destruct (negative_labels st1) as [[| n ns] |]; simpl; try ring.
    destruct (vad_mapper st1); simpl;
      repeat match goal with |- context [if ?b then _ else _] => destruct b end; ring.
Qed.

Lemma clamp01_compat (x y : Q) : x == y -> clamp01 x == clamp01 y.
Proof.
  intros H. unfold clamp01.
  case_qlt; try reflexivity; try (exfalso; lra). exact H.
Qed.

(** C2: [derive_stress] returns the score
    [clamp01(0.6 * (1 - V) + 0.4 * A + 0.15 * neg_mass)], where [neg_mass] is
    the sum of the scores of the entries whose canonical label is in the
    negative-label set (after the lazy initialisation); the score is in
    [0, 1]; the level is "low" exactly when score < 0.33, "medium" exactly
    when 0.33 <= score < 0.66 and "high" exactly when score >= 0.66. *)
Theorem derive_stress_formula (E : env) (st : analysis_state) (V A : Q) (D : list (string * Q)) :
  let '(s, level, st1) := derive_stress E st V A D in
  s == clamp01 ((6#10) * (1 - V) + (4#10) * A + (15#100) * neg_mass (stress_canon st1) (neg_set st1) D) /\
  0 <= s <= 1 /\
  (level = "low" <-> s < 33#100) /\
  (level = "medium" <-> 33#100 <= s /\ s < 66#100) /\
  (level = "high" <-> 66#100 <= s).
Proof.
  unfold derive_stress.
  set (st1 := match negative_labels st with
              | Some _ => st
              | None => init_negative_labels E st (project_root E ++ "/models/emotion") None
              end).
  set (ns := fold_left _ D 0).
  assert (Hns : ns == neg_mass (stress_canon st1) (neg_set st1) D)
    by (unfold ns; rewrite derive_stress_loop; ring).
  cbv zeta.
  set (x := (6#10) * (1 - V) + (4#10) * A + (15#100) * ns).
  assert (Hx : x == (6#10) * (1 - V) + (4#10) * A + (15#100) * neg_mass (stress_canon st1) (neg_set st1) D)
    by (unfold x; rewrite Hns; reflexivity).
  set (s := py_max 0 (py_min 1 x)).
  cbv beta iota.
  assert (Hs : s == clamp01 x /\ 0 <= clamp01 x <= 1).
  { unfold s, py_max, py_min, clamp01.
    destruct (Qlt_bool x 1) eqn:H1; case_qlt; split; try reflexivity; try lra; exfalso; lra. }
  destruct Hs as [Heq Hb].
  split; [rewrite Heq; apply clamp01_compat; exact Hx |].
  split; [rewrite Heq; exact Hb |].
  unfold stress_level.
  case_qlt; repeat split; intros; try discriminate; try lra.
Qed.

(** ** Emotion selection *)

Lemma insert_desc_perm (x : string * Q) (l : list (string * Q)) : Permutation (insert_desc x l) (x :: l).
Proof.
  induction l as [| y l IH]; simpl; auto.
  destruct (Qlt_bool (snd y) (snd x)); auto.
  rewrite IH. apply perm_swap.
Qed.

Lemma insert_desc_sorted (x : string * Q) (l : list (string * Q)) :
  desc_sorted l -> desc_sorted (insert_desc x l).
Proof.
  unfold desc_sorted. induction 1 as [| y l Hs IH Hhd]; simpl.
  - repeat constructor.
  - destruct (Qlt_bool (snd y) (snd x)) eqn:E; qlt_bool_hyps.
    + constructor; [constructor; auto | constructor; now apply Qlt_le_weak].
    + constructor; auto.
      destruct l as [| z l]; simpl; [constructor; auto |].
      inversion Hhd; subst. destruct (Qlt_bool (snd z) (snd x)); constructor; auto.
Qed.

Lemma sort_desc_loop (l : list (string * Q)) :
  forall acc, desc_sorted acc ->
    desc_sorted (fold_left (fun acc x => insert_desc x acc) l acc) /\
    Permutation (fold_left (fun acc x => insert_desc x acc) l acc) (l ++ acc).
Proof.
  induction l as [| x l IH]; intros acc Hs; simpl; [split; auto |].
  destruct (IH (insert_desc x acc) (insert_desc_sorted x acc Hs)) as [H1 H2].
  split; auto.
  rewrite H2, insert_desc_perm. symmetry. apply Permutation_middle.
Qed.

Lemma sort_desc_spec (l : list (string * Q)) : desc_sorted (sort_desc l) /\ Permutation (sort_desc l) l.
Proof.
  unfold sort_desc. destruct (sort_desc_loop l [] (Sorted_nil _)) as [H1 H2].
  rewrite app_nil_r in H2. auto.
Qed.

Lemma max_by_score_spec {A} (l : list (A * Q)) :
  forall best, In (max_by_score best l) (best :: l) /\
               forall y, In y (best :: l) -> snd y <= snd (max_by_score best l).
Proof.
  induction l as [| x l IH]; intros best; simpl.
  - split; [auto |]. intros y [<- | []]. apply Qle_refl.
  - destruct (Qlt_bool (snd best) (snd x)) eqn:E; qlt_bool_hyps.
    + destruct (IH x) as [Hin Hmax]. split.
      * right. exact Hin.
      * intros y [<- | Hy]; [| apply Hmax; exact Hy].
        apply Qle_trans with (snd x); [now apply Qlt_le_weak | apply Hmax; now left].
    + destruct (IH best) as [Hin Hmax]. split.
      * destruct Hin as [H | H]; [left; exact H | right; right; exact H].
      * intros y [<- | [<- | Hy]].
        -- apply Hmax. now left.
        -- apply Qle_trans with (snd best); [exact E | apply Hmax; now left].
        -- apply Hmax. now right.
Qed.

Lemma truncate_topk_nonempty (topk : option nat) (xs : list (string * Q)) :
  xs <> [] -> truncate_topk topk xs <> [].
Proof.
  intros Hne. unfold truncate_topk.
  destruct topk as [k |]; auto.
  destruct ((0 <? k)%nat && (k <? length xs)%nat) eqn:E; auto.
  apply andb_true_iff in E as [E _]. apply Nat.ltb_lt in E.
  destruct xs as [| x xs]; [congruence |]. destruct k; [lia |]. simpl. congruence.
Qed.

Lemma truncate_topk_firstn (topk : option nat) (xs : list (string * Q)) :
  truncate_topk topk xs = match topk with
                          | Some k => if (0 <? k)%nat then firstn k xs else xs
                          | None => xs
                          end.
Proof.
  unfold truncate_topk. destruct topk as [k |]; auto.
  destruct (0 <? k)%nat; simpl; auto.
  destruct (k <? length xs)%nat eqn:E; auto.
  apply Nat.ltb_ge in E. symmetry. now apply firstn_all2.
Qed.

(** C6: in multi-label mode, for a non-empty raw distribution (labels
    stripped into [pairs]), the Emotion Selector returns a non-empty list;
    when some entry has score >= the threshold, the result is those entries
    sorted by descending score, cut to the first K when a cap K > 0 is set;
    when none does, the result is exactly one entry of the input whose score
    is the highest. *)
Theorem analyze_emotions_multi_selection (thr : Q) (topk : option nat) (raw : list (string * Q)) :
  raw <> [] ->
  let pairs := normalize_scores raw false in
  let r := analyze_emotions true thr topk raw in
  r <> [] /\
  (above_threshold thr pairs <> [] ->
     exists full, Permutation full (above_threshold thr pairs) /\ desc_sorted full /\
       r = match topk with
           | Some k => if (0 <? k)%nat then firstn k full else full
           | None => full
           end) /\
  (above_threshold thr pairs = [] ->
     exists x, r = [x] /\ In x pairs /\ forall y, In y pairs -> snd y <= snd x).
Proof.
  intros Hraw pairs r.
  assert (Hp : pairs <> []).
  { unfold pairs, normalize_scores. simpl. destruct raw; simpl; congruence. }
  assert (Hr : r = let selected := truncate_topk topk (sort_desc (above_threshold thr pairs)) in
                   match selected, pairs with
                   | [], p :: ps => [max_by_score p ps]
                   | _, _ => selected
                   end) by reflexivity.
  clearbody r pairs. subst r. cbv zeta.
  destruct (sort_desc_spec (above_threshold thr pairs)) as [Hs Hperm].
  destruct (above_threshold thr pairs) as [| a rest] eqn:Ha.
  - replace (truncate_topk topk (sort_desc [])) with (@nil (string * Q))
      by (destruct topk as [[|k]|]; reflexivity).
    destruct pairs as [| p ps]; [congruence |].
    split; [congruence |]. split; [intros H; congruence |].
    intros _. exists (max_by_score p ps). split; [reflexivity |].
    apply max_by_score_spec.
  - assert (Hne : sort_desc (a :: rest) <> []).
    { intros H. rewrite H in Hperm. apply Permutation_nil in Hperm. congruence. }
    pose proof (truncate_topk_nonempty topk _ Hne) as Ht.
    destruct (truncate_topk topk (sort_desc (a :: rest))) as [| t ts] eqn:Htr; [congruence |].
    split; [congruence |]. split; [| intros H; congruence].
    intros _. exists (sort_desc (a :: rest)). split; [exact Hperm |]. split; [exact Hs |].
    rewrite <- Htr. apply truncate_topk_firstn.
Qed.

(** ** Metrics buffers *)

Lemma compact_small {A} (buf : list A) : (length buf <= 2000)%nat -> compact buf = buf.
Proof.
  intros H. unfold compact. destruct (2000 <? length buf)%nat eqn:E; auto.
  apply Nat.ltb_lt in E. lia.
Qed.

Lemma compact_overflow {A} (buf : list A) :
  (2000 < length buf)%nat ->
  length (compact buf) = 1000%nat /\ buf = (firstn (length buf - 1000) buf ++ compact buf)%list.
Proof.
  intros H. unfold compact.
  destruct (2000 <? length buf)%nat eqn:E; [| apply Nat.ltb_ge in E; lia].
  rewrite length_skipn. split; [lia |]. symmetry. apply firstn_skipn.
Qed.

Lemma compact_bound {A} (buf : list A) : (length buf <= 2001)%nat -> (length (compact buf) <= 2000)%nat.
Proof.
  intros H. destruct (Nat.le_gt_cases (length buf) 2000) as [Hl | Hl].
  - now rewrite compact_small.
  - destruct (compact_overflow buf Hl) as [-> _]. lia.
Qed.

Lemma record_latency_inv (ms : Q) (m : metrics) : metrics_inv m -> metrics_inv (record_latency_ms ms m).
Proof.
  intros (H1 & H2 & H3). unfold metrics_inv, record_latency_ms; simpl.
  repeat split; auto. apply compact_bound. rewrite length_app. simpl. lia.
Qed.

Lemma record_top1_inv (s t : Q) (m : metrics) : metrics_inv m -> metrics_inv (record_emotion_top1 s t m).
Proof.
  intros (H1 & H2 & H3). unfold metrics_inv, record_emotion_top1.
  rewrite !length_app. simpl.
  destruct (2000 <? length (emotion_top1_scores m) + 1)%nat eqn:E; simpl.
  - apply Nat.ltb_lt in E. rewrite !length_skipn, !length_app. simpl. lia.
  - apply Nat.ltb_ge in E. rewrite !length_app. simpl. lia.
Qed.

Lemma record_step_inv (o : record_op) (m : metrics) : metrics_inv m -> metrics_inv (record_step o m).
Proof.
  destruct o; simpl; [apply record_latency_inv | apply record_top1_inv].
Qed.

Lemma run_records_inv (ops : list record_op) : forall m, metrics_inv m -> metrics_inv (run_records ops m).
Proof.
  induction ops as [| o ops IH]; intros m Hm; simpl; auto.
  apply IH. now apply record_step_inv.
Qed.

Lemma initial_metrics_inv (t0 : Q) : metrics_inv (initial_metrics t0).
Proof. repeat split; simpl; lia. Qed.

Lemma analyze_metrics_inv (r : request_outcome) (m : metrics) : metrics_inv m -> metrics_inv (analyze_metrics r m).
Proof.
  intros Hm. destruct r as [| dt | dt pairs now]; simpl; auto.
  - destruct (record_latency_inv dt m Hm) as (H1 & H2 & H3). repeat split; auto.
  - destruct pairs as [| [l s] ps]; [now apply record_latency_inv |].
    apply record_top1_inv. now apply record_latency_inv.
Qed.

Lemma run_requests_inv (rs : list request_outcome) : forall m, metrics_inv m -> metrics_inv (run_requests rs m).
Proof.
  induction rs as [| r rs IH]; intros m Hm; simpl; auto.
  apply IH. now apply analyze_metrics_inv.
Qed.

(** C5 (amended): starting from empty buffers, after any sequence of record
    calls, each buffer holds at most 2000 entries and the score and
    timestamp buffers have the same length; a record call whose append
    leaves at most 2000 entries keeps the appended buffer, and one whose
    append goes over 2000 entries keeps exactly its 1000 most recent entries
    (a suffix of the appended buffer, the new entry included). *)
Theorem record_buffers_capped (t0 : Q) (ops : list record_op) (o : record_op) :
  let m := run_records ops (initial_metrics t0) in
  let m' := record_step o m in
  (length (inference_latencies_ms m') <= 2000)%nat /\
  (length (emotion_top1_scores m') <= 2000)%nat /\
  (length (emotion_top1_times m') <= 2000)%nat /\
  length (emotion_top1_times m') = length (emotion_top1_scores m') /\
  match o with
  | RecLatency ms =>
    let buf := (inference_latencies_ms m ++ [ms])%list in
    ((length buf <= 2000)%nat -> inference_latencies_ms m' = buf) /\
    ((2000 < length buf)%nat ->
       length (inference_latencies_ms m') = 1000%nat /\
       exists dropped, buf = (dropped ++ inference_latencies_ms m')%list)
  | RecTop1 s t =>
    let sbuf := (emotion_top1_scores m ++ [s])%list in
    let tbuf := (emotion_top1_times m ++ [t])%list in
    ((length sbuf <= 2000)%nat -> emotion_top1_scores m' = sbuf /\ emotion_top1_times m' = tbuf) /\
    ((2000 < length sbuf)%nat ->
       length (emotion_top1_scores m') = 1000%nat /\ length (emotion_top1_times m') = 1000%nat /\
       (exists dropped, sbuf = (dropped ++ emotion_top1_scores m')%list) /\
       (exists dropped, tbuf = (dropped ++ emotion_top1_times m')%list))
  end.
Proof.
  intros m m'.
  assert (Hm : metrics_inv m) by apply run_records_inv, initial_metrics_inv.
  assert (Hm' : metrics_inv m') by now apply record_step_inv.
  destruct Hm' as (H1 & H2 & H3).
  split; [exact H1 |]. split; [exact H2 |]. split; [lia |]. split; [lia |].
  destruct Hm as (G1 & G2 & G3).
  unfold m'. clear H1 H2 H3 m'.
  destruct o as [ms | s t]; simpl.
  - split; [apply compact_small |].
    intros Hl. destruct (compact_overflow _ Hl) as [Hlen Hsplit].
    split; [exact Hlen |]. eexists. exact Hsplit.
  - unfold record_emotion_top1. rewrite !length_app. cbn [length].
    destruct (2000 <? length (emotion_top1_scores m) + 1)%nat eqn:E; cbn.
    + apply Nat.ltb_lt in E. split; [intros; lia |]. intros _.
      rewrite !length_skipn, !length_app. cbn [length].
      split; [lia |]. split; [lia |].
      split; eexists; symmetry; apply firstn_skipn.
    + apply Nat.ltb_ge in E. split; [auto | intros; lia].
Qed.

(** C5 (counterexample): after 2000 latency records the buffer holds 2000
    entries; one more record overflows the cap, and the compaction leaves
    1000 entries, not 1000 + 1. *)
Lemma record_latency_compaction_keeps_1000 :
  let m := run_records (repeat (RecLatency 0) 2000) (initial_metrics 0) in
  length (inference_latencies_ms m) = 2000%nat /\
  length (inference_latencies_ms (record_step (RecLatency 1) m)) = 1000%nat /\
  length (inference_latencies_ms (record_step (RecLatency 1) m)) <> 1001%nat.
Proof. vm_compute. split; [reflexivity | split; [reflexivity | discriminate]]. Qed.

(** C9 (amended): over any sequence of requests, the emotion top-1 score
    and timestamp buffers have equal length; every request that passes the
    empty-text check appends to the latency buffer, failed ones and ones
    with an empty emotion list included, while the top-1 buffers are
    appended only by successful requests with a non-empty emotion list. *)
Theorem analyze_metrics_top1_lockstep (t0 : Q) (rs : list request_outcome) (r : request_outcome) :
  let m := run_requests rs (initial_metrics t0) in
  let m' := analyze_metrics r m in
  length (emotion_top1_scores m') = length (emotion_top1_times m') /\
  match r with
  | ReqEmptyText => m' = m
  | ReqFailed dt =>
    inference_latencies_ms m' = compact (inference_latencies_ms m ++ [dt])%list /\
    emotion_top1_scores m' = emotion_top1_scores m /\ emotion_top1_times m' = emotion_top1_times m
  | ReqOk dt [] _ =>
    inference_latencies_ms m' = compact (inference_latencies_ms m ++ [dt])%list /\
    emotion_top1_scores m' = emotion_top1_scores m /\ emotion_top1_times m' = emotion_top1_times m
  | ReqOk dt ((_, s) :: _) now =>
    inference_latencies_ms m' = compact (inference_latencies_ms m ++ [dt])%list /\
    emotion_top1_scores m' = compact (emotion_top1_scores m ++ [s])%list /\
    emotion_top1_times m' = compact (emotion_top1_times m ++ [now])%list
  end.
Proof.
  intros m m'.
  assert (Hm : metrics_inv m) by apply run_requests_inv, initial_metrics_inv.
  assert (Hm' : metrics_inv m') by now apply analyze_metrics_inv.
  destruct Hm' as (_ & _ & H3). split; [exact H3 |].
  destruct Hm as (G1 & G2 & G3).
  unfold m'. clear H3 m'.
  destruct r as [| dt | dt [| [l s] ps] now]; simpl; auto.
  unfold record_emotion_top1. simpl. rewrite !length_app, <- G3. cbn [length].
  destruct (2000 <? length (emotion_top1_scores m) + 1)%nat eqn:E; simpl;
    (repeat split); unfold compact; rewrite ?length_app, <- ?G3; cbn [length]; rewrite ?E; reflexivity.
Qed.

(** C9 (counterexample): one failed request records a latency but no
    top-1 score, so the latency buffer and the score buffer differ in
    length. *)
Lemma failed_request_diverges :
  let m := run_requests [ReqFailed 5] (initial_metrics 0) in
  length (inference_latencies_ms m) = 1%nat /\ length (emotion_top1_scores m) = 0%nat.
Proof. split; reflexivity. Qed.

(** Witness of C6 at a distribution where two entries meet the threshold *)
Lemma analyze_emotions_multi_selection_witness :
  let raw := [("anger", 1#10); ("joy", 7#10); ("love", 9#10)] in
  raw <> [] /\
  (let pairs := normalize_scores raw false in
   let r := analyze_emotions true (1#2) (Some 1%nat) raw in
   r <> [] /\
   (above_threshold (1#2) pairs <> [] ->
      exists full, Permutation full (above_threshold (1#2) pairs) /\ desc_sorted full /\
        r = (if (0 <? 1)%nat then firstn 1 full else full)) /\
   (above_threshold (1#2) pairs = [] ->
      exists x, r = [x] /\ In x pairs /\ forall y, In y pairs -> snd y <= snd x)).
Proof.
  intros raw. split; [discriminate |].
  apply (analyze_emotions_multi_selection (1#2) (Some 1%nat) raw). discriminate.
Defined.

(** ** Normalisation of single-label scores *)

Lemma fold_left_Qplus (l : list Q) : forall a, fold_left Qplus l a == a + qsum l.
Proof.
  induction l as [| x l IH]; intros a; simpl; [ring |].
  rewrite IH. ring.
Qed.

Lemma py_sum_qsum (l : list Q) : py_sum l == qsum l.
Proof. unfold py_sum. rewrite fold_left_Qplus. ring. Qed.

Lemma qsum_map_div {A} (f : A -> Q) (t : Q) (l : list A) :
  qsum (map (fun x => f x / t) l) == qsum (map f l) / t.
Proof.
  induction l as [| x l IH]; simpl; [unfold Qdiv; ring |].
  rewrite IH. unfold Qdiv. ring.
Qed.

Lemma qsum_map_const {A} (c : Q) (l : list A) :
  qsum (map (fun _ => c) l) == inject_Z (Z.of_nat (length l)) * c.
Proof.
  unfold qsum in *. induction l as [| x l IH]; cbn [map length fold_right]; [reflexivity |].
  rewrite IH, Nat2Z.inj_succ, <- Z.add_1_r, inject_Z_plus. change (inject_Z 1) with (1 : Q). ring.
Qed.

(** C4 (amended): the normalisation the pipeline applies to single-label
    scores is [_normalize_scores]: when the total of the negative-clamped
    scores is > 0 it maps each score to [max(0, s) / total] and the scores
    sum to 1; when that total is <= 0 it returns the (label-stripped) pairs
    unchanged, with no uniform fallback. The helper [normalize_distribution]
    (not called by the pipeline) sums to 1 on every non-empty input, gives
    the uniform [1/n] to each of the [n] labels when the clamped total is
    <= 0, and returns the empty list on the empty input. *)
Theorem single_label_normalization (raw D : list (string * Q)) :
  let pairs := normalize_scores raw true in
  (0 < clamped_total raw ->
     qsum (map snd pairs) == 1 /\
     pairs = map (fun it => (strip (fst it), py_max 0 (snd it) / py_sum (map (fun p => py_max 0 (snd p)) raw))) raw) /\
  (clamped_total raw <= 0 -> pairs = map (fun it => (strip (fst it), snd it)) raw) /\
  (D <> [] -> qsum (map snd (normalize_distribution D)) == 1) /\
  (clamped_total D <= 0 ->
     normalize_distribution D = map (fun p => (fst p, 1 / inject_Z (Z.of_nat (length D)))) D) /\
  normalize_distribution [] = [].
Proof.
  intros pairs.
  assert (HT : forall l : list (string * Q),
             py_sum (map (fun p => py_max 0 (snd p)) l) == clamped_total l)
    by (intros l; apply py_sum_qsum).
  assert (Hstrip : py_sum (map (fun p => py_max 0 (snd p)) (map (fun it => (strip (fst it), snd it)) raw))
                   == clamped_total raw)
    by (rewrite map_map; apply py_sum_qsum).
  split; [| split; [| split; [| split]]].
  - intros Hpos. unfold pairs, normalize_scores.
    destruct (Qlt_bool 0 _) eqn:E; qlt_bool_hyps; [| rewrite Hstrip in E; exfalso; lra].
    split.
    + rewrite map_map. cbn [snd]. rewrite (qsum_map_div (fun x => py_max 0 (snd x))).
      rewrite Hstrip, map_map. cbn [snd].
      change (qsum (map (fun x => py_max 0 (snd x)) raw)) with (clamped_total raw).
      field. intros H. rewrite H in Hpos. exact (Qlt_irrefl 0 Hpos).
    + assert (Ht : py_sum (map (fun p => py_max 0 (snd p)) (map (fun it => (strip (fst it), snd it)) raw))
                   = py_sum (map (fun p => py_max 0 (snd p)) raw)) by (rewrite map_map; reflexivity).
      rewrite Ht, map_map. reflexivity.
  - intros Hle. unfold pairs, normalize_scores.
    destruct (Qlt_bool 0 _) eqn:E; qlt_bool_hyps; [rewrite Hstrip in E; exfalso; lra | reflexivity].
  - intros Hne. unfold normalize_distribution.
    destruct (Qle_bool _ 0) eqn:E; qlt_bool_hyps.
    + destruct D as [| p D']; [congruence |].
      rewrite map_map. cbn [snd]. rewrite qsum_map_const.
      cbn [length]. rewrite Nat2Z.inj_succ. field.
      intros H. unfold Qeq in H. simpl in H. lia.
    + rewrite map_map. cbn [snd]. rewrite qsum_map_div, HT.
      change (qsum (map (fun x => py_max 0 (snd x)) D)) with (clamped_total D).
      assert (Hn : ~ clamped_total D <= 0)
        by (intros H; rewrite <- HT in H; apply Qle_bool_iff in H; congruence).
      field. intros H. apply Hn. rewrite H. apply Qle_refl.
  - intros Hle. unfold normalize_distribution.
    rewrite HT. destruct (Qle_bool (clamped_total D) 0) eqn:E;
      [| apply Qle_bool_iff in Hle; congruence].
    destruct D; reflexivity.
  - reflexivity.
Qed.

(** C4 (counterexample): two labels with zero scores; [_normalize_scores]
    returns them unchanged, summing to 0 rather than 1 and not uniform. *)
Lemma normalize_scores_zero_total_unchanged :
  let raw := [("joy", 0); ("sadness", 0)] in
  normalize_scores raw true = raw /\
  ~ qsum (map snd (normalize_scores raw true)) == 1.
Proof. split; [reflexivity | vm_compute; discriminate]. Qed.

(** ** Sentiment scores *)


Lemma dict_get_None_iff {A} (k : string) (d : list (string * A)) :
  dict_get k d = None <-> ~ In k (map fst d).
Proof.
  induction d as [| [k' v'] d IH]; cbn [dict_get map fst In]; [tauto |].
  destruct (String.eqb k k') eqn:E.
  - apply String.eqb_eq in E. subst. split; [discriminate | tauto].
  - apply String.eqb_neq in E. rewrite IH. split; [intros H [H' | H']; auto | tauto].
Qed.

Lemma dict_set_absent {A} (k : string) (v : A) (d : list (string * A)) :
  dict_get k d = None -> dict_set k v d = app d [(k, v)].
Proof.
  induction d as [| [k' v'] d IH]; cbn [dict_get dict_set app]; [reflexivity |].
  destruct (String.eqb k k'); [discriminate | intros H; rewrite IH; auto].
Qed.




















(** ** Negative labels *)

Lemma set_add_In (x y : string) (s : list string) : In x (set_add y s) <-> x = y \/ In x s.
Proof.
  unfold set_add. destruct (existsb (String.eqb y) s) eqn:E.
  - apply existsb_exists in E. destruct E as [z [Hz Hyz]]. apply String.eqb_eq in Hyz. subst z.
    split; [auto | intros [H | H]; [subst; exact Hz | exact H]].
  - rewrite in_app_iff. cbn [In]. split; intros [H | H]; auto.
    + destruct H as [H | []]. auto.
Qed.

Lemma set_of_list_In (l : list string) (x : string) : In x (set_of_list l) <-> In x l.
Proof.
  unfold set_of_list.
  assert (H : forall s, In x (fold_left (fun s y => set_add y s) l s) <-> In x s \/ In x l).
  { induction l as [| y l IH]; intros s; cbn [fold_left In]; [tauto |].
    rewrite IH, set_add_In. split; intros H; intuition (subst; auto). }
  rewrite H. cbn [In]. tauto.
Qed.

Lemma truthy_keys_In (o : list (string * json)) (x : string) (s0 : list string) :
  In x (fold_left (fun s kv => if truthy (snd kv) then set_add (lower (fst kv)) s else s) o s0) <->
  In x s0 \/ exists kv, In kv o /\ truthy (snd kv) = true /\ lower (fst kv) = x.
Proof.
  revert s0. induction o as [| kv o IH]; intros s0; cbn [fold_left].
  - split; [auto | intros [H | [kv [[] _]]]; exact H].
  - rewrite IH. destruct (truthy (snd kv)) eqn:T; [rewrite set_add_In |]; split.
    + intros [[H | H] | [kv' [H1 [H2 H3]]]]; [right; exists kv; subst; cbn [In]; auto | auto | right; exists kv'; cbn [In]; auto].
    + intros [H | [kv' [[H1 | H1] [H2 H3]]]]; [auto | subst kv'; auto | right; exists kv'; auto].
    + intros [H | [kv' [H1 [H2 H3]]]]; [auto | right; exists kv'; cbn [In]; auto].
    + intros [H | [kv' [[H1 | H1] [H2 H3]]]]; [auto | subst kv'; congruence | right; exists kv'; auto].
Qed.

Lemma str_labels_In (xs : list json) (x : string) :
  In x (set_of_list (map (fun y => lower (py_str y)) xs)) <-> exists y, In y xs /\ lower (py_str y) = x.
Proof.
  rewrite set_of_list_In, in_map_iff. split; intros [y [H1 H2]]; exists y; auto.
Qed.

Lemma load_negative_from_file_In (j : json) :
  exists loaded, load_negative_from_file (Some j) = Some loaded /\
                 forall x, In x loaded <-> file_label_member j x.
Proof.
  eexists. split; [reflexivity |]. intros x.
  destruct j as [| b | z | q r | s | xs | o]; cbn [file_label_member]; try (cbn; tauto).
  - apply str_labels_In.
  - destruct (dict_get "labels" o) as [[| b | z | q r | s | xs | o'] |];
      try (rewrite truthy_keys_In; cbn [In]; tauto).
    apply str_labels_In.
Qed.

Lemma derive_negative_In (mp : VADMapper) (thr : Q) (cands : list string) (x : string) :
  In x (derive_negative mp thr cands) <->
  exists l, In l cands /\ vad_v (map_label mp l) < thr /\ canonical mp l = x.
Proof.
  unfold derive_negative.
  assert (H : forall s, In x (fold_left (fun derived lbl =>
               let '(v, _, _) := map_label mp lbl in
               if Qlt_bool v thr then set_add (canonical mp lbl) derived else derived) cands s) <->
             In x s \/ exists l, In l cands /\ vad_v (map_label mp l) < thr /\ canonical mp l = x).
  { induction cands as [| l cands IH]; intros s; cbn [fold_left].
    - split; [auto | intros [H | [l [[] _]]]; exact H].
    - rewrite IH. unfold vad_v at 1 2.
      destruct (map_label mp l) as [[v a] d] eqn:Em. cbn [fst].
      destruct (Qlt_bool v thr) eqn:Ec; [rewrite set_add_In |]; qlt_bool_hyps; split.
      + intros [[Hx | Hx] | [l' [H1 H2]]];
          [right; exists l; rewrite Em; cbn [vad_v fst In]; subst; auto | auto | right; exists l'; cbn [In]; auto].
      + intros [Hx | [l' [[H1 | H1] [H2 H3]]]];
          [auto | subst l'; auto | right; exists l'; auto].
      + intros [Hx | [l' [H1 H2]]]; [auto | right; exists l'; cbn [In]; auto].
      + intros [Hx | [l' [[H1 | H1] [H2 H3]]]];
          [auto | subst l'; rewrite Em in H2; cbn [vad_v fst] in H2; exfalso; lra | right; exists l'; auto]. }
  rewrite H. cbn [In]. tauto.
Qed.

(** C8 (amended): [init_negative_labels] first looks for the negative-label
    file. When it exists and parses to any JSON value j, the file branch
    is taken: the set holds the lower-cased [str()] of the elements of a
    list (elements need not be strings), of the [labels] list of an object
    that has one, or the lower-cased truthy keys of any other object, and
    is empty for any other value (null, a boolean, a number or a string);
    the source tag is "file", the path is recorded and the threshold is
    left as it was. When the file is absent or does not parse, the set is
    the canonical forms of the candidates (the given labels when they form
    a non-empty list, the VAD-table keys otherwise) whose valence is
    strictly below the threshold, with source tag "derived", no path and
    the threshold recorded. *)
Theorem init_negative_labels_file_or_derived (E : env) (st : analysis_state) (dir : string)
    (labels : option (list string)) :
  let st' := init_negative_labels E st dir labels in
  (forall p j, neg_config_path E dir = Some p -> fs E p = Some (Some j) ->
     negative_labels_source st' = Some "file" /\ negative_path st' = Some p /\
     negative_threshold st' = negative_threshold st /\
     negative_labels st' <> None /\
     (forall x, In x (neg_set st') <-> file_label_member j x)) /\
  ((neg_config_path E dir = None \/
    exists p, neg_config_path E dir = Some p /\ (fs E p = None \/ fs E p = Some None)) ->
     let mp := ensured_mapper E st in
     negative_labels_source st' = Some "derived" /\ negative_path st' = None /\
     negative_threshold st' = Some (neg_valence_threshold E) /\
     negative_labels st' <> None /\
     (forall x, In x (neg_set st') <->
        exists l, In l (negative_candidates mp labels) /\
                  vad_v (map_label mp l) < neg_valence_threshold E /\ canonical mp l = x)).
Proof.
  intros st'. split.
  - intros p j Hp Hj. destruct (load_negative_from_file_In j) as [loaded [Hl Hin]].
    unfold st', init_negative_labels. rewrite Hp, Hj, Hl. cbn.
    repeat split; [discriminate | exact (proj1 (Hin x)) | exact (proj2 (Hin x))].
  - intros Hd mp.
    assert (Hst : st' = (let '(mp, st1) := ensure_default_mapper E st in
                          let derived := derive_negative mp (neg_valence_threshold E)
                                           (negative_candidates mp labels) in
                          {| vad_mapper := vad_mapper st1; negative_labels := Some derived;
                             negative_path := None; negative_labels_count := length derived;
                             negative_labels_source := Some "derived";
                             negative_threshold := Some (neg_valence_threshold E) |})).
    { unfold st', init_negative_labels.
      destruct Hd as [Hn | [p [Hp [Hf | Hf]]]]; [rewrite Hn | rewrite Hp, Hf | rewrite Hp, Hf];
        reflexivity. }
    rewrite Hst. unfold mp, ensured_mapper. destruct (ensure_default_mapper E st) as [m st1].
    cbn. repeat split; [discriminate | |]; intros H; apply derive_negative_In; exact H.
Qed.

(** C8 (counterexample): a negative-label file holding the number 0 is
    neither a list nor an object, yet it is accepted: the set is empty and
    its source tag is "file", and no derivation happens. *)
Lemma negative_file_scalar_accepted :
  let E := {| default_map := None; neg_config_path := fun _ => Some "negative_emotions.json";
              fs := fun _ => Some (Some (JInt 0)); neg_valence_threshold := 2 # 5;
              project_root := "/srv/sentra-emo" |} in
  let st' := init_negative_labels E initial_state "/srv/sentra-emo/models/emotion" None in
  negative_labels_source st' = Some "file" /\ negative_labels st' = Some [].
Proof. split; reflexivity. Qed.

(* ------------------------------------------------------------------ *)
(** * Further properties of the code *)

(** ** Lower-casing, the mapper's table and its canonical labels *)

Lemma lower_ascii_idem (c : ascii) : lower_ascii (lower_ascii c) = lower_ascii c.
Proof. destruct c as [[] [] [] [] [] [] [] []]; reflexivity. Qed.

Lemma lower_idem (s : string) : lower (lower s) = lower s.
Proof. induction s as [| c s IH]; cbn [lower]; [reflexivity | now rewrite lower_ascii_idem, IH]. Qed.

Lemma dict_get_In {A} (k : string) (v : A) (d : list (string * A)) :
  dict_get k d = Some v -> In (k, v) d.
Proof.
  induction d as [| [k' v'] d IH]; cbn [dict_get]; [discriminate |].
  destruct (String.eqb k k') eqn:E.
  - intros H. injection H as <-. apply String.eqb_eq in E. subst. left. reflexivity.
  - intros H. right. auto.
Qed.

Lemma dict_get_set {A} (k k' : string) (v : A) (d : list (string * A)) :
  dict_get k (dict_set k' v d) = if String.eqb k k' then Some v else dict_get k d.
Proof.
  induction d as [| [k'' v''] d IH]; cbn [dict_set dict_get].
  - destruct (String.eqb k k'); reflexivity.
  - destruct (String.eqb k' k'') eqn:E1; cbn [dict_get].
    + apply String.eqb_eq in E1. subst k''. destruct (String.eqb k k'); reflexivity.
    + rewrite IH. destruct (String.eqb k k'') eqn:E2, (String.eqb k k') eqn:E3; try reflexivity.
      apply String.eqb_eq in E2, E3. subst. rewrite String.eqb_refl in E1. discriminate.
Qed.

Lemma dict_of_list_get {A} (k : string) (l : list (string * A)) :
  dict_get k (dict_of_list l) = last_assoc k l.
Proof.
  unfold dict_of_list, last_assoc.
  assert (H : forall d, dict_get k (fold_left (fun d kv => dict_set (fst kv) (snd kv) d) l d) =
                        fold_left (fun acc kv => if String.eqb k (fst kv) then Some (snd kv) else acc)
                                  l (dict_get k d)).
  { induction l as [| kv l IH]; intros d; cbn [fold_left]; [reflexivity |].
    rewrite IH, dict_get_set. reflexivity. }
  apply H.
Qed.

Lemma last_assoc_In {A} (k : string) (v : A) (l : list (string * A)) :
  last_assoc k l = Some v -> In (k, v) l.
Proof.
  unfold last_assoc.
  assert (H : forall acc, fold_left (fun acc kv => if String.eqb k (fst kv) then Some (snd kv) else acc)
                                    l acc = Some v -> acc = Some v \/ In (k, v) l).
  { induction l as [| [k' v'] l IH]; intros acc; cbn [fold_left fst snd]; [auto |].
    intros Hf. destruct (IH _ Hf) as [Ha | Ha]; [| right; right; exact Ha].
    destruct (String.eqb k k') eqn:E; [| left; exact Ha].
    injection Ha as <-. apply String.eqb_eq in E. subst. right; left; reflexivity. }
  intros Hf. destruct (H None Hf) as [Hn | Hi]; [discriminate | exact Hi].
Qed.

Lemma last_assoc_absent {A} (k : string) (l : list (string * A)) :
  forall acc, (forall kv, In kv l -> fst kv <> k) ->
  fold_left (fun acc kv => if String.eqb k (fst kv) then Some (snd kv) else acc) l acc = acc.
Proof.
  induction l as [| kv l IH]; intros acc H; cbn [fold_left]; [reflexivity |].
  destruct (String.eqb k (fst kv)) eqn:E.
  - apply String.eqb_eq in E. exfalso. apply (H kv); [left; reflexivity | auto].
  - apply IH. intros kv' Hi. apply H. right. exact Hi.
Qed.

Lemma last_assoc_unique {A} (k : string) (v : A) (l : list (string * A)) :
  NoDup (map fst l) -> In (k, v) l -> last_assoc k l = Some v.
Proof.
  unfold last_assoc. generalize (@None A) as acc. revert k v.
  induction l as [| [k' v'] l IH]; intros k v acc Hnd Hin; [destruct Hin |].
  cbn [map fst] in Hnd. inversion Hnd as [| ? ? Hnotin Hnd']; subst.
  cbn [fold_left fst snd]. destruct Hin as [Heq | Hin].
  - injection Heq as <- <-. rewrite String.eqb_refl. apply last_assoc_absent.
    intros kv Hkv Hf. apply Hnotin. rewrite <- Hf. apply in_map. exact Hkv.
  - apply IH; assumption.
Qed.

Lemma canonical_no_alias (m : list (string * vad)) (label : string) :
  canonical (VADMapper_init m None) label = lower label.
Proof. reflexivity. Qed.

(** [VADMapper] lookup: with no alias table, a label finds the entry whose
    key equals it up to case (the lower-cased keys being distinct), and
    the neutral (0.5, 0.5, 0.5) when no key matches. *)
Theorem vad_mapper_lookup (m : list (string * vad)) (label : string) :
  NoDup (map (fun kv => lower (fst kv)) m) ->
  (forall k x, In (k, x) m -> lower k = lower label ->
     map_label (VADMapper_init m None) label = x) /\
  ((forall kv, In kv m -> lower (fst kv) <> lower label) ->
     map_label (VADMapper_init m None) label = neutral_vad).
Proof.
  intros Hnd. unfold map_label. rewrite canonical_no_alias. unfold dict_get_or.
  cbn [mapping VADMapper_init]. rewrite dict_of_list_get. split.
  - intros k x Hin Hk. rewrite (last_assoc_unique _ x).
    + reflexivity.
    + rewrite map_map. exact Hnd.
    + rewrite <- Hk. apply (in_map (fun kv => (lower (fst kv), snd kv)) m (k, x)). exact Hin.
  - intros Hno. unfold last_assoc. rewrite last_assoc_absent; [reflexivity |].
    intros kv Hkv. apply in_map_iff in Hkv. destruct Hkv as [kv' [<- Hin]]. cbn [fst].
    apply Hno. exact Hin.
Qed.

(** [VADMapper.canonical] always returns a lower-cased label: the label
    itself lower-cased, or an alias target, which [__init__] lower-cases. *)
Theorem canonical_is_lower_case (m : list (string * vad)) (al : option (list (string * string)))
    (label : string) :
  lower (canonical (VADMapper_init m al) label) = canonical (VADMapper_init m al) label.
Proof.
  unfold canonical, dict_get_or. cbn [alias VADMapper_init]. rewrite dict_of_list_get.
  destruct (last_assoc _ _) as [s |] eqn:E; [| apply lower_idem].
  apply last_assoc_In, in_map_iff in E. destruct E as [kv [Heq _]].
  injection Heq as _ <-. apply lower_idem.
Qed.

Lemma ensure_default_mapper_stable (E : env) (st : analysis_state) :
  let '(mp, st1) := ensure_default_mapper E st in ensure_default_mapper E st1 = (mp, st1).
Proof.
  unfold ensure_default_mapper. destruct (vad_mapper st) eqn:Em; cbn [vad_mapper]; [rewrite Em |]; reflexivity.
Qed.

(** [canonicalize_distribution] is idempotent when every alias target is
    lower-cased and is not itself an aliased label (no alias chains): a
    second pass over its output, in the state it leaves, changes nothing. *)
Theorem canonicalize_distribution_idempotent (E : env) (st : analysis_state) (D : list (string * Q)) :
  (forall v, In v (map snd (alias (ensured_mapper E st))) ->
     lower v = v /\ dict_get v (alias (ensured_mapper E st)) = None) ->
  let '(D1, st1) := canonicalize_distribution E st D in
  canonicalize_distribution E st1 D1 = (D1, st1).
Proof.
  intros H. unfold canonicalize_distribution. unfold ensured_mapper in H.
  pose proof (ensure_default_mapper_stable E st) as Hs.
  destruct (ensure_default_mapper E st) as [mp st1]. cbn [fst] in H.
  cbv beta iota zeta. rewrite Hs. cbv beta iota zeta.
  rewrite !canonicalize_loop. cbn [app]. f_equal. rewrite map_map. apply map_ext.
  intros [l s]. cbn [fst snd]. f_equal.
  unfold canonical, dict_get_or. destruct (dict_get (lower l) (alias mp)) as [t |] eqn:E1.
  - assert (Ht : In t (map snd (alias mp)))
      by (apply dict_get_In in E1; apply (in_map snd) in E1; exact E1).
    destruct (H t Ht) as [Hl Hn]. rewrite Hl, Hn. reflexivity.
  - rewrite lower_idem, E1. reflexivity.
Qed.

(** ** Unknown labels *)

Lemma str_ltb_irrefl (s : string) : str_ltb s s = false.
Proof. induction s as [| c s IH]; cbn [str_ltb]; [reflexivity | rewrite Nat.ltb_irrefl, Nat.eqb_refl; exact IH]. Qed.

Lemma str_ltb_total (s1 s2 : string) : s1 <> s2 -> str_ltb s1 s2 = false -> str_ltb s2 s1 = true.
Proof.
  revert s2. induction s1 as [| c1 s1 IH]; intros [| c2 s2] Hne; cbn [str_ltb]; try congruence.
  destruct (Nat.ltb_spec (nat_of_ascii c1) (nat_of_ascii c2)); [discriminate |].
  destruct (Nat.eqb_spec (nat_of_ascii c1) (nat_of_ascii c2)) as [Heq | Hneq].
  - assert (c1 = c2)
      by (rewrite <- (ascii_nat_embedding c1), <- (ascii_nat_embedding c2), Heq; reflexivity).
    subst c2. rewrite Nat.ltb_irrefl, Nat.eqb_refl. apply IH. congruence.
  - intros _. destruct (Nat.ltb_spec (nat_of_ascii c2) (nat_of_ascii c1)); [reflexivity | lia].
Qed.

Lemma insert_str_perm (x : string) (l : list string) : Permutation (insert_str x l) (x :: l).
Proof.
  induction l as [| y l IH]; cbn [insert_str]; auto.
  destruct (str_ltb x y); auto.
  rewrite IH. apply perm_swap.
Qed.

Lemma insert_str_sorted (x : string) (l : list string) :
  ~ In x l -> Sorted (fun a b => str_ltb a b = true) l ->
  Sorted (fun a b => str_ltb a b = true) (insert_str x l).
Proof.
  intros Hx Hs. revert Hx. induction Hs as [| y l Hs IH Hhd]; intros Hx; cbn [insert_str].
  - repeat constructor.
  - destruct (str_ltb x y) eqn:E.
    + constructor; [constructor; auto | constructor; exact E].
    + assert (E' : str_ltb y x = true).
      { apply str_ltb_total; [intros ->; apply Hx; left; reflexivity | exact E]. }
      constructor; [apply IH; intros H; apply Hx; right; exact H |].
      destruct l as [| z l]; cbn [insert_str]; [constructor; exact E' |].
      inversion Hhd; subst. destruct (str_ltb x z); constructor; assumption.
Qed.

Lemma sort_str_loop (l : list string) :
  forall acc, Sorted (fun a b => str_ltb a b = true) acc -> NoDup (l ++ acc) ->
    Sorted (fun a b => str_ltb a b = true) (fold_left (fun acc x => insert_str x acc) l acc) /\
    Permutation (fold_left (fun acc x => insert_str x acc) l acc) (l ++ acc).
Proof.
  induction l as [| x l IH]; intros acc Hs Hnd; cbn [fold_left app] in *; [split; auto |].
  inversion Hnd as [| ? ? Hx Hnd']; subst.
  assert (Hxa : ~ In x acc) by (intros H; apply Hx; apply in_or_app; right; exact H).
  assert (Hp : Permutation (x :: l ++ acc) (l ++ insert_str x acc)).
  { rewrite insert_str_perm. apply Permutation_middle. }
  destruct (IH (insert_str x acc) (insert_str_sorted x acc Hxa Hs)) as [H1 H2].
  - apply (Permutation_NoDup Hp). exact Hnd.
  - split; [exact H1 |]. rewrite H2. symmetry. exact Hp.
Qed.

Lemma existsb_eqb_In (x : string) (l : list string) : existsb (String.eqb x) l = true <-> In x l.
Proof.
  rewrite existsb_exists. split.
  - intros [y [Hy Hxy]]. apply String.eqb_eq in Hxy. subst. exact Hy.
  - intros H. exists x. split; [exact H | apply String.eqb_refl].
Qed.

Lemma set_of_list_NoDup (l : list string) : NoDup (set_of_list l).
Proof.
  unfold set_of_list.
  assert (H : forall s, NoDup s -> NoDup (fold_left (fun s y => set_add y s) l s)).
  { induction l as [| y l IH]; intros s Hs; cbn [fold_left]; [exact Hs |].
    apply IH. unfold set_add. destruct (existsb (String.eqb y) s) eqn:E; [exact Hs |].
    apply (Permutation_NoDup (Permutation_cons_append s y)). constructor; [| exact Hs].
    intros Hin. apply existsb_eqb_In in Hin. congruence. }
  apply H. constructor.
Qed.

(** [VADMapper.unknown_labels] returns the labels whose canonical form is
    not a key of the table, without duplicates and in strictly increasing
    string order. *)
Theorem unknown_labels_sorted_set (mp : VADMapper) (labels : list string) :
  let u := unknown_labels mp labels in
  Sorted (fun a b => str_ltb a b = true) u /\ NoDup u /\
  (forall x, In x u <-> In x labels /\ ~ In (canonical mp x) (map fst (mapping mp))).
Proof.
  intros u. unfold u, unknown_labels.
  set (res := fold_left _ labels []).
  assert (Hres : forall x, In x res <-> In x labels /\ ~ In (canonical mp x) (map fst (mapping mp))).
  { unfold res.
    assert (H : forall acc x,
      In x (fold_left (fun res l => if existsb (String.eqb (canonical mp l)) (map fst (mapping mp))
                                    then res else app res [l]) labels acc) <->
      In x acc \/ (In x labels /\ ~ In (canonical mp x) (map fst (mapping mp)))).
    { induction labels as [| l labels IH]; intros acc x; cbn [fold_left In].
      - split; [auto | intros [H | [[] _]]; exact H].
      - rewrite IH. destruct (existsb _ _) eqn:E.
        + apply existsb_eqb_In in E. split.
          * intros [H | [H1 H2]]; auto.
          * intros [H | [[<- | H1] H2]]; [auto | contradiction | auto].
        + rewrite in_app_iff. cbn [In]. split.
          * intros [[H | [<- | []]] | [H1 H2]]; [auto | | auto].
            right. split; [left; reflexivity |]. intros Hin. apply existsb_eqb_In in Hin. congruence.
          * intros [H | [[<- | H1] H2]]; auto. }
    intros x. rewrite H. cbn [In]. tauto. }
  destruct (sort_str_loop (set_of_list res) [] (Sorted_nil _)) as [Hs Hp].
  { rewrite app_nil_r. apply set_of_list_NoDup. }
  rewrite app_nil_r in Hp. unfold sort_str. split; [exact Hs | split].
  - apply (Permutation_NoDup (Permutation_sym Hp)). apply set_of_list_NoDup.
  - intros x. rewrite <- Hres, <- (set_of_list_In res x).
    split; intros Hx; [apply (Permutation_in _ Hp) | apply (Permutation_in _ (Permutation_sym Hp))]; exact Hx.
Qed.

(** ** The VAD mapping: invariances and bounds *)

Lemma map_distribution_closed (mp : VADMapper) (D : list (string * Q)) :
  vad_eq (map_distribution mp D) (map_distribution_spec mp D).
Proof.
  unfold map_distribution, map_distribution_spec.
  destruct D as [| p D'].
  - repeat split; reflexivity.
  - set (D := p :: D').
    pose proof (map_distribution_loop mp D (0, 0, 0, 0)) as HL. cbv zeta in HL.
    destruct (fold_left (map_distribution_step mp) D (0, 0, 0, 0)) as [[[v a] d] t].
    cbn [fst snd] in HL. destruct HL as (H1 & H2 & H3 & H4).
    rewrite Qplus_0_l in H1, H2, H3, H4.
    change (match D with [] => true | _ => false end) with false. rewrite orb_false_l.
    rewrite (Qle_bool_compat t (total_score D) 0 H4).
    destruct (Qle_bool (total_score D) 0).
    + repeat split; reflexivity.
    + unfold vad_eq, vad_v, vad_a, vad_d in *; cbn [fst snd].
      rewrite H1, H2, H3, H4. repeat split; reflexivity.
Qed.

Lemma vad_eq_sym (x y : vad) : vad_eq x y -> vad_eq y x.
Proof. intros (H1 & H2 & H3). repeat split; symmetry; assumption. Qed.

Lemma vad_eq_trans (x y z : vad) : vad_eq x y -> vad_eq y z -> vad_eq x z.
Proof.
  intros (H1 & H2 & H3) (H4 & H5 & H6).
  repeat split; eapply Qeq_trans; eassumption.
Qed.

Lemma Qle_bool_scale (k x : Q) : 0 < k -> Qle_bool (k * x) 0 = Qle_bool x 0.
Proof.
  intros Hk. destruct (Qle_bool (k * x) 0) eqn:E1, (Qle_bool x 0) eqn:E2; try reflexivity;
    [apply Qle_bool_iff in E1 | apply Qle_bool_iff in E2];
    [assert (x <= 0) by nra | assert (k * x <= 0) by nra];
    apply Qle_bool_iff in H; congruence.
Qed.

(** Two distributions whose total score and weighted axes are in the same
    positive ratio are mapped to the same VAD *)
Lemma map_distribution_proportional (mp : VADMapper) (D1 D2 : list (string * Q)) (k : Q) :
  0 < k -> (D1 = [] <-> D2 = []) ->
  total_score D1 == k * total_score D2 ->
  (forall axis, weighted_axis axis mp D1 == k * weighted_axis axis mp D2) ->
  vad_eq (map_distribution mp D1) (map_distribution mp D2).
Proof.
  intros Hk He Ht Hw.
  pose proof (map_distribution_closed mp D1) as H1. pose proof (map_distribution_closed mp D2) as H2.
  unfold map_distribution_spec in H1, H2.
  rewrite (Qle_bool_compat _ _ 0 Ht), (Qle_bool_scale k _ Hk) in H1.
  destruct D1 as [| p1 D1'], D2 as [| p2 D2'].
  - repeat split; reflexivity.
  - exfalso. assert (p2 :: D2' = []) by (apply He; reflexivity). discriminate.
  - exfalso. assert (p1 :: D1' = []) by (apply He; reflexivity). discriminate.
  - rewrite orb_false_l in H1, H2.
    eapply vad_eq_trans; [exact H1 |]. eapply vad_eq_trans; [| apply vad_eq_sym; exact H2].
    destruct (Qle_bool (total_score (p2 :: D2')) 0) eqn:E; [repeat split; reflexivity |].
    assert (HT : 0 < total_score (p2 :: D2'))
      by (apply Qnot_le_lt; intros H; apply Qle_bool_iff in H; congruence).
    unfold vad_eq, vad_v, vad_a, vad_d; cbn [fst snd].
    rewrite !Hw, Ht. repeat split; field; split; lra.
Qed.

Lemma weighted_axis_scale (axis : vad -> Q) (mp : VADMapper) (c : Q) (D : list (string * Q)) :
  weighted_axis axis mp (map (fun p => (fst p, c * snd p)) D) == c * weighted_axis axis mp D.
Proof.
  unfold weighted_axis. induction D as [| p D IH]; cbn [map fold_right fst snd]; [ring |].
  rewrite IH. ring.
Qed.

Lemma total_score_scale (c : Q) (D : list (string * Q)) :
  total_score (map (fun p => (fst p, c * snd p)) D) == c * total_score D.
Proof.
  unfold total_score. induction D as [| p D IH]; cbn [map fold_right fst snd]; [ring |].
  rewrite IH. ring.
Qed.

(** [map_distribution] depends only on the relative weights: multiplying
    every score by the same positive factor gives the same VAD. *)
Theorem map_distribution_scale_invariant (mp : VADMapper) (D : list (string * Q)) (c : Q) :
  0 < c -> vad_eq (map_distribution mp (map (fun p => (fst p, c * snd p)) D)) (map_distribution mp D).
Proof.
  intros Hc. apply (map_distribution_proportional mp _ D c Hc).
  - destruct D; cbn [map]; split; congruence.
  - apply total_score_scale.
  - intros axis. apply weighted_axis_scale.
Qed.

Lemma weighted_axis_perm (axis : vad -> Q) (mp : VADMapper) (D1 D2 : list (string * Q)) :
  Permutation D1 D2 -> weighted_axis axis mp D1 == weighted_axis axis mp D2.
Proof.
  unfold weighted_axis. induction 1; cbn [fold_right]; try reflexivity.
  - rewrite IHPermutation. reflexivity.
  - ring.
  - rewrite IHPermutation1. exact IHPermutation2.
Qed.

Lemma total_score_perm (D1 D2 : list (string * Q)) :
  Permutation D1 D2 -> total_score D1 == total_score D2.
Proof.
  unfold total_score. induction 1; cbn [fold_right]; try reflexivity.
  - rewrite IHPermutation. reflexivity.
  - ring.
  - rewrite IHPermutation1. exact IHPermutation2.
Qed.

(** [map_distribution] does not depend on the order of the pairs. *)
Theorem map_distribution_permutation_invariant (mp : VADMapper) (D1 D2 : list (string * Q)) :
  Permutation D1 D2 -> vad_eq (map_distribution mp D1) (map_distribution mp D2).
Proof.
  intros Hp. apply (map_distribution_proportional mp D1 D2 1); [reflexivity | | |].
  - split; intros ->; [apply Permutation_nil; exact Hp | apply Permutation_nil, Permutation_sym; exact Hp].
  - rewrite (total_score_perm _ _ Hp). ring.
  - intros axis. rewrite (weighted_axis_perm axis mp _ _ Hp). ring.
Qed.

Lemma map_label_range (mp : VADMapper) (axis : vad -> Q) (lo hi : Q) (label : string) :
  (forall k x, In (k, x) (mapping mp) -> lo <= axis x <= hi) -> lo <= axis neutral_vad <= hi ->
  lo <= axis (map_label mp label) <= hi.
Proof.
  intros Hm Hn. unfold map_label, dict_get_or.
  destruct (dict_get (canonical mp label) (mapping mp)) as [x |] eqn:E; [| exact Hn].
  apply (Hm (canonical mp label)). apply dict_get_In. exact E.
Qed.

Lemma weighted_axis_range (mp : VADMapper) (axis : vad -> Q) (lo hi : Q) (D : list (string * Q)) :
  (forall p, In p D -> 0 <= snd p) -> (forall label, lo <= axis (map_label mp label) <= hi) ->
  lo * total_score D <= weighted_axis axis mp D <= hi * total_score D.
Proof.
  intros Hs Hax. unfold weighted_axis, total_score.
  induction D as [| p D IH]; cbn [fold_right]; [lra |].
  assert (Hp : 0 <= snd p) by (apply Hs; left; reflexivity).
  destruct (Hax (fst p)) as [H1 H2].
  assert (IH' := IH (fun q Hq => Hs q (or_intror Hq))).
  assert (lo * snd p <= snd p * axis (map_label mp (fst p))) by nra.
  assert (snd p * axis (map_label mp (fst p)) <= hi * snd p) by nra.
  lra.
Qed.

Lemma map_distribution_axis_range (mp : VADMapper) (axis : vad -> Q) (lo hi : Q) (D : list (string * Q)) :
  (forall p, In p D -> 0 <= snd p) -> (forall label, lo <= axis (map_label mp label) <= hi) ->
  lo <= axis neutral_vad <= hi ->
  lo <= (if match D with [] => true | _ => false end || Qle_bool (total_score D) 0 then axis neutral_vad
         else weighted_axis axis mp D / total_score D) <= hi.
Proof.
  intros Hs Hax Hn. destruct (_ || _) eqn:E; [exact Hn |].
  apply orb_false_iff in E. destruct E as [_ E].
  assert (HT : 0 < total_score D) by (apply Qnot_le_lt; intros H; apply Qle_bool_iff in H; congruence).
  destruct (weighted_axis_range mp axis lo hi D Hs Hax) as [H1 H2].
  split; [apply Qle_shift_div_l | apply Qle_shift_div_r]; try exact HT; lra.
Qed.

(** [emotions_to_vad] stays within the bounds of the VAD table: when the
    scores are non-negative and every table entry lies in [lo, hi] on each
    axis, with the neutral 0.5 in [lo, hi], so does the result (for a
    table within [0, 1], the result is within [0, 1]). *)
Theorem emotions_to_vad_bounds (E : env) (st : analysis_state) (D : list (string * Q)) (lo hi : Q) :
  (forall p, In p D -> 0 <= snd p) ->
  (forall k x, In (k, x) (mapping (ensured_mapper E st)) ->
     (lo <= vad_v x <= hi) /\ (lo <= vad_a x <= hi) /\ (lo <= vad_d x <= hi)) ->
  lo <= 1 # 2 <= hi ->
  let r := fst (emotions_to_vad E st D) in
  (lo <= vad_v r <= hi) /\ (lo <= vad_a r <= hi) /\ (lo <= vad_d r <= hi).
Proof.
  intros Hs Hm Hlh r.
  assert (Hr : r = map_distribution (ensured_mapper E st) D).
  { unfold r, emotions_to_vad, ensured_mapper. destruct (ensure_default_mapper E st); reflexivity. }
  rewrite Hr. set (mp := ensured_mapper E st) in *.
  destruct (map_distribution_closed mp D) as (Hv & Ha & Hd).
  rewrite Hv, Ha, Hd. unfold map_distribution_spec.
  assert (Hax : forall axis, (forall k x, In (k, x) (mapping mp) -> lo <= axis x <= hi) ->
            lo <= axis neutral_vad <= hi ->
            lo <= (if match D with [] => true | _ => false end || Qle_bool (total_score D) 0
                   then axis neutral_vad else weighted_axis axis mp D / total_score D) <= hi).
  { intros axis H1 H2. apply map_distribution_axis_range; auto.
    intros label. apply map_label_range; auto. }
  assert (Hn : lo <= 1 # 2 <= hi) by exact Hlh.
  split; [| split].
  - generalize (Hax vad_v (fun k x H => proj1 (Hm k x H)) Hn).
    destruct (_ || _); cbn [vad_v fst]; auto.
  - generalize (Hax vad_a (fun k x H => proj1 (proj2 (Hm k x H))) Hn).
    destruct (_ || _); cbn [vad_a fst snd]; auto.
  - generalize (Hax vad_d (fun k x H => proj2 (proj2 (Hm k x H))) Hn).
    destruct (_ || _); cbn [vad_d fst snd]; auto.
Qed.

(** ** normalize_distribution and derive_stress *)

Lemma py_max_0_nonneg (x : Q) : 0 <= x -> py_max 0 x == x.
Proof. intros H. unfold py_max. case_qlt; [reflexivity | lra]. Qed.

Lemma py_max_0_ge (x : Q) : 0 <= py_max 0 x.
Proof. unfold py_max. case_qlt; lra. Qed.

Lemma qsum_clamped_nonneg (D : list (string * Q)) :
  (forall p, In p D -> 0 <= snd p) ->
  qsum (map (fun p => py_max 0 (snd p)) D) == qsum (map snd D).
Proof.
  induction D as [| p D IH]; intros Hs; cbn [map]; unfold qsum in *; cbn [fold_right]; [reflexivity |].
  rewrite IH by (intros q Hq; apply Hs; right; exact Hq).
  rewrite py_max_0_nonneg by (apply Hs; left; reflexivity). reflexivity.
Qed.

Lemma Forall2_Qeq_map_snd (f : string * Q -> Q) (D : list (string * Q)) :
  (forall p, In p D -> f p == snd p) ->
  Forall2 Qeq (map snd (map (fun p => (fst p, f p)) D)) (map snd D).
Proof.
  induction D as [| p D IH]; intros Hf; cbn [map snd]; constructor.
  - apply Hf. left. reflexivity.
  - apply IH. intros q Hq. apply Hf. right. exact Hq.
Qed.

(** A distribution with non-negative scores summing to 1 is a fixed point
    of [normalize_distribution] *)
Lemma normalize_distribution_fixed (D : list (string * Q)) :
  (forall p, In p D -> 0 <= snd p) -> qsum (map snd D) == 1 ->
  pairs_eq (normalize_distribution D) D.
Proof.
  intros Hs Hsum. unfold normalize_distribution.
  set (total := py_sum (map (fun p => py_max 0 (snd p)) D)).
  assert (Ht : total == 1) by (unfold total; rewrite py_sum_qsum, qsum_clamped_nonneg; assumption).
  rewrite (Qle_bool_compat total 1 0 Ht). change (Qle_bool 1 0) with false. cbv beta iota.
  split.
  - rewrite map_map. cbn [fst]. apply map_ext. reflexivity.
  - apply Forall2_Qeq_map_snd. intros p Hp. rewrite Ht, py_max_0_nonneg by (apply Hs; exact Hp).
    field.
Qed.

Lemma In_map_pair (f : string * Q -> Q) (D : list (string * Q)) (q : string * Q) :
  In q (map (fun p => (fst p, f p)) D) -> exists p, In p D /\ q = (fst p, f p).
Proof. intros H. apply in_map_iff in H. destruct H as (p & <- & Hp). exists p. auto. Qed.

(** The output of [normalize_distribution] on a non-empty input has
    non-negative scores summing to 1 *)
Lemma normalize_distribution_stochastic (D : list (string * Q)) :
  D <> [] ->
  (forall p, In p (normalize_distribution D) -> 0 <= snd p) /\
  qsum (map snd (normalize_distribution D)) == 1.
Proof.
  intros Hne. unfold normalize_distribution.
  set (total := py_sum (map (fun p => py_max 0 (snd p)) D)).
  destruct (Qle_bool total 0) eqn:Et.
  - destruct D as [| d D']; [congruence |].
    set (n := length (d :: D')).
    assert (Hn : 0 < inject_Z (Z.of_nat n))
      by (unfold n; cbn [length]; change 0 with (inject_Z 0); rewrite <- Zlt_Qlt; lia).
    cbv zeta. split.
    + intros q Hq. apply In_map_pair in Hq. destruct Hq as (p & _ & ->). cbn [snd].
      apply Qle_shift_div_l; lra.
    + rewrite map_map. cbn [snd]. rewrite (qsum_map_const (1 / inject_Z (Z.of_nat n))).
      fold n. field. lra.
  - assert (HT : 0 < total) by (apply Qnot_le_lt; intros H; apply Qle_bool_iff in H; congruence).
    split.
    + intros q Hq. apply In_map_pair in Hq. destruct Hq as (p & _ & ->). cbn [snd].
      apply Qle_shift_div_l; [exact HT |]. rewrite Qmult_0_l. apply py_max_0_ge.
    + rewrite map_map. cbn [snd]. rewrite (qsum_map_div (fun p => py_max 0 (snd p))).
      assert (total == qsum (map (fun p => py_max 0 (snd p)) D)) as <- by (apply py_sum_qsum).
      field. lra.
Qed.

(** [normalize_distribution] is idempotent: normalising a normalised
    distribution returns the same labels in the same order with the same
    scores. *)
Theorem normalize_distribution_idempotent (D : list (string * Q)) :
  pairs_eq (normalize_distribution (normalize_distribution D)) (normalize_distribution D).
Proof.
  destruct D as [| d D'].
  - vm_compute. split; [reflexivity | constructor].
  - destruct (normalize_distribution_stochastic (d :: D')) as [Hs Hsum]; [discriminate |].
    apply normalize_distribution_fixed; assumption.
Qed.

Lemma stress_clamp_mono (x y : Q) : x <= y -> py_max 0 (py_min 1 x) <= py_max 0 (py_min 1 y).
Proof.
  intros H. unfold py_max, py_min.
  destruct (Qlt_bool x 1) eqn:E1, (Qlt_bool y 1) eqn:E2; qlt_bool_hyps; case_qlt; lra.
Qed.

Lemma stress_level_mono (s t : Q) : s <= t -> (level_rank (stress_level s) <= level_rank (stress_level t))%nat.
Proof.
  intros H. unfold stress_level.
  case_qlt; vm_compute; try lia; exfalso; lra.
Qed.

(** [derive_stress] is antitone in the valence and monotone in the arousal:
    for the same state and distribution, a lower valence and a higher
    arousal never give a lower stress score or a lower level. *)
Theorem derive_stress_monotone (E : env) (st : analysis_state) (D : list (string * Q)) (V1 V2 A1 A2 : Q) :
  V2 <= V1 -> A1 <= A2 ->
  let '(s1, l1, _) := derive_stress E st V1 A1 D in
  let '(s2, l2, _) := derive_stress E st V2 A2 D in
  s1 <= s2 /\ (level_rank l1 <= level_rank l2)%nat.
Proof.
  intros HV HA. unfold derive_stress.
  set (st1 := match negative_labels st with
              | Some _ => st
              | None => init_negative_labels E st (project_root E ++ "/models/emotion") None
              end).
  set (ns := fold_left _ D 0). cbv zeta.
  assert (Hx : (6#10) * (1 - V1) + (4#10) * A1 + (15#100) * ns <= (6#10) * (1 - V2) + (4#10) * A2 + (15#100) * ns)
    by lra.
  pose proof (stress_clamp_mono _ _ Hx) as Hs.
  split; [exact Hs | apply stress_level_mono; exact Hs].
Qed.

(** ** Percentiles and the recent-window statistics *)

Lemma percentile_index_eq (values : list Q) (q : Q) :
  values <> [] ->
  percentile values q = Some (nth (spec_percentile_index q (length values)) (sort_asc values) 0).
Proof.
  intros Hne. destruct (sort_asc_spec values) as [_ Hp].
  unfold percentile, spec_percentile_index.
  destruct values as [| v vs]; [congruence |].
  rewrite (Permutation_length Hp).
  rewrite clamp_py_int_floor; [reflexivity | cbn [length]; lia].
Qed.

Lemma spec_percentile_index_lt (q : Q) (n : nat) : (0 < n)%nat -> (spec_percentile_index q n < n)%nat.
Proof. intros Hn. unfold spec_percentile_index. lia. Qed.

Lemma spec_percentile_index_mono (q1 q2 : Q) (n : nat) :
  q1 <= q2 -> (spec_percentile_index q1 n <= spec_percentile_index q2 n)%nat.
Proof.
  intros Hq. unfold spec_percentile_index.
  destruct n as [| n]; [cbn; lia |].
  assert (Hf : (Qfloor (q1 * inject_Z (Z.of_nat (S n) - 1)) <= Qfloor (q2 * inject_Z (Z.of_nat (S n) - 1)))%Z).
  { apply Qfloor_resp_le. apply Qmult_le_compat_r; [exact Hq |].
    change 0 with (inject_Z 0). rewrite <- Zle_Qle. lia. }
  lia.
Qed.

Lemma sorted_nth_mono (s : list Q) :
  Sorted Qle s -> forall i j, (i <= j)%nat -> (j < length s)%nat -> nth i s 0 <= nth j s 0.
Proof.
  intros Hs. apply (Sorted_StronglySorted Qle_trans) in Hs.
  induction Hs as [| a s Hs IH Hall]; intros i j Hij Hj; cbn [length] in Hj; [lia |].
  destruct i as [| i], j as [| j]; cbn [nth]; try lra; try lia.
  - rewrite Forall_forall in Hall. apply Hall. apply nth_In. lia.
  - apply IH; lia.
Qed.

(** A larger quantile never selects a smaller element *)
Lemma percentile_mono (values : list Q) (q1 q2 : Q) :
  q1 <= q2 -> opt_le (percentile values q1) (percentile values q2).
Proof.
  intros Hq. destruct values as [| v vs]; [exact I |].
  rewrite !percentile_index_eq by discriminate. cbn [opt_le].
  destruct (sort_asc_spec (v :: vs)) as [Hs Hp].
  apply sorted_nth_mono; [exact Hs | apply spec_percentile_index_mono; exact Hq |].
  rewrite (Permutation_length Hp). apply spec_percentile_index_lt. cbn; lia.
Qed.

Lemma percentile_In (values : list Q) (q x : Q) : percentile values q = Some x -> In x values.
Proof.
  intros H. destruct values as [| v vs]; [discriminate |].
  rewrite percentile_index_eq in H by discriminate. injection H as <-.
  destruct (sort_asc_spec (v :: vs)) as [_ Hp].
  apply (Permutation_in _ Hp). apply nth_In.
  rewrite (Permutation_length Hp). apply spec_percentile_index_lt. cbn; lia.
Qed.

(** [_percentile] is monotone in the quantile: on the same values, a
    larger [q] never gives a smaller result (so p50 <= p95 <= p99), and
    both calls return a value or both return [None]. *)
Theorem percentile_monotone_in_q (values : list Q) (q1 q2 : Q) :
  q1 <= q2 -> opt_le (percentile values q1) (percentile values q2).
Proof. apply percentile_mono. Qed.

(** [_percentile] returns [None] exactly on the empty list, and otherwise
    one of the given values. *)
Theorem percentile_returns_element (values : list Q) (q : Q) :
  (percentile values q = None <-> values = []) /\
  (forall x, percentile values q = Some x -> In x values).
Proof.
  split; [| intros x; apply percentile_In].
  destruct values as [| v vs]; [split; reflexivity |].
  rewrite percentile_index_eq by discriminate. split; discriminate.
Qed.

Lemma recent_count_eq (now : Q) (vals times : list Q) (w : Q) :
  ws_count (recent now vals times w) =
  length (filter (fun vt => Qle_bool (now - snd vt) w) (combine vals times)).
Proof.
  unfold recent. destruct vals as [| v vs], times as [| t ts]; try reflexivity.
  set (f := filter _ (combine (v :: vs) (t :: ts))).
  destruct (map fst f) as [| x xs] eqn:E; cbn [ws_count empty_window].
  - destruct f; [reflexivity | discriminate].
  - rewrite <- E, length_map. reflexivity.
Qed.

Lemma filter_length_mono {A} (f g : A -> bool) (l : list A) :
  (forall x, f x = true -> g x = true) -> (length (filter f l) <= length (filter g l))%nat.
Proof.
  intros H. induction l as [| x l IH]; cbn [filter]; [lia |].
  destruct (f x) eqn:Ef; [rewrite (H x Ef) |]; destruct (g x); cbn [length]; lia.
Qed.

(** The recent-window count of /metrics is monotone in the window: the
    60-second window never counts more entries than the 300-second one. *)
Theorem recent_count_window_monotone (now : Q) (vals times : list Q) (w1 w2 : Q) :
  w1 <= w2 -> (ws_count (recent now vals times w1) <= ws_count (recent now vals times w2))%nat.
Proof.
  intros Hw. rewrite !recent_count_eq. apply filter_length_mono.
  intros [v t] H. cbn [snd] in *. apply Qle_bool_iff in H. apply Qle_bool_iff. lra.
Qed.

(** In every recent window of /metrics, the average is present exactly
    when the count is positive, the count is at most the number of
    recorded scores, and the percentiles are ordered p50 <= p95 <= p99. *)
Theorem recent_window_consistent (now : Q) (vals times : list Q) (w : Q) :
  let r := recent now vals times w in
  (ws_avg r = None <-> ws_count r = 0%nat) /\
  (ws_count r <= length vals)%nat /\
  opt_le (ws_p50 r) (ws_p95 r) /\ opt_le (ws_p95 r) (ws_p99 r).
Proof.
  intros r.
  assert (Hc : (ws_count r <= length vals)%nat).
  { unfold r. rewrite recent_count_eq.
    transitivity (length (combine vals times)); [apply filter_length_le |].
    rewrite length_combine. lia. }
  split; [| split; [exact Hc |]].
  - unfold r, recent. destruct vals as [| v vs], times as [| t ts]; cbn [empty_window ws_avg ws_count];
      try (split; reflexivity).
    destruct (map fst _) as [| x xs]; cbn [empty_window ws_avg ws_count]; [split; reflexivity |].
    split; discriminate.
  - unfold r, recent. destruct vals as [| v vs], times as [| t ts]; cbn [empty_window ws_p50 ws_p95 ws_p99];
      try (split; exact I).
    destruct (map fst _) as [| x xs]; cbn [empty_window ws_p50 ws_p95 ws_p99]; [split; exact I |].
    split; apply percentile_mono; unfold Qle; cbn; lia.
Qed.

(** ** The metrics buffers keep the most recent records *)

Lemma compact_suffix {A} (buf : list A) :
  (exists pre, buf = (pre ++ compact buf)%list) /\
  (Nat.min (length buf) 1000 <= length (compact buf))%nat /\
  (length (compact buf) <= length buf)%nat.
Proof.
  unfold compact. destruct (2000 <? length buf)%nat eqn:E.
  - apply Nat.ltb_lt in E. split; [exists (firstn (length buf - 1000) buf); symmetry; apply firstn_skipn |].
    rewrite length_skipn. lia.
  - split; [exists []; reflexivity | lia].
Qed.

Lemma analyze_metrics_latency (r : request_outcome) (m : metrics) :
  let m' := analyze_metrics r m in
  inference_latencies_ms m' =
    match r with
    | ReqEmptyText => inference_latencies_ms m
    | ReqFailed dt | ReqOk dt _ _ => compact (inference_latencies_ms m ++ [dt])%list
    end /\
  inference_count m' = (inference_count m + length (request_latencies [r]))%nat /\
  error_count m' = (error_count m + failed_requests [r])%nat.
Proof.
  destruct r as [| dt | dt pairs now]; [| | destruct pairs as [| [l s] ps]]; cbn;
    try (unfold record_emotion_top1; destruct (2000 <? _)%nat; cbn);
    repeat split; try reflexivity; lia.
Qed.

Lemma request_latencies_cons (r : request_outcome) (rs : list request_outcome) :
  request_latencies (r :: rs) = (request_latencies [r] ++ request_latencies rs)%list.
Proof. destruct r; reflexivity. Qed.

Lemma failed_requests_cons (r : request_outcome) (rs : list request_outcome) :
  failed_requests (r :: rs) = (failed_requests [r] + failed_requests rs)%nat.
Proof. destruct r; reflexivity. Qed.

Lemma run_requests_latency_loop (rs : list request_outcome) : forall m,
  let m' := run_requests rs m in
  inference_count m' = (inference_count m + length (request_latencies rs))%nat /\
  error_count m' = (error_count m + failed_requests rs)%nat /\
  (exists pre, (inference_latencies_ms m ++ request_latencies rs)%list = (pre ++ inference_latencies_ms m')%list) /\
  (Nat.min (length (inference_latencies_ms m ++ request_latencies rs)) 1000 <= length (inference_latencies_ms m'))%nat.
Proof.
  induction rs as [| r rs IH]; intros m m'.
  - unfold m'. cbn. rewrite !app_nil_r. split; [lia | split; [lia | split; [exists []; reflexivity | lia]]].
  - unfold m'. cbn [run_requests fold_left]. fold (run_requests rs (analyze_metrics r m)).
    destruct (IH (analyze_metrics r m)) as (Hc & He & (pre & Hpre) & Hmin).
    destruct (analyze_metrics_latency r m) as (Hl & Hc1 & He1).
    rewrite request_latencies_cons, failed_requests_cons.
    split; [rewrite Hc, Hc1, length_app; lia |].
    split; [rewrite He, He1; lia |].
    destruct r as [| dt | dt pairs now]; cbn [request_latencies flat_map app] in *;
      [rewrite Hl in Hpre, Hmin; split; [exists pre; exact Hpre | exact Hmin] | |];
      (destruct (compact_suffix (inference_latencies_ms m ++ [dt])%list) as ((pre0 & Hpre0) & Hmin0 & Hle0);
       rewrite Hl in Hpre, Hmin; split;
       [exists (pre0 ++ pre)%list; rewrite <- app_assoc, <- Hpre;
        change (dt :: request_latencies rs) with ([dt] ++ request_latencies rs)%list;
        rewrite app_assoc, Hpre0 at 1; rewrite app_assoc; reflexivity
       | rewrite !length_app in *; cbn [length] in *;
         destruct (Nat.le_gt_cases 1000 (length (compact (inference_latencies_ms m ++ [dt])%list))); lia]).
Qed.

(** Starting from the initial metrics, after any sequence of /analyze
    requests: [inference_count] is the number of requests that reached the
    timer, [error_count] the number of failed ones, and the latency buffer
    is the most recent part of the recorded latencies, in order, with at
    least the last [min(n, 1000)] of them. *)
Theorem run_requests_latency_history (rs : list request_outcome) (t0 : Q) :
  let m := run_requests rs (initial_metrics t0) in
  inference_count m = length (request_latencies rs) /\
  error_count m = failed_requests rs /\
  (exists pre, request_latencies rs = (pre ++ inference_latencies_ms m)%list) /\
  (Nat.min (length (request_latencies rs)) 1000 <= length (inference_latencies_ms m))%nat.
Proof. exact (run_requests_latency_loop rs (initial_metrics t0)). Qed.

Lemma combine_app_one {A B} (a : list A) (b : list B) (x : A) (y : B) :
  length a = length b -> combine (a ++ [x]) (b ++ [y]) = (combine a b ++ [(x, y)])%list.
Proof.
  revert b. induction a as [| u a IH]; intros [| v b] H; cbn in *; try discriminate; [reflexivity |].
  rewrite IH by lia. reflexivity.
Qed.

Lemma combine_skipn {A B} (k : nat) (a : list A) (b : list B) :
  combine (skipn k a) (skipn k b) = skipn k (combine a b).
Proof.
  revert a b. induction k as [| k IH]; intros a b; [reflexivity |].
  destruct a as [| x a], b as [| y b]; cbn [skipn combine]; try apply IH; try reflexivity.
  destruct (skipn k a); reflexivity.
Qed.

Lemma record_top1_pairs (s now : Q) (m : metrics) :
  length (emotion_top1_scores m) = length (emotion_top1_times m) ->
  let m' := record_emotion_top1 s now m in
  length (emotion_top1_scores m') = length (emotion_top1_times m') /\
  combine (emotion_top1_scores m') (emotion_top1_times m') =
    compact (combine (emotion_top1_scores m) (emotion_top1_times m) ++ [(s, now)])%list.
Proof.
  intros HL m'. unfold m', record_emotion_top1, compact.
  rewrite <- combine_app_one by exact HL.
  rewrite length_combine, !length_app, HL, Nat.min_id. cbn [length].
  destruct (2000 <? length (emotion_top1_times m) + 1)%nat; cbn [emotion_top1_scores emotion_top1_times].
  - rewrite combine_skipn, !length_skipn, !length_app, HL. cbn [length]. split; [lia | reflexivity].
  - rewrite !length_app, HL. split; reflexivity.
Qed.

Lemma analyze_metrics_top1 (r : request_outcome) (m : metrics) :
  length (emotion_top1_scores m) = length (emotion_top1_times m) ->
  let m' := analyze_metrics r m in
  length (emotion_top1_scores m') = length (emotion_top1_times m') /\
  combine (emotion_top1_scores m') (emotion_top1_times m') =
    match request_top1 [r] with
    | [] => combine (emotion_top1_scores m) (emotion_top1_times m)
    | p :: _ => compact (combine (emotion_top1_scores m) (emotion_top1_times m) ++ [p])%list
    end.
Proof.
  intros HL m'. unfold m'.
  destruct r as [| dt | dt pairs now]; cbn [analyze_metrics request_top1 flat_map app]; [split; auto | split; auto |].
  destruct pairs as [| [l s] ps]; cbn [app]; [split; auto |].
  exact (record_top1_pairs s now (record_latency_ms dt m) HL).
Qed.

Lemma request_top1_cons (r : request_outcome) (rs : list request_outcome) :
  request_top1 (r :: rs) = (request_top1 [r] ++ request_top1 rs)%list.
Proof. destruct r as [| | dt [| [l s] ps] now]; reflexivity. Qed.

Lemma request_top1_one (r : request_outcome) : (length (request_top1 [r]) <= 1)%nat.
Proof. destruct r as [| | dt [| [l s] ps] now]; cbn; lia. Qed.

Lemma run_requests_top1_loop (rs : list request_outcome) : forall m,
  length (emotion_top1_scores m) = length (emotion_top1_times m) ->
  let m' := run_requests rs m in
  length (emotion_top1_scores m') = length (emotion_top1_times m') /\
  (exists pre, (combine (emotion_top1_scores m) (emotion_top1_times m) ++ request_top1 rs)%list =
               (pre ++ combine (emotion_top1_scores m') (emotion_top1_times m'))%list) /\
  (Nat.min (length (combine (emotion_top1_scores m) (emotion_top1_times m) ++ request_top1 rs)) 1000
     <= length (combine (emotion_top1_scores m') (emotion_top1_times m')))%nat.
Proof.
  induction rs as [| r rs IH]; intros m HL m'.
  - unfold m'. cbn. rewrite !app_nil_r. split; [exact HL | split; [exists []; reflexivity | lia]].
  - unfold m'. cbn [run_requests fold_left]. fold (run_requests rs (analyze_metrics r m)).
    destruct (analyze_metrics_top1 r m HL) as (HL1 & Hc1).
    destruct (IH (analyze_metrics r m) HL1) as (HL2 & (pre & Hpre) & Hmin).
    split; [exact HL2 |].
    rewrite request_top1_cons. rewrite Hc1 in Hpre, Hmin.
    pose proof (request_top1_one r) as H1.
    set (c := combine (emotion_top1_scores m) (emotion_top1_times m)) in *.
    destruct (request_top1 [r]) as [| p [| p' ps]]; cbn [app length] in *; [| | lia].
    + split; [exists pre; exact Hpre | exact Hmin].
    + destruct (compact_suffix (c ++ [p])%list) as ((pre0 & Hpre0) & Hmin0 & Hle0).
      split.
      * exists (pre0 ++ pre)%list. rewrite <- app_assoc, <- Hpre.
        change (p :: request_top1 rs) with ([p] ++ request_top1 rs)%list.
        rewrite app_assoc, Hpre0 at 1. rewrite app_assoc. reflexivity.
      * rewrite !length_app in *. cbn [length] in *.
        destruct (Nat.le_gt_cases 1000 (length (compact (c ++ [p])%list))); lia.
Qed.

(** Starting from the initial metrics, after any sequence of /analyze
    requests the top-1 score and time buffers have the same length and,
    read together, are the most recent part of the [(score, clock)] pairs
    recorded by successful requests with a non-empty emotion list, in
    order, with at least the last [min(n, 1000)] of them: each kept score
    stays paired with its own clock read. *)
Theorem run_requests_top1_history (rs : list request_outcome) (t0 : Q) :
  let m := run_requests rs (initial_metrics t0) in
  length (emotion_top1_scores m) = length (emotion_top1_times m) /\
  (exists pre, request_top1 rs = (pre ++ combine (emotion_top1_scores m) (emotion_top1_times m))%list) /\
  (Nat.min (length (request_top1 rs)) 1000 <= length (emotion_top1_scores m))%nat.
Proof.
  destruct (run_requests_top1_loop rs (initial_metrics t0) eq_refl) as (HL & Hpre & Hmin).
  cbn [initial_metrics emotion_top1_scores emotion_top1_times combine app] in Hpre, Hmin.
  split; [exact HL | split; [exact Hpre |]].
  rewrite length_combine, <- HL, Nat.min_id in Hmin. exact Hmin.
Qed.

(** ** Loading the VAD table and initialising the mapper *)

Lemma load_mapping_fold_None (f : string -> option Q) (o : list (string * json)) :
  fold_left (fun acc kv =>
               opt_bind acc (fun mapping =>
                 match load_mapping_entry f (snd kv) with
                 | None => None
                 | Some None => Some mapping
                 | Some (Some x) => Some (dict_set (fst kv) x mapping)
                 end)) o None = None.
Proof. induction o as [| kv o IH]; [reflexivity | exact IH]. Qed.

Lemma load_mapping_fold (f : string -> option Q) (o : list (string * json)) :
  forall m0, NoDup (map fst o) -> (forall k, In k (map fst o) -> ~ In k (map fst m0)) ->
  fold_left (fun acc kv =>
               opt_bind acc (fun mapping =>
                 match load_mapping_entry f (snd kv) with
                 | None => None
                 | Some None => Some mapping
                 | Some (Some x) => Some (dict_set (fst kv) x mapping)
                 end)) o (Some m0)
  = if existsb (entry_raises f) o then None else Some (m0 ++ mapping_entries f o)%list.
Proof.
  induction o as [| [k v] o IH]; intros m0 Hnd Hdis.
  - cbn. rewrite app_nil_r. reflexivity.
  - cbn [map fst] in Hnd. inversion Hnd as [| ? ? Hk Hnd']. subst.
    cbn [fold_left opt_bind existsb mapping_entries flat_map]. unfold entry_raises at 1. cbn [snd fst].
    destruct (load_mapping_entry f v) as [[x |] |] eqn:Ev; cbn [orb].
    + rewrite dict_set_absent by (apply dict_get_None_iff; apply Hdis; left; reflexivity).
      rewrite IH; [| exact Hnd' |].
      * fold (mapping_entries f o). rewrite <- app_assoc. reflexivity.
      * intros k' Hk' Hin. rewrite map_app, in_app_iff in Hin. destruct Hin as [Hin | [Heq | []]].
        -- apply (Hdis k'); [right; exact Hk' | exact Hin].
        -- cbn in Heq. subst. contradiction.
    + rewrite IH; [reflexivity | exact Hnd' | intros k' Hk'; apply Hdis; right; exact Hk'].
    + apply load_mapping_fold_None.
Qed.

(** [_load_mapping_from_json] raises when the file's top level is not an
    object; on an object (whose keys are unique) it raises exactly when
    converting some entry raises, and otherwise returns, in file order,
    every key whose value is an object or a three-element list, with its
    converted triple, other entries being skipped. *)
Theorem load_mapping_from_json_spec (float_of_str : string -> option Q) (o : list (string * json)) :
  NoDup (map fst o) ->
  (forall data, (forall o', data <> JObj o') -> load_mapping_from_json float_of_str data = None) /\
  load_mapping_from_json float_of_str (JObj o) =
    if existsb (entry_raises float_of_str) o then None else Some (mapping_entries float_of_str o).
Proof.
  intros Hnd. split.
  - intros data Hd. destruct data; try reflexivity. exfalso. eapply Hd. reflexivity.
  - unfold load_mapping_from_json. rewrite load_mapping_fold; [reflexivity | exact Hnd | intros k _ []].
Qed.

Lemma ensure_default_mapper_neg (E : env) (st : analysis_state) :
  neg_part (snd (ensure_default_mapper E st)) = neg_part st.
Proof. unfold ensure_default_mapper. destruct (vad_mapper st); reflexivity. Qed.

Lemma ensure_default_mapper_some (E : env) (st : analysis_state) :
  vad_mapper (snd (ensure_default_mapper E st)) = Some (ensured_mapper E st).
Proof.
  unfold ensured_mapper, ensure_default_mapper. destruct (vad_mapper st) eqn:E1; [exact E1 | reflexivity].
Qed.

Ltac destruct_opt_binds :=
  repeat match goal with
         | |- context [opt_bind ?o _] => destruct o; cbn [opt_bind]
         end.

(** [init_vad_mapper] never touches the negative labels: the set, its
    path, count, source and threshold are the same after the call,
    whether it succeeds or raises (a set derived under a previous mapper
    is kept when the mapper is replaced). *)
Theorem init_vad_mapper_keeps_negative_labels (E : env) (VE : vad_env) (g : vad_globals)
    (dir : string) (labels : option (list string)) :
  let '(g', _) := init_vad_mapper E VE g dir labels in neg_part (g_state g') = neg_part (g_state g).
Proof.
  unfold init_vad_mapper. cbv zeta.
  destruct (path_map _) as [p |].
  - destruct_opt_binds; reflexivity.
  - destruct (ensure_default_mapper E (g_state g)) as [mp st1] eqn:Ee.
    pose proof (ensure_default_mapper_neg E (g_state g)) as Hn. rewrite Ee in Hn. exact Hn.
Qed.


(** With a configured map file, [init_vad_mapper] raises exactly when the
    map file cannot be read or parsed, converting it raises, or the alias
    file holds a truthy value that is not an object; a raising call leaves
    the state and the status as they were, and a successful one installs a
    mapper whose table is the one loaded from the map file. *)
Theorem init_vad_mapper_with_map (E : env) (VE : vad_env) (g : vad_globals)
    (dir : string) (labels : option (list string)) (p : string) :
  let paths := get_vad_config_paths VE (path_str VE dir) in
  path_map paths = Some p ->
  let '(g', raised) := init_vad_mapper E VE g dir labels in
  (raised = true <->
     read_json E p = None \/
     (exists data, read_json E p = Some data /\ load_mapping_from_json (float_of_str VE) data = None) \/
     (exists ap j, path_alias paths = Some ap /\ read_json E ap = Some j /\ truthy j = true /\
                   forall o, j <> JObj o)) /\
  (raised = true -> g_state g' = g_state g /\ status g' = status g) /\
  (raised = false -> exists data mapping al,
     read_json E p = Some data /\ load_mapping_from_json (float_of_str VE) data = Some mapping /\
     vad_mapper (g_state g') = Some (VADMapper_init mapping al)).
Proof.
  intros paths Hp. unfold init_vad_mapper. cbv zeta. fold paths. rewrite Hp.
  assert (Halias : forall al, alias_items al = None <->
            exists j, al = Some j /\ truthy j = true /\ forall o, j <> JObj o).
  { intros [j |]; cbn [alias_items]; [| split; [discriminate | intros (j & H & _); discriminate]].
    split.
    - intros H. exists j. split; [reflexivity |].
      destruct (truthy j) eqn:Et; [| discriminate].
      split; [reflexivity |]. intros o' ->. discriminate.
    - intros (j' & Hj & Ht & Hn). injection Hj as <-. rewrite Ht.
      destruct j; try reflexivity. exfalso. eapply Hn. reflexivity. }
  destruct (read_json E p) as [data |] eqn:Er; cbn [opt_bind].
  - destruct (load_mapping_from_json (float_of_str VE) data) as [mapping |] eqn:El; cbn [opt_bind].
    + set (al := match path_alias paths with Some ap => read_json E ap | None => None end).
      assert (Hal : (exists ap j, path_alias paths = Some ap /\ read_json E ap = Some j /\ truthy j = true /\
                       forall o, j <> JObj o) <-> alias_items al = None).
      { rewrite Halias. unfold al. destruct (path_alias paths) as [ap |].
        - split; [intros (ap' & j & Hap & Hj & Ht & Hn); injection Hap as <-; exists j; auto |
                  intros (j & Hj & Ht & Hn); exists ap, j; auto].
        - split; [intros (ap' & j & Hap & _); discriminate | intros (j & Hj & _); discriminate]. }
      destruct (alias_items al) as [items |] eqn:Ea; cbn [opt_bind].
      * split; [split; [discriminate | intros [H | [(d & Hd & Hl) | H]]; [discriminate | | ]] |].
        -- injection Hd as <-. congruence.
        -- apply Hal in H. discriminate.
        -- split; [discriminate |]. intros _. exists data, mapping, (Some items). auto.
      * split; [split; [intros _; right; right; apply Hal; reflexivity | reflexivity] |].
        split; [intros _; split; reflexivity | discriminate].
    + split; [split; [intros _; right; left; exists data; auto | reflexivity] |].
      split; [intros _; split; reflexivity | discriminate].
  - split; [split; [intros _; left; reflexivity | reflexivity] |].
    split; [intros _; split; reflexivity | discriminate].
Qed.

Lemma init_vad_mapper_success (E : env) (VE : vad_env) (g g' : vad_globals)
    (dir : string) (labels : option (list string)) :
  init_vad_mapper E VE g dir labels = (g', false) ->
  let paths := get_vad_config_paths VE (path_str VE dir) in
  exists mp, vad_mapper (g_state g') = Some mp /\
    let unknowns := match labels with Some ls => unknown_labels mp ls | None => [] end in
    status g' =
      if write_ok VE (path_unknown paths) then
        {| status_emotion_model_dir := Some (path_str VE dir);
           status_map_path := path_map paths;
           status_alias_path := path_alias paths;
           status_unknown_labels_path := Some (path_unknown paths);
           status_unknown_labels_count := length unknowns;
           status_unknown_labels := unknowns |}
      else status g.
Proof.
  unfold init_vad_mapper. cbv zeta.
  destruct (path_map _) as [p |].
  - destruct_opt_binds; intros H; try discriminate. injection H as <-. eexists. split; reflexivity.
  - pose proof (ensure_default_mapper_some E (g_state g)) as Hs.
    destruct (ensure_default_mapper E (g_state g)) as [mp st1] eqn:Ee.
    unfold ensured_mapper in Hs. rewrite Ee in Hs.
    intros H. injection H as <-. exists mp. split; [exact Hs | reflexivity].
Qed.

(** After a successful [init_vad_mapper] whose unknown-labels file was
    written, the status records that file's path and the unknown labels of
    the installed mapper among the given labels (none when no labels are
    given), with their count; when the write fails, the status is left as
    it was. *)
Theorem init_vad_mapper_records_unknowns (E : env) (VE : vad_env) (g : vad_globals)
    (dir : string) (labels : option (list string)) :
  let paths := get_vad_config_paths VE (path_str VE dir) in
  let '(g', raised) := init_vad_mapper E VE g dir labels in
  raised = false ->
  (write_ok VE (path_unknown paths) = true ->
   exists mp, vad_mapper (g_state g') = Some mp /\
     status_unknown_labels (status g') =
       match labels with Some ls => unknown_labels mp ls | None => [] end /\
     status_unknown_labels_count (status g') = length (status_unknown_labels (status g')) /\
     status_unknown_labels_path (status g') = Some (path_unknown paths)) /\
  (write_ok VE (path_unknown paths) = false -> status g' = status g).
Proof.
  intros paths. destruct (init_vad_mapper E VE g dir labels) as [g' raised] eqn:Ei. intros ->.
  destruct (init_vad_mapper_success E VE g g' dir labels Ei) as (mp & Hm & Hs). fold paths in Hs.
  cbv zeta in Hs. rewrite Hs.
  destruct (write_ok VE (path_unknown paths)).
  - split; [intros _; exists mp; repeat split; auto | discriminate].
  - split; [discriminate | reflexivity].
Qed.

(** Reading back: when the unknown-labels file holds what a successful
    [init_vad_mapper] wrote there, [get_vad_status] reports the same
    unknown labels and count as the status that call recorded. *)
Theorem get_vad_status_reads_back_unknowns (E : env) (VE : vad_env) (g : vad_globals)
    (dir : string) (labels : option (list string)) :
  let paths := get_vad_config_paths VE (path_str VE dir) in
  let '(g1, raised) := init_vad_mapper E VE g dir labels in
  raised = false -> write_ok VE (path_unknown paths) = true ->
  read_json E (path_unknown paths) = Some (unknown_labels_json (status_unknown_labels (status g1))) ->
  status_unknown_labels (snd (get_vad_status E g1)) = status_unknown_labels (status g1) /\
  status_unknown_labels_count (snd (get_vad_status E g1)) = status_unknown_labels_count (status g1).
Proof.
  intros paths. destruct (init_vad_mapper E VE g dir labels) as [g1 raised] eqn:Ei. intros -> Hw Hread.
  destruct (init_vad_mapper_success E VE g g1 dir labels Ei) as (mp & _ & Hs). fold paths in Hs.
  cbv zeta in Hs. rewrite Hw in Hs.
  assert (Hp : status_unknown_labels_path (status g1) = Some (path_unknown paths)) by (rewrite Hs; reflexivity).
  assert (Hc : status_unknown_labels_count (status g1) = length (status_unknown_labels (status g1)))
    by (rewrite Hs; reflexivity).
  unfold get_vad_status. cbn [snd]. rewrite Hp.
  destruct (String.eqb (path_unknown paths) "") eqn:E0; [split; reflexivity |].
  rewrite Hread. unfold unknown_labels_json.
  assert (Hd : forall x : json, dict_get_or "unknown_labels" (JList []) [("unknown_labels", x)] = x)
    by reflexivity.
  rewrite Hd. cbn [status_unknown_labels status_unknown_labels_count].
  rewrite map_map. cbn [py_str]. rewrite map_id.
  split; [reflexivity | symmetry; exact Hc].
Qed.

(** ** Emotion labels from [id2label] *)

Lemma pykey_eqb_eq (a b : pykey) : pykey_eqb a b = true <-> a = b.
Proof.
  destruct a as [x | x], b as [y | y]; cbn [pykey_eqb]; try (split; [discriminate | intros H; discriminate H]).
  - rewrite Z.eqb_eq. split; [intros -> | intros H; injection H]; auto.
  - rewrite String.eqb_eq. split; [intros -> | intros H; injection H]; auto.
Qed.

Lemma pykey_lookup_In {A} (k : pykey) (v : A) (d : list (pykey * A)) :
  pykey_lookup k d = Some v -> In (k, v) d.
Proof.
  induction d as [| [k' v'] d IH]; cbn [pykey_lookup]; [discriminate |].
  destruct (pykey_eqb k k') eqn:E.
  - intros H. injection H as <-. apply pykey_eqb_eq in E. subst. left. reflexivity.
  - intros H. right. auto.
Qed.

Lemma pykey_lookup_exists {A} (k : pykey) (d : list (pykey * A)) :
  In k (map fst d) -> exists v, pykey_lookup k d = Some v.
Proof.
  induction d as [| [k' v'] d IH]; cbn [map fst In pykey_lookup]; [intros [] |].
  destruct (pykey_eqb k k') eqn:E; [eauto |].
  intros [-> | H]; [| auto]. exfalso. assert (pykey_eqb k k = true) by (apply pykey_eqb_eq; reflexivity). congruence.
Qed.

Lemma pykey_lookup_None {A} (k : pykey) (d : list (pykey * A)) :
  ~ In k (map fst d) -> pykey_lookup k d = None.
Proof.
  intros Hn. destruct (pykey_lookup k d) as [v |] eqn:E; [| reflexivity].
  exfalso. apply Hn. apply pykey_lookup_In in E. apply (in_map fst) in E. exact E.
Qed.

Lemma map_option_Some_In {A B} (f : A -> option B) (l : list A) (r : list B) (x : A) :
  map_option f l = Some r -> In x l -> exists y, f x = Some y /\ In y r.
Proof.
  revert r. induction l as [| a l IH]; intros r H Hx; [destruct Hx |].
  cbn [map_option opt_bind] in H. destruct (f a) as [b |] eqn:Ea; [| discriminate].
  destruct (map_option f l) as [r' |] eqn:El; cbn [option_map] in H; [| discriminate].
  injection H as <-. destruct Hx as [-> | Hx].
  - exists b. split; [exact Ea | left; reflexivity].
  - destruct (IH r' eq_refl Hx) as (y & Hy & Hin). exists y. split; [exact Hy | right; exact Hin].
Qed.

Lemma map_option_None {A B} (f : A -> option B) (l : list A) (x : A) :
  In x l -> f x = None -> map_option f l = None.
Proof.
  induction l as [| a l IH]; intros Hx Hf; [destruct Hx |].
  cbn [map_option]. destruct Hx as [-> | Hx]; [rewrite Hf; reflexivity |].
  destruct (f a); cbn [opt_bind]; [| reflexivity]. rewrite (IH Hx Hf). reflexivity.
Qed.

Lemma insert_Z_perm (x : Z) (l : list Z) : Permutation (insert_Z x l) (x :: l).
Proof.
  induction l as [| y l IH]; cbn [insert_Z]; auto.
  destruct (Z.ltb x y); auto. rewrite IH. apply perm_swap.
Qed.

Lemma insert_Z_sorted (x : Z) (l : list Z) : Sorted Z.le l -> Sorted Z.le (insert_Z x l).
Proof.
  induction 1 as [| y l Hs IH Hhd]; cbn [insert_Z].
  - repeat constructor.
  - destruct (Z.ltb x y) eqn:E.
    + apply Z.ltb_lt in E. constructor; [constructor; auto | constructor; lia].
    + apply Z.ltb_ge in E. constructor; [exact IH |].
      destruct l as [| z l]; cbn [insert_Z]; [constructor; lia |].
      inversion Hhd; subst. destruct (Z.ltb x z); constructor; lia.
Qed.

Lemma sort_Z_loop (l : list Z) : forall acc, Sorted Z.le acc ->
  Sorted Z.le (fold_left (fun acc x => insert_Z x acc) l acc) /\
  Permutation (fold_left (fun acc x => insert_Z x acc) l acc) (acc ++ l).
Proof.
  induction l as [| x l IH]; intros acc Hs; cbn [fold_left].
  - rewrite app_nil_r. auto.
  - destruct (IH (insert_Z x acc) (insert_Z_sorted x acc Hs)) as [H1 H2]. split; [exact H1 |].
    rewrite H2, insert_Z_perm. apply Permutation_middle.
Qed.

Lemma sort_Z_spec (l : list Z) : Sorted Z.le (sort_Z l) /\ Permutation (sort_Z l) l.
Proof. unfold sort_Z. destruct (sort_Z_loop l [] (Sorted_nil _)) as [H1 H2]. auto. Qed.

Lemma sorted_le_nodup_lt (l : list Z) : Sorted Z.le l -> NoDup l -> Sorted Z.lt l.
Proof.
  induction 1 as [| a l Hs IH Hhd]; intros Hnd; constructor.
  - apply IH. inversion Hnd; assumption.
  - inversion Hnd as [| ? ? Ha _]; subst. destruct Hhd as [| b l' Hab]; constructor.
    assert (a <> b) by (intros ->; apply Ha; left; reflexivity). lia.
Qed.

Lemma nodup_key_unique {A} (d : list (pykey * A)) (k : pykey) (v v' : A) :
  NoDup (map fst d) -> In (k, v) d -> In (k, v') d -> v = v'.
Proof.
  induction d as [| [k1 v1] d IH]; intros Hnd H1 H2; [destruct H1 |].
  cbn [map fst] in Hnd. inversion Hnd as [| ? ? Hk Hnd']; subst.
  destruct H1 as [E1 | H1], H2 as [E2 | H2].
  - congruence.
  - injection E1 as -> ->. exfalso. apply Hk. apply (in_map fst) in H2. exact H2.
  - injection E2 as -> ->. exfalso. apply Hk. apply (in_map fst) in H1. exact H1.
  - apply IH; assumption.
Qed.

Lemma NoDup_map_KInt (zs : list Z) : NoDup zs -> NoDup (map KInt zs).
Proof.
  induction 1 as [| z zs Hz Hnd IH]; cbn [map]; constructor; [| exact IH].
  intros Hin. apply in_map_iff in Hin. destruct Hin as (z' & Hz' & Hin). injection Hz' as ->. contradiction.
Qed.

Lemma map_option_int_keys (keys : list pykey) :
  (forall k, In k keys -> exists z, k = KInt z) ->
  exists zs, map_option key_int keys = Some zs /\ keys = map KInt zs.
Proof.
  induction keys as [| k keys IH]; intros Hk; [exists []; auto |].
  destruct (Hk k (or_introl eq_refl)) as [z ->].
  destruct IH as (zs & H1 & H2); [intros k' Hk'; apply Hk; right; exact Hk' |].
  exists (z :: zs). cbn [map_option key_int opt_bind]. rewrite H1. cbn. rewrite H2. auto.
Qed.

Lemma map_option_lookup (d : list (pykey * json)) (zs : list Z) :
  (forall z, In z zs -> In (KInt z) (map fst d)) ->
  exists l', map fst l' = map KInt zs /\ (forall kv, In kv l' -> In kv d) /\
    map_option (fun i => pykey_lookup (KInt i) d) zs = Some (map snd l').
Proof.
  induction zs as [| z zs IH]; intros Hz; [exists []; cbn; split; [reflexivity | split; [intros _ [] | reflexivity]] |].
  destruct (pykey_lookup_exists (KInt z) d (Hz z (or_introl eq_refl))) as [v Hv].
  destruct IH as (l' & H1 & H2 & H3); [intros z' H; apply Hz; right; exact H |].
  exists ((KInt z, v) :: l'). cbn [map fst snd map_option opt_bind]. rewrite Hv, H3. cbn [opt_bind option_map].
  split; [rewrite H1; reflexivity | split; [| reflexivity]].
  intros kv [<- | H]; [apply pykey_lookup_In; exact Hv | apply H2; exact H].
Qed.

Lemma sorted_key_lt (l' : list (pykey * json)) : forall zs,
  map fst l' = map KInt zs -> Sorted Z.lt zs -> Sorted key_lt l'.
Proof.
  induction l' as [| kv l' IH]; intros zs Hm Hs; [constructor |].
  destruct zs as [| z zs]; [discriminate |]. cbn [map] in Hm. injection Hm as Hk Hm.
  inversion Hs as [| ? ? Hs' Hhd]; subst. constructor; [exact (IH zs Hm Hs') |].
  destruct l' as [| kv' l'']; constructor.
  destruct zs as [| z' zs]; [discriminate |]. cbn [map] in Hm. injection Hm as Hk' _.
  inversion Hhd; subst. unfold key_lt. rewrite Hk, Hk'. assumption.
Qed.

(** When every key of [id2label] is an [int] (as in a loaded model
    config), the labels are its values as strings, ordered by increasing
    key, each value exactly once. *)
Theorem id2label_int_keys_sorted (d : list (pykey * json)) :
  d <> [] -> NoDup (map fst d) -> (forall k, In k (map fst d) -> exists z, k = KInt z) ->
  exists l', Permutation l' d /\ Sorted key_lt l' /\
    id2label_labels (Some d) = map (fun kv => py_str (snd kv)) l'.
Proof.
  intros Hne Hnd Hk.
  destruct (map_option_int_keys (map fst d) Hk) as (zs & Hzs & Hkeys).
  destruct (sort_Z_spec zs) as [Hsorted Hperm].
  assert (Hndz : NoDup zs) by (rewrite Hkeys in Hnd; apply NoDup_map_inv in Hnd; exact Hnd).
  assert (Hlt : Sorted Z.lt (sort_Z zs))
    by (apply sorted_le_nodup_lt; [exact Hsorted | apply (Permutation_NoDup (Permutation_sym Hperm)); exact Hndz]).
  destruct (map_option_lookup d (sort_Z zs)) as (l' & H1 & H2 & H3).
  { intros z Hz. rewrite Hkeys. apply in_map. apply (Permutation_in _ Hperm). exact Hz. }
  exists l'.
  assert (Hndl : NoDup (map fst l')).
  { rewrite H1. apply NoDup_map_KInt.
    apply (Permutation_NoDup (Permutation_sym Hperm)). exact Hndz. }
  split; [| split].
  - apply NoDup_Permutation; [apply NoDup_map_inv in Hndl; exact Hndl | apply NoDup_map_inv in Hnd; exact Hnd |].
    intros [k v]. split; [apply H2 |].
    intros Hin.
    assert (Hz : exists z, k = KInt z) by (apply Hk; apply (in_map fst) in Hin; exact Hin).
    destruct Hz as [z ->].
    assert (Hzl : In (KInt z) (map fst l')).
    { rewrite H1. apply in_map. apply (Permutation_in _ (Permutation_sym Hperm)).
      assert (In (KInt z) (map KInt zs)) by (rewrite <- Hkeys; apply (in_map fst) in Hin; exact Hin).
      apply in_map_iff in H. destruct H as (z' & Hz' & Hin'). injection Hz' as ->. exact Hin'. }
    apply in_map_iff in Hzl. destruct Hzl as ([k' v'] & Hk' & Hin'). cbn [fst] in Hk'. subst k'.
    rewrite (nodup_key_unique d (KInt z) v v' Hnd Hin (H2 _ Hin')). exact Hin'.
  - apply (sorted_key_lt l' (sort_Z zs) H1 Hlt).
  - unfold id2label_labels. destruct d as [| kv d']; [congruence |].
    destruct (Hk (fst kv) (or_introl eq_refl)) as [z0 Hz0].
    cbn [map existsb]. rewrite Hz0. cbn [key_is_numeric orb].
    rewrite <- Hz0. change (fst kv :: map fst d') with (map fst (kv :: d')).
    rewrite Hzs, H3, map_map. reflexivity.
Qed.

(** When every key of [id2label] is a digit string (a config whose keys
    were not converted to [int]), the lookups [id2label[i]] by [int] raise
    [KeyError], which is caught: no labels are extracted. *)
Theorem id2label_digit_string_keys_no_labels (d : list (pykey * json)) :
  d <> [] -> (forall k, In k (map fst d) -> exists s, k = KStr s /\ isdigit s = true) ->
  id2label_labels (Some d) = [].
Proof.
  intros Hne Hk. unfold id2label_labels.
  destruct d as [| kv d']; [congruence |].
  destruct (Hk (fst kv) (or_introl eq_refl)) as (s & Hs & Hd).
  cbn [map existsb]. rewrite Hs. cbn [key_is_numeric]. rewrite Hd. cbn [orb].
  rewrite <- Hs. change (fst kv :: map fst d') with (map fst (kv :: d')).
  destruct (map_option key_int (map fst (kv :: d'))) as [ks |] eqn:Eks; [| reflexivity].
  destruct (map_option_Some_In key_int _ ks (fst kv) Eks (or_introl eq_refl)) as (z & Hz & Hzin).
  destruct (sort_Z_spec ks) as [_ Hperm].
  rewrite (map_option_None (fun i => pykey_lookup (KInt i) (kv :: d')) (sort_Z ks) z); [reflexivity | |].
  - apply (Permutation_in _ (Permutation_sym Hperm)). exact Hzin.
  - apply pykey_lookup_None. intros Hin. destruct (Hk _ Hin) as (s' & Hs' & _). discriminate.
Qed.

(** ** Sentiment and emotion outputs *)

Lemma max_by_score_first {A} (l : list (A * Q)) : forall best,
  let m := max_by_score best l in
  exists pre rest, best :: l = (pre ++ m :: rest)%list /\
    (forall kv, In kv pre -> snd kv < snd m) /\ (forall kv, In kv rest -> snd kv <= snd m).
Proof.
  induction l as [| x l IH]; intros best m.
  - exists [], []. split; [reflexivity | split; intros kv []].
  - unfold m. cbn [max_by_score].
    destruct (Qlt_bool (snd best) (snd x)) eqn:E; qlt_bool_hyps.
    + destruct (IH x) as (pre & rest & Hl & Hpre & Hrest).
      set (m' := max_by_score x l) in *.
      assert (Hx : snd x <= snd m').
      { destruct pre as [| y pre]; cbn [app] in Hl; injection Hl as Hy _.
        - rewrite Hy. apply Qle_refl.
        - subst y. apply Qlt_le_weak. apply Hpre. left. reflexivity. }
      exists (best :: pre), rest. split; [rewrite Hl; reflexivity | split; [| exact Hrest]].
      intros kv [<- | Hkv]; [lra | apply Hpre; exact Hkv].
    + destruct (IH best) as (pre & rest & Hl & Hpre & Hrest).
      set (m' := max_by_score best l) in *.
      destruct pre as [| y pre]; cbn [app] in Hl; injection Hl as Hy Hl.
      * exists [], (x :: rest). rewrite <- Hy, Hl. split; [reflexivity | split; [intros kv [] |]].
        intros kv [<- | Hkv]; [exact E | rewrite Hy; apply Hrest; exact Hkv].
      * subst y. exists (best :: x :: pre), rest. rewrite Hl. split; [reflexivity | split; [| exact Hrest]].
        assert (Hb : snd best < snd m') by (apply Hpre; left; reflexivity).
        intros kv [<- | [<- | Hkv]]; [exact Hb | lra | apply Hpre; right; exact Hkv].
Qed.

Lemma dict_setdefault_nonempty {A} (k : string) (v : A) (d : list (string * A)) :
  dict_setdefault k v d <> [].
Proof.
  unfold dict_setdefault. destruct (dict_get k d) eqn:E.
  - destruct d; [discriminate | congruence].
  - destruct d as [| [k' v'] d]; cbn [dict_set]; [discriminate |]. destruct (String.eqb k k'); discriminate.
Qed.

Lemma sentiment_scores_nonempty (mid : string) (id2label : list string) (mode : string) (raw : list (string * Q)) :
  sent_scores (analyze_sentiment mid id2label mode raw) <> [].
Proof.
  unfold analyze_sentiment. cbn [sent_scores].
  destruct (String.prefix star_model_prefix mid).
  - unfold star_sentiment. cbv zeta. destruct (String.eqb mode "off"); [destruct (Qle_bool _ 0) |]; discriminate.
  - unfold generic_sentiment. cbv zeta.
    destruct (generic_drops_neutral id2label mode); [destruct (Qle_bool _ 0); discriminate |].
    match goal with |- map _ ?X <> [] =>
      assert (HX : X <> []) by (cbn [fold_left]; apply dict_setdefault_nonempty);
      destruct X; [congruence | discriminate] end.
Qed.

(** The sentiment label is the key of the first entry of maximal score in
    the returned scores: every entry before it scores strictly less and
    every entry after it scores at most as much. *)
Theorem analyze_sentiment_label_first_max (mid : string) (id2label : list string) (mode : string)
    (raw : list (string * Q)) :
  let r := analyze_sentiment mid id2label mode raw in
  exists pre v rest, sent_scores r = (pre ++ (sent_label r, v) :: rest)%list /\
    (forall kv, In kv pre -> snd kv < v) /\ (forall kv, In kv rest -> snd kv <= v).
Proof.
  intros r. pose proof (sentiment_scores_nonempty mid id2label mode raw) as Hne. fold r in Hne.
  assert (Hl : sent_label r = match sent_scores r with [] => "" | x :: l => fst (max_by_score x l) end)
    by reflexivity.
  destruct (sent_scores r) as [| x l] eqn:Es; [congruence |].
  destruct (max_by_score_first l x) as (pre & rest & Hsplit & Hpre & Hrest).
  exists pre, (snd (max_by_score x l)), rest. rewrite Hl, Hsplit. split; [| split; assumption].
  destruct (max_by_score x l). reflexivity.
Qed.

(** In single-label mode, [analyze_emotions] returns the normalised
    pairs sorted by descending score, cut to the first [topk] entries when
    a positive cap is set. *)
Theorem analyze_emotions_single_label (thr : Q) (topk : option nat) (raw : list (string * Q)) :
  let pairs := normalize_scores raw true in
  exists full, Permutation full pairs /\ desc_sorted full /\
    analyze_emotions false thr topk raw =
      match topk with
      | Some k => if (0 <? k)%nat then firstn k full else full
      | None => full
      end.
Proof.
  intros pairs. destruct (sort_desc_spec pairs) as [Hs Hp].
  exists (sort_desc pairs). split; [exact Hp | split; [exact Hs |]].
  unfold analyze_emotions. cbn [negb]. apply truncate_topk_firstn.
Qed.

Lemma prefix_app_l (a b s : string) : String.prefix (a ++ b) s = true -> String.prefix a s = true.
Proof.
  revert s. induction a as [| c a IH]; intros s H; [destruct s; reflexivity |].
  destruct s as [| c' s]; cbn in *; [discriminate |].
  destruct (ascii_dec c c'); [apply IH; exact H | discriminate].
Qed.

Lemma contains_positive_pos (l : string) : contains "pos" l || contains "positive" l = contains "pos" l.
Proof.
  destruct (contains "pos" l) eqn:E; [reflexivity |]. cbn [orb].
  destruct (contains "positive" l) eqn:E2; [| reflexivity].
  exfalso. revert E E2. induction l as [| c l IH]; intros E E2; cbn [contains] in *.
  - discriminate.
  - apply orb_false_iff in E. destruct E as [E1 E]. apply orb_true_iff in E2. destruct E2 as [E2 | E2].
    + change "positive" with ("pos" ++ "itive") in E2. apply prefix_app_l in E2. congruence.
    + exact (IH E E2).
Qed.

Lemma contains_negative_neg (l : string) : contains "neg" l || contains "negative" l = contains "neg" l.
Proof.
  destruct (contains "neg" l) eqn:E; [reflexivity |]. cbn [orb].
  destruct (contains "negative" l) eqn:E2; [| reflexivity].
  exfalso. revert E E2. induction l as [| c l IH]; intros E E2; cbn [contains] in *.
  - discriminate.
  - apply orb_false_iff in E. destruct E as [E1 E]. apply orb_true_iff in E2. destruct E2 as [E2 | E2].
    + change "negative" with ("neg" ++ "ative") in E2. apply prefix_app_l in E2. congruence.
    + exact (IH E E2).
Qed.

Lemma contains_neutral_neu (l : string) : contains "neu" l || contains "neutral" l = contains "neu" l.
Proof.
  destruct (contains "neu" l) eqn:E; [reflexivity |]. cbn [orb].
  destruct (contains "neutral" l) eqn:E2; [| reflexivity].
  exfalso. revert E E2. induction l as [| c l IH]; intros E E2; cbn [contains] in *.
  - discriminate.
  - apply orb_false_iff in E. destruct E as [E1 E]. apply orb_true_iff in E2. destruct E2 as [E2 | E2].
    + change "neutral" with ("neu" ++ "tral") in E2. apply prefix_app_l in E2. congruence.
    + exact (IH E E2).
Qed.

Lemma dict_get_or_set {A} (k k' : string) (v dflt : A) (d : list (string * A)) :
  dict_get_or k dflt (dict_set k' v d) = if String.eqb k k' then v else dict_get_or k dflt d.
Proof. unfold dict_get_or. rewrite dict_get_set. destruct (String.eqb k k'); reflexivity. Qed.

Lemma dict_set_keys_in {A} (k k' : string) (v : A) (d : list (string * A)) :
  In k (map fst (dict_set k' v d)) -> k = k' \/ In k (map fst d).
Proof.
  induction d as [| [k1 v1] d IH]; cbn [dict_set map fst In].
  - intros [-> | []]. left. reflexivity.
  - destruct (String.eqb k' k1) eqn:E; cbn [map fst In].
    + intros [-> | H]; right; [left; reflexivity | right; exact H].
    + intros [-> | H]; [right; left; reflexivity |]. destruct (IH H) as [H' | H']; [left | right; right]; assumption.
Qed.

Definition sentiment_classes : list string := ["positive"; "negative"; "neutral"].

Lemma generic_accumulate_loop (pairs : list (string * Q)) : forall tmp u,
  (forall k, In k (map fst tmp) -> In k sentiment_classes) ->
  let '(tmp', u') :=
    fold_left (fun acc pair =>
               let '(tmp, unknown_sum) := acc in
               let '(lbl, s) := pair in
               let l := lower lbl in
               if contains "pos" l || contains "positive" l then
                 (dict_set "positive" (dict_get_or "positive" 0 tmp + s) tmp, unknown_sum)
               else if contains "neg" l || contains "negative" l then
                 (dict_set "negative" (dict_get_or "negative" 0 tmp + s) tmp, unknown_sum)
               else if contains "neu" l || contains "neutral" l then
                 (dict_set "neutral" (dict_get_or "neutral" 0 tmp + s) tmp, unknown_sum)
               else (tmp, unknown_sum + s)) pairs (tmp, u) in
  dict_get_or "positive" 0 tmp' == dict_get_or "positive" 0 tmp + class_mass is_pos_label pairs /\
  dict_get_or "negative" 0 tmp' ==
    dict_get_or "negative" 0 tmp + class_mass (fun p => negb (is_pos_label p) && is_neg_label p) pairs /\
  dict_get_or "neutral" 0 tmp' ==
    dict_get_or "neutral" 0 tmp +
    class_mass (fun p => negb (is_pos_label p) && negb (is_neg_label p) && is_neu_label p) pairs /\
  u' == u + class_mass (fun p => negb (is_pos_label p) && negb (is_neg_label p) && negb (is_neu_label p)) pairs /\
  (forall k, In k (map fst tmp') -> In k sentiment_classes).
Proof.
  unfold class_mass, qsum.
  induction pairs as [| [lbl s] pairs IH]; intros tmp u Hk.
  - cbn. repeat split; try ring. exact Hk.
  - cbn [fold_left]. rewrite contains_positive_pos, contains_negative_neg, contains_neutral_neu.
    assert (Hp : is_pos_label (lbl, s) = contains "pos" (lower lbl)) by reflexivity.
    assert (Hn : is_neg_label (lbl, s) = contains "neg" (lower lbl)) by reflexivity.
    assert (Hu : is_neu_label (lbl, s) = contains "neu" (lower lbl)) by reflexivity.
    cbn [filter]. rewrite Hp, Hn, Hu.
    destruct (contains "pos" (lower lbl)) eqn:Ep; cbn [negb andb].
    + match goal with |- context [fold_left ?f pairs (?t, ?v)] =>
        pose proof (IH t v) as H; destruct (fold_left f pairs (t, v)) as [tmp' u'] end.
      destruct H as (H1 & H2 & H3 & H4 & H5).
      { intros k Hin. apply dict_set_keys_in in Hin. destruct Hin as [-> | Hin]; [left; reflexivity | apply Hk; exact Hin]. }
      rewrite !dict_get_or_set in *. cbn [String.eqb Ascii.eqb Bool.eqb] in *.
      cbn [map fold_right snd]. rewrite H1, H2, H3, H4. repeat split; try ring. exact H5.
    + destruct (contains "neg" (lower lbl)) eqn:En; cbn [negb andb].
      * match goal with |- context [fold_left ?f pairs (?t, ?v)] =>
          pose proof (IH t v) as H; destruct (fold_left f pairs (t, v)) as [tmp' u'] end.
        destruct H as (H1 & H2 & H3 & H4 & H5).
        { intros k Hin. apply dict_set_keys_in in Hin. destruct Hin as [-> | Hin]; [right; left; reflexivity | apply Hk; exact Hin]. }
        rewrite !dict_get_or_set in *. cbn [String.eqb Ascii.eqb Bool.eqb] in *.
        cbn [map fold_right snd]. rewrite H1, H2, H3, H4. repeat split; try ring. exact H5.
      * destruct (contains "neu" (lower lbl)) eqn:Eu; cbn [negb andb].
        -- match goal with |- context [fold_left ?f pairs (?t, ?v)] =>
             pose proof (IH t v) as H; destruct (fold_left f pairs (t, v)) as [tmp' u'] end.
           destruct H as (H1 & H2 & H3 & H4 & H5).
           { intros k Hin. apply dict_set_keys_in in Hin.
             destruct Hin as [-> | Hin]; [right; right; left; reflexivity | apply Hk; exact Hin]. }
           rewrite !dict_get_or_set in *. cbn [String.eqb Ascii.eqb Bool.eqb] in *.
           cbn [map fold_right snd]. rewrite H1, H2, H3, H4. repeat split; try ring. exact H5.
        -- match goal with |- context [fold_left ?f pairs (?t, ?v)] =>
             pose proof (IH t v Hk) as H; destruct (fold_left f pairs (t, v)) as [tmp' u'] end.
           destruct H as (H1 & H2 & H3 & H4 & H5).
           cbn [map fold_right snd]. rewrite H1, H2, H3, H4. repeat split; try ring. exact H5.
Qed.

(** The classification loop of the generic sentiment branch: the
    positive mass is the total score of the labels whose lower-cased form
    contains "pos", the negative mass that of the remaining labels
    containing "neg", the neutral mass that of the remaining labels
    containing "neu", and the unknown sum that of all other labels (so the
    extra tests for "positive", "negative", "neutral" never change the
    outcome); only those three keys are ever created. *)
Theorem generic_accumulate_class_masses (pairs : list (string * Q)) :
  let '(tmp, unknown_sum) := generic_accumulate pairs in
  dict_get_or "positive" 0 tmp == class_mass is_pos_label pairs /\
  dict_get_or "negative" 0 tmp == class_mass (fun p => negb (is_pos_label p) && is_neg_label p) pairs /\
  dict_get_or "neutral" 0 tmp ==
    class_mass (fun p => negb (is_pos_label p) && negb (is_neg_label p) && is_neu_label p) pairs /\
  unknown_sum == class_mass (fun p => negb (is_pos_label p) && negb (is_neg_label p) && negb (is_neu_label p)) pairs /\
  (forall k, In k (map fst tmp) -> In k sentiment_classes).
Proof.
  unfold generic_accumulate.
  pose proof (generic_accumulate_loop pairs [] 0 (fun k H => match H with end)) as H.
  destruct (fold_left _ pairs ([], 0)) as [tmp u].
  destruct H as (H1 & H2 & H3 & H4 & H5).
  cbn [dict_get_or dict_get] in H1, H2, H3.
  rewrite H1, H2, H3, H4. repeat split; try ring. exact H5.
Qed.

(** ** Local model discovery and loading *)

Lemma str_ltb_asym (s1 s2 : string) : str_ltb s1 s2 = true -> str_ltb s2 s1 = false.
Proof.
  revert s2. induction s1 as [| c1 s1 IH]; intros [| c2 s2]; cbn [str_ltb]; try discriminate; try reflexivity.
  destruct (Nat.ltb_spec (nat_of_ascii c1) (nat_of_ascii c2)).
  - intros _. destruct (Nat.ltb_spec (nat_of_ascii c2) (nat_of_ascii c1)); [lia |].
    destruct (Nat.eqb_spec (nat_of_ascii c2) (nat_of_ascii c1)); [lia | reflexivity].
  - destruct (Nat.eqb_spec (nat_of_ascii c1) (nat_of_ascii c2)) as [Heq | Hneq]; [| discriminate].
    intros Hlt. rewrite Heq, Nat.ltb_irrefl, Nat.eqb_refl. apply IH. exact Hlt.
Qed.

Lemma insert_by_perm {A} (ltb : A -> A -> bool) (x : A) (l : list A) :
  Permutation (insert_by ltb x l) (x :: l).
Proof.
  induction l as [| y l IH]; cbn [insert_by]; [reflexivity |].
  destruct (ltb x y); [reflexivity |]. rewrite IH. apply perm_swap.
Qed.

Lemma sort_by_loop_perm {A} (ltb : A -> A -> bool) (l : list A) : forall acc,
  Permutation (fold_left (fun acc x => insert_by ltb x acc) l acc) (l ++ acc).
Proof.
  induction l as [| x l IH]; intros acc; cbn [fold_left app]; [reflexivity |].
  rewrite IH, insert_by_perm. symmetry. apply Permutation_middle.
Qed.

Lemma sort_by_perm {A} (ltb : A -> A -> bool) (l : list A) : Permutation (sort_by ltb l) l.
Proof. unfold sort_by. rewrite sort_by_loop_perm. rewrite app_nil_r. reflexivity. Qed.

Section SortBy.
Context {A : Type} (ltb : A -> A -> bool).
Hypothesis ltb_asym : forall a b, ltb a b = true -> ltb b a = false.

Lemma insert_by_sorted (x : A) (l : list A) :
  Sorted (fun a b => ltb b a = false) l -> Sorted (fun a b => ltb b a = false) (insert_by ltb x l).
Proof.
  intros Hs. induction Hs as [| y l Hs IH Hhd]; cbn [insert_by].
  - repeat constructor.
  - destruct (ltb x y) eqn:E.
    + constructor; [constructor; assumption | constructor; apply ltb_asym; exact E].
    + constructor; [exact IH |].
      destruct l as [| z l]; cbn [insert_by]; [constructor; exact E |].
      inversion Hhd; subst. destruct (ltb x z); constructor; assumption.
Qed.

Lemma sort_by_sorted (l : list A) : Sorted (fun a b => ltb b a = false) (sort_by ltb l).
Proof.
  unfold sort_by.
  assert (H : forall acc, Sorted (fun a b => ltb b a = false) acc ->
            Sorted (fun a b => ltb b a = false) (fold_left (fun acc x => insert_by ltb x acc) l acc)).
  { induction l as [| x l IH]; intros acc Hs; cbn [fold_left]; [exact Hs |].
    apply IH. apply insert_by_sorted. exact Hs. }
  apply H. constructor.
Qed.

End SortBy.

Lemma Sorted_weaken_on {A} (R1 R2 : A -> A -> Prop) (Pr : A -> Prop) (l : list A) :
  Forall Pr l -> (forall a b, Pr a -> Pr b -> R1 a b -> R2 a b) -> Sorted R1 l -> Sorted R2 l.
Proof.
  intros Hf HR Hs. induction Hs as [| a l Hs IH Hhd]; constructor.
  - apply IH. inversion Hf; assumption.
  - destruct l as [| b l]; constructor. inversion Hhd; subst. inversion Hf as [| ? ? Ha Hf']; subst.
    inversion Hf'; subst. apply HR; assumption.
Qed.

Lemma sort_by_min_first (ltb : string -> string -> bool)
    (Hasym : forall a b, ltb a b = true -> ltb b a = false)
    (m : string) (l : list string) :
  In m l -> (forall y, In y l -> y <> m -> ltb m y = true) -> exists rest, sort_by ltb l = m :: rest.
Proof.
  unfold sort_by. intros Hm Hl.
  assert (H : forall acc, (forall y, In y acc -> y <> m -> ltb m y = true) ->
            (In m acc -> exists t, acc = m :: t) -> In m (l ++ acc) ->
            exists rest, fold_left (fun acc x => insert_by ltb x acc) l acc = m :: rest).
  { clear Hm. induction l as [| x l IH]; intros acc Hacc Hhd Hin; cbn [fold_left app] in *.
    - apply Hhd. exact Hin.
    - assert (Hl' : forall y, In y l -> y <> m -> ltb m y = true) by (intros y Hy; apply Hl; right; exact Hy).
      apply IH; [exact Hl' | | |].
      + intros y Hy. apply (Permutation_in _ (insert_by_perm ltb x acc)) in Hy.
        destruct Hy as [<- | Hy]; [apply Hl; left; reflexivity | apply Hacc; exact Hy].
      + intros Hy. destruct (String.eqb_spec x m) as [-> | Hxm].
        * destruct acc as [| y t]; cbn [insert_by]; [exists []; reflexivity |].
          destruct (ltb m y) eqn:E; [eexists; reflexivity |].
          destruct (String.eqb_spec y m) as [-> | Hym].
          -- eexists; reflexivity.
          -- rewrite (Hacc y (or_introl eq_refl) Hym) in E. discriminate.
        * apply (Permutation_in _ (insert_by_perm ltb x acc)) in Hy.
          destruct Hy as [Hy | Hy]; [congruence |].
          destruct (Hhd Hy) as [t ->]. cbn [insert_by].
          rewrite (Hasym m x (Hl x (or_introl eq_refl) Hxm)). eexists; reflexivity.
      + apply in_or_app. destruct Hin as [<- | Hin]; [| apply in_app_or in Hin; destruct Hin as [Hin | Hin]].
        * right. apply (Permutation_in _ (Permutation_sym (insert_by_perm ltb x acc))). left. reflexivity.
        * left. exact Hin.
        * right. apply (Permutation_in _ (Permutation_sym (insert_by_perm ltb x acc))). right. exact Hin. }
  apply H; [intros y [] | intros [] | rewrite app_nil_r; exact Hm].
Qed.

Lemma name_ltb_asym (a b : string) : name_ltb a b = true -> name_ltb b a = false.
Proof. apply str_ltb_asym. Qed.

Lemma priority_ltb_asym (p a b : string) : priority_ltb p a b = true -> priority_ltb p b a = false.
Proof.
  unfold priority_ltb, priority_rank.
  destruct (String.eqb a p), (String.eqb b p); cbn; try discriminate; try reflexivity; apply str_ltb_asym.
Qed.

Lemma priority_ltb_other (p a b : string) : a <> p -> b <> p -> priority_ltb p a b = name_ltb a b.
Proof.
  intros Ha Hb. unfold priority_ltb, priority_rank.
  apply String.eqb_neq in Ha, Hb. rewrite Ha, Hb. reflexivity.
Qed.

Lemma selector_candidate_model_dir (F : fs_env) (kind base sp : string) :
  selector_candidate F kind base = Some sp -> is_model_dir F sp = true.
Proof.
  unfold selector_candidate. destruct (get_model_selector F kind) as [s |]; [| discriminate].
  destruct (String.eqb s ""); [discriminate |]. cbv zeta.
  destruct (is_model_dir F _) eqn:E; [| discriminate]. intros H. injection H as <-. exact E.
Qed.

Lemma model_subdirs_model_dir (F : fs_env) (base n : string) :
  In n (model_subdirs F base) -> is_model_dir F (path_join base n) = true.
Proof.
  unfold model_subdirs. intros H. apply filter_In in H. destruct H as [_ H].
  apply andb_true_iff in H. apply H.
Qed.

Lemma build_local_candidates_subdirs (F : fs_env) (kind : string) :
  let base := path_join (path_join (fs_project_root F) "models") kind in
  fs_exists F base = true -> selector_candidate F kind base = None -> is_model_dir F base = false ->
  build_local_candidates F kind =
    map (path_join base)
      (match read_priority F base with
       | Some p => if String.eqb p "" then sort_by name_ltb (model_subdirs F base)
                   else sort_by (priority_ltb p) (sort_by name_ltb (model_subdirs F base))
       | None => sort_by name_ltb (model_subdirs F base)
       end).
Proof.
  intros base He Hs Hb. unfold build_local_candidates. fold base. rewrite He, Hs, Hb. reflexivity.
Qed.

(** Every path that [_build_local_candidates] returns is a model
    directory: it holds config.json, pytorch_model.bin or
    model.safetensors, whichever branch (selector, base directory or
    subdirectories) produced it. *)
Theorem build_local_candidates_model_dirs (F : fs_env) (kind c : string) :
  In c (build_local_candidates F kind) -> is_model_dir F c = true.
Proof.
  unfold build_local_candidates. set (base := path_join _ kind).
  destruct (fs_exists F base); cbn [negb]; [| intros []].
  destruct (selector_candidate F kind base) as [sp |] eqn:Es.
  - intros [<- | []]. eapply selector_candidate_model_dir. exact Es.
  - destruct (is_model_dir F base) eqn:Eb; [intros [<- | []]; exact Eb |].
    cbv zeta. intros H. apply in_map_iff in H. destruct H as [n [<- Hn]].
    apply model_subdirs_model_dir.
    assert (Hp : Permutation (match read_priority F base with
                              | Some p => if String.eqb p "" then sort_by name_ltb (model_subdirs F base)
                                          else sort_by (priority_ltb p) (sort_by name_ltb (model_subdirs F base))
                              | None => sort_by name_ltb (model_subdirs F base)
                              end) (model_subdirs F base)).
    { destruct (read_priority F base) as [p |]; [destruct (String.eqb p "") |];
        rewrite ?sort_by_perm; reflexivity. }
    exact (Permutation_in _ Hp Hn).
Qed.

(** When the selector names no model directory, the base directory holds
    no model files and priority.txt names one of the model subdirectories
    (with unique entry names), that subdirectory is the first candidate
    and the other model subdirectories follow in case-insensitive name
    order. *)
Theorem build_local_candidates_priority_first (F : fs_env) (kind p : string) :
  let base := path_join (path_join (fs_project_root F) "models") kind in
  fs_exists F base = true -> selector_candidate F kind base = None -> is_model_dir F base = false ->
  read_priority F base = Some p -> p <> "" -> NoDup (fs_iterdir F base) ->
  In p (model_subdirs F base) ->
  exists rest, build_local_candidates F kind = path_join base p :: map (path_join base) rest /\
    Permutation (p :: rest) (model_subdirs F base) /\
    Sorted (fun a b => name_ltb b a = false) rest.
Proof.
  intros base He Hs Hb Hp Hne Hnd Hin.
  rewrite (build_local_candidates_subdirs F kind He Hs Hb). fold base. rewrite Hp.
  apply String.eqb_neq in Hne. rewrite Hne.
  set (subs := model_subdirs F base) in *.
  set (s1 := sort_by name_ltb subs).
  assert (Hp1 : Permutation s1 subs) by apply sort_by_perm.
  destruct (sort_by_min_first (priority_ltb p) (priority_ltb_asym p) p s1)
    as [rest Hr].
  { exact (Permutation_in _ (Permutation_sym Hp1) Hin). }
  { intros y _ Hy. unfold priority_ltb, priority_rank. apply String.eqb_neq in Hy.
    rewrite Hy, String.eqb_refl. reflexivity. }
  assert (Hperm : Permutation (p :: rest) subs).
  { rewrite <- Hr, sort_by_perm. exact Hp1. }
  exists rest. rewrite Hr. split; [reflexivity | split; [exact Hperm |]].
  assert (Hnd' : NoDup (p :: rest)).
  { apply (Permutation_NoDup (Permutation_sym Hperm)). apply NoDup_filter. exact Hnd. }
  inversion Hnd' as [| ? ? Hnotin _]; subst.
  pose proof (sort_by_sorted (priority_ltb p) (priority_ltb_asym p) s1) as Hsort.
  rewrite Hr in Hsort. apply Sorted_inv in Hsort. destruct Hsort as [Hsort _].
  apply (Sorted_weaken_on (fun a b => priority_ltb p b a = false) _ (fun a => a <> p) rest).
  - apply Forall_forall. intros a Ha ->. exact (Hnotin Ha).
  - intros a b Ha Hb' H. rewrite <- (priority_ltb_other p b a Hb' Ha). exact H.
  - exact Hsort.
Qed.

(** When priority.txt names none of the model subdirectories (or is
    missing, empty or unreadable), the candidates are the model
    subdirectories in case-insensitive name order. *)
Theorem build_local_candidates_sorted_without_priority (F : fs_env) (kind : string) :
  let base := path_join (path_join (fs_project_root F) "models") kind in
  fs_exists F base = true -> selector_candidate F kind base = None -> is_model_dir F base = false ->
  (forall p, read_priority F base = Some p -> p <> "" -> ~ In p (model_subdirs F base)) ->
  exists l, build_local_candidates F kind = map (path_join base) l /\
    Permutation l (model_subdirs F base) /\ Sorted (fun a b => name_ltb b a = false) l.
Proof.
  intros base He Hs Hb Hp.
  rewrite (build_local_candidates_subdirs F kind He Hs Hb). fold base.
  set (subs := model_subdirs F base) in *.
  assert (Hp1 : Permutation (sort_by name_ltb subs) subs) by apply sort_by_perm.
  pose proof (sort_by_sorted name_ltb name_ltb_asym subs) as Hs1.
  destruct (read_priority F base) as [p |].
  - destruct (String.eqb_spec p "") as [-> | Hne].
    + eexists. split; [reflexivity | split; assumption].
    + eexists. split; [reflexivity |]. split; [rewrite sort_by_perm; exact Hp1 |].
      apply (Sorted_weaken_on (fun a b => priority_ltb p b a = false) _ (fun a => a <> p)).
      * apply Forall_forall. intros a Ha ->.
        apply (Hp p eq_refl Hne). rewrite sort_by_perm, Hp1 in Ha. exact Ha.
      * intros a b Ha Hb' H. rewrite <- (priority_ltb_other p b a Hb' Ha). exact H.
      * apply sort_by_sorted. apply priority_ltb_asym.
  - eexists. split; [reflexivity | split; assumption].
Qed.

Lemma load_first_available_spec {P} (try_load : string -> bool -> option (P * Q)) (ids : list string)
    (multi : bool) :
  match load_first_available try_load ids multi with
  | Some (pipe, mid, dt) =>
    exists pre rest, ids = (pre ++ mid :: rest)%list /\ Forall (fun c => try_load c multi = None) pre /\
      try_load mid multi = Some (pipe, dt)
  | None => Forall (fun c => try_load c multi = None) ids
  end.
Proof.
  induction ids as [| x ids IH]; cbn [load_first_available]; [constructor |].
  destruct (try_load x multi) as [[pipe dt] |] eqn:E.
  - exists [], ids. split; [reflexivity | split; [constructor | exact E]].
  - destruct (load_first_available try_load ids multi) as [[[pipe mid] dt] |].
    + destruct IH as (pre & rest & -> & Hpre & Hm). exists (x :: pre), rest.
      split; [reflexivity | split; [constructor; assumption | exact Hm]].
    + constructor; assumption.
Qed.

(** A first call of [ensure_emotion] stores the discovered candidates
    and either loads the first candidate that loads (all earlier ones
    failed), recording its pipeline, id and load time, after which every
    later call returns the same pipeline and id without discovering or
    loading again; or it raises, leaving no pipeline, when there is no
    candidate or none loads. The sentiment side of the state (pipeline,
    model id, candidates and load time) is not touched. *)
Theorem ensure_emotion_first_loadable {P} (F : fs_env) (try_load : string -> bool -> option (P * Q))
    (multi : bool) (st : @model_manager P) :
  emotion_pipe st = None ->
  let local := build_local_candidates F "emotion" in
  let '(st1, r) := ensure_emotion F try_load multi st in
  emotion_candidates st1 = local /\ sentiment_pipe st1 = sentiment_pipe st /\
  sentiment_model_id st1 = sentiment_model_id st /\
  sentiment_candidates st1 = sentiment_candidates st /\ sentiment_load_sec st1 = sentiment_load_sec st /\
  match r with
  | Some (pipe, mid) =>
    exists pre m rest dt, local = (pre ++ m :: rest)%list /\ Forall (fun c => try_load c multi = None) pre /\
      try_load m multi = Some (pipe, dt) /\ mid = Some m /\
      emotion_pipe st1 = Some pipe /\ emotion_model_id st1 = Some m /\ emotion_load_sec st1 = Some dt /\
      (forall F' try_load' multi', ensure_emotion F' try_load' multi' st1 = (st1, Some (pipe, Some m)))
  | None => emotion_pipe st1 = None /\ Forall (fun c => try_load c multi = None) local
  end.
Proof.
  intros Hst local. unfold ensure_emotion. rewrite Hst. fold local.
  pose proof (load_first_available_spec try_load local multi) as Hl.
  destruct local as [| c cs] eqn:El.
  - cbn. repeat split. constructor.
  - rewrite <- El in *.
    destruct (load_first_available try_load local multi) as [[[pipe mid] dt] |].
    + destruct Hl as (pre & rest & Hsplit & Hpre & Hm).
      cbn. repeat split. exists pre, mid, rest, dt. repeat split; assumption.
    + cbn. repeat split. exact Hl.
Qed.

(** ** Witnesses: the hypotheses of the theorems above hold at concrete inputs *)

Lemma vad_mapper_lookup_witness :
  let m := [("Joy", (4#5, 3#5, 7#10)); ("sad", (1#5, 2#5, 3#10))] in
  NoDup (map (fun kv => lower (fst kv)) m) /\
  ((forall k x, In (k, x) m -> lower k = lower "JOY" -> map_label (VADMapper_init m None) "JOY" = x) /\
   ((forall kv, In kv m -> lower (fst kv) <> lower "JOY") ->
      map_label (VADMapper_init m None) "JOY" = neutral_vad)).
Proof.
  intros m.
  assert (H : NoDup (map (fun kv => lower (fst kv)) m)).
  { vm_compute. constructor; [intros [H | []]; discriminate H | constructor; [intros [] | constructor]]. }
  split; [exact H | exact (vad_mapper_lookup m "JOY" H)].
Defined.

Lemma canonicalize_distribution_idempotent_witness :
  let E := {| default_map := Some [("joy", (4#5, 3#5, 7#10))]; neg_config_path := fun _ => None;
              fs := fun _ => None; neg_valence_threshold := 2#5; project_root := "/srv/sentra-emo" |} in
  let st := set_vad_mapper initial_state
              (VADMapper_init [("joy", (4#5, 3#5, 7#10))] (Some [("Happy", "JOY")])) in
  let D := [("Happy", 1#2); ("joy", 1#4); ("calm", 1#4)] in
  (forall v, In v (map snd (alias (ensured_mapper E st))) ->
     lower v = v /\ dict_get v (alias (ensured_mapper E st)) = None) /\
  (let '(D1, st1) := canonicalize_distribution E st D in
   canonicalize_distribution E st1 D1 = (D1, st1)).
Proof.
  intros E st D.
  assert (H : forall v, In v (map snd (alias (ensured_mapper E st))) ->
                lower v = v /\ dict_get v (alias (ensured_mapper E st)) = None).
  { intros v Hv. vm_compute in Hv. destruct Hv as [<- | []]. split; reflexivity. }
  split; [exact H | exact (canonicalize_distribution_idempotent E st D H)].
Defined.

Lemma map_distribution_scale_invariant_witness :
  let mp := VADMapper_init [("joy", (4#5, 3#5, 7#10)); ("sad", (1#5, 2#5, 3#10))] None in
  let D := [("joy", 1#2); ("sad", 1#4)] in
  0 < 3 /\ vad_eq (map_distribution mp (map (fun p => (fst p, 3 * snd p)) D)) (map_distribution mp D).
Proof.
  intros mp D. assert (H : 0 < 3) by lra.
  split; [exact H | exact (map_distribution_scale_invariant mp D 3 H)].
Defined.

Lemma map_distribution_permutation_invariant_witness :
  let mp := VADMapper_init [("joy", (4#5, 3#5, 7#10)); ("sad", (1#5, 2#5, 3#10))] None in
  let D1 := [("joy", 1#2); ("sad", 1#4)] in
  let D2 := [("sad", 1#4); ("joy", 1#2)] in
  Permutation D1 D2 /\ vad_eq (map_distribution mp D1) (map_distribution mp D2).
Proof.
  intros mp D1 D2. assert (H : Permutation D1 D2) by apply perm_swap.
  split; [exact H | exact (map_distribution_permutation_invariant mp D1 D2 H)].
Defined.

Lemma emotions_to_vad_bounds_witness :
  let E := {| default_map := Some [("joy", (4#5, 3#5, 7#10)); ("sad", (1#5, 2#5, 3#10))];
              neg_config_path := fun _ => None; fs := fun _ => None;
              neg_valence_threshold := 2#5; project_root := "/srv/sentra-emo" |} in
  let D := [("joy", 1#2); ("sad", 1#4); ("calm", 1#4)] in
  (forall p, In p D -> 0 <= snd p) /\
  (forall k x, In (k, x) (mapping (ensured_mapper E initial_state)) ->
     (0 <= vad_v x <= 1) /\ (0 <= vad_a x <= 1) /\ (0 <= vad_d x <= 1)) /\
  0 <= 1 # 2 <= 1 /\
  (let r := fst (emotions_to_vad E initial_state D) in
   (0 <= vad_v r <= 1) /\ (0 <= vad_a r <= 1) /\ (0 <= vad_d r <= 1)).
Proof.
  intros E D.
  assert (H1 : forall p, In p D -> 0 <= snd p).
  { intros p Hp. destruct Hp as [<- | [<- | [<- | []]]]; cbn [snd]; lra. }
  assert (H2 : forall k x, In (k, x) (mapping (ensured_mapper E initial_state)) ->
                 (0 <= vad_v x <= 1) /\ (0 <= vad_a x <= 1) /\ (0 <= vad_d x <= 1)).
  { intros k x Hx. vm_compute in Hx.
    destruct Hx as [Hx | [Hx | []]]; injection Hx as _ <-; vm_compute; repeat split; discriminate. }
  assert (H3 : 0 <= 1 # 2 <= 1) by lra.
  split; [exact H1 | split; [exact H2 | split; [exact H3 |]]].
  exact (emotions_to_vad_bounds E initial_state D 0 1 H1 H2 H3).
Defined.

Lemma derive_stress_monotone_witness :
  let E := {| default_map := Some [("joy", (4#5, 3#5, 7#10)); ("sad", (1#5, 2#5, 3#10))];
              neg_config_path := fun _ => None; fs := fun _ => None;
              neg_valence_threshold := 2#5; project_root := "/srv/sentra-emo" |} in
  let D := [("joy", 1#2); ("sad", 1#2)] in
  1#4 <= 1#2 /\ 1#4 <= 3#4 /\
  (let '(s1, l1, _) := derive_stress E initial_state (1#2) (1#4) D in
   let '(s2, l2, _) := derive_stress E initial_state (1#4) (3#4) D in
   s1 <= s2 /\ (level_rank l1 <= level_rank l2)%nat).
Proof.
  intros E D. assert (H1 : 1#4 <= 1#2) by lra. assert (H2 : 1#4 <= 3#4) by lra.
  split; [exact H1 | split; [exact H2 |]].
  exact (derive_stress_monotone E initial_state D (1#2) (1#4) (1#4) (3#4) H1 H2).
Defined.

Lemma percentile_monotone_in_q_witness :
  let values := [30; 10; 20; 50] in
  1#2 <= 19#20 /\ opt_le (percentile values (1#2)) (percentile values (19#20)).
Proof.
  intros values. assert (H : 1#2 <= 19#20) by lra.
  split; [exact H | exact (percentile_monotone_in_q values (1#2) (19#20) H)].
Defined.

Lemma recent_count_window_monotone_witness :
  let vals := [12; 30; 18] in
  let times := [100; 150; 170] in
  10 <= 60 /\ (ws_count (recent 175 vals times 10) <= ws_count (recent 175 vals times 60))%nat.
Proof.
  intros vals times. assert (H : 10 <= 60) by lra.
  split; [exact H | exact (recent_count_window_monotone 175 vals times 10 60 H)].
Defined.

Lemma load_mapping_from_json_spec_witness :
  let f := fun (s : string) => if String.eqb s "0.2" then Some (1#5) else None in
  let o := [("Joy", JList [JFloat (4#5) "0.8"; JFloat (3#5) "0.6"; JStr "0.2"]);
            ("sad", JObj [("v", JInt 0); ("a", JFloat (2#5) "0.4")])] in
  NoDup (map fst o) /\
  ((forall data, (forall o', data <> JObj o') -> load_mapping_from_json f data = None) /\
   load_mapping_from_json f (JObj o) =
     if existsb (entry_raises f) o then None else Some (mapping_entries f o)).
Proof.
  intros f o.
  assert (H : NoDup (map fst o)).
  { vm_compute. constructor; [intros [H | []]; discriminate H | constructor; [intros [] | constructor]]. }
  split; [exact H | exact (load_mapping_from_json_spec f o H)].
Defined.


Lemma init_vad_mapper_with_map_witness :
  let E := {| default_map := None; neg_config_path := fun _ => None;
              fs := fun p => if String.eqb p "/models/emotion/vad_map.json"
                             then Some (Some (JObj [("joy", JList [JFloat (4#5) "0.8"; JFloat (3#5) "0.6";
                                                                   JFloat (7#10) "0.7"])]))
                             else None;
              neg_valence_threshold := 2#5; project_root := "/srv/sentra-emo" |} in
  let VE := {| get_vad_config_paths := fun d => {| path_map := Some (d ++ "/vad_map.json"); path_alias := None;
                                                   path_unknown := d ++ "/unknown_labels.json" |};
               float_of_str := fun _ => None; path_str := fun d => d; write_ok := fun _ => true |} in
  let g := {| g_state := initial_state; last_emotion_dir := None;
              status := {| status_emotion_model_dir := None; status_map_path := None;
                           status_alias_path := None; status_unknown_labels_path := None;
                           status_unknown_labels_count := 0; status_unknown_labels := [] |} |} in
  let p := "/models/emotion/vad_map.json" in
  let paths := get_vad_config_paths VE (path_str VE "/models/emotion") in
  path_map paths = Some p /\
  (let '(g', raised) := init_vad_mapper E VE g "/models/emotion" None in
   (raised = true <->
      read_json E p = None \/
      (exists data, read_json E p = Some data /\ load_mapping_from_json (float_of_str VE) data = None) \/
      (exists ap j, path_alias paths = Some ap /\ read_json E ap = Some j /\ truthy j = true /\
                    forall o, j <> JObj o)) /\
   (raised = true -> g_state g' = g_state g /\ status g' = status g) /\
   (raised = false -> exists data mapping al,
      read_json E p = Some data /\ load_mapping_from_json (float_of_str VE) data = Some mapping /\
      vad_mapper (g_state g') = Some (VADMapper_init mapping al))).
Proof.
  intros E VE g p paths.
  assert (H : path_map paths = Some p) by reflexivity.
  split; [exact H | exact (init_vad_mapper_with_map E VE g "/models/emotion" None p H)].
Defined.

Lemma id2label_int_keys_sorted_witness :
  let d := [(KInt 1, JStr "joy"); (KInt 0, JStr "anger"); (KInt 2, JStr "sadness")] in
  d <> [] /\ NoDup (map fst d) /\ (forall k, In k (map fst d) -> exists z, k = KInt z) /\
  (exists l', Permutation l' d /\ Sorted key_lt l' /\
     id2label_labels (Some d) = map (fun kv => py_str (snd kv)) l').
Proof.
  intros d.
  assert (H1 : d <> []) by discriminate.
  assert (H2 : NoDup (map fst d)).
  { cbn. constructor; [intros [H | [H | []]]; discriminate H |].
    constructor; [intros [H | []]; discriminate H |]. constructor; [intros [] | constructor]. }
  assert (H3 : forall k, In k (map fst d) -> exists z, k = KInt z).
  { intros k Hk. destruct Hk as [<- | [<- | [<- | []]]]; eexists; reflexivity. }
  split; [exact H1 | split; [exact H2 | split; [exact H3 |]]].
  exact (id2label_int_keys_sorted d H1 H2 H3).
Defined.

Lemma id2label_digit_string_keys_no_labels_witness :
  let d := [(KStr "0", JStr "anger"); (KStr "1", JStr "joy")] in
  d <> [] /\ (forall k, In k (map fst d) -> exists s, k = KStr s /\ isdigit s = true) /\
  id2label_labels (Some d) = [].
Proof.
  intros d.
  assert (H1 : d <> []) by discriminate.
  assert (H2 : forall k, In k (map fst d) -> exists s, k = KStr s /\ isdigit s = true).
  { intros k Hk. destruct Hk as [<- | [<- | []]]; eexists; split; reflexivity. }
  split; [exact H1 | split; [exact H2 | exact (id2label_digit_string_keys_no_labels d H1 H2)]].
Defined.

Lemma build_local_candidates_model_dirs_witness :
  let F := {| fs_exists := fun p => existsb (String.eqb p)
                ["/app/models/emotion"; "/app/models/emotion/priority.txt";
                 "/app/models/emotion/roberta/config.json"; "/app/models/emotion/Bert/model.safetensors";
                 "/app/models/emotion/distil/pytorch_model.bin"];
              fs_is_dir := fun p => existsb (String.eqb p)
                ["/app/models/emotion"; "/app/models/emotion/roberta"; "/app/models/emotion/Bert";
                 "/app/models/emotion/distil"; "/app/models/emotion/notes"];
              fs_iterdir := fun p => if String.eqb p "/app/models/emotion"
                                     then ["roberta"; "notes"; "distil"; "Bert"; "README.md"] else [];
              fs_read_text := fun p => if String.eqb p "/app/models/emotion/priority.txt"
                                       then Some (String "010" "distil") else None;
              get_model_selector := fun _ => None;
              fs_project_root := "/app" |} in
  In "/app/models/emotion/roberta" (build_local_candidates F "emotion") /\
  is_model_dir F "/app/models/emotion/roberta" = true.
Proof.
  intros F.
  assert (H : In "/app/models/emotion/roberta" (build_local_candidates F "emotion")).
  { vm_compute. auto 10. }
  split; [exact H | exact (build_local_candidates_model_dirs F "emotion" _ H)].
Defined.

Lemma build_local_candidates_priority_first_witness :
  let F := {| fs_exists := fun p => existsb (String.eqb p)
                ["/app/models/emotion"; "/app/models/emotion/priority.txt";
                 "/app/models/emotion/roberta/config.json"; "/app/models/emotion/Bert/model.safetensors";
                 "/app/models/emotion/distil/pytorch_model.bin"];
              fs_is_dir := fun p => existsb (String.eqb p)
                ["/app/models/emotion"; "/app/models/emotion/roberta"; "/app/models/emotion/Bert";
                 "/app/models/emotion/distil"; "/app/models/emotion/notes"];
              fs_iterdir := fun p => if String.eqb p "/app/models/emotion"
                                     then ["roberta"; "notes"; "distil"; "Bert"; "README.md"] else [];
              fs_read_text := fun p => if String.eqb p "/app/models/emotion/priority.txt"
                                       then Some (String "010" "distil") else None;
              get_model_selector := fun _ => None;
              fs_project_root := "/app" |} in
  let base := path_join (path_join (fs_project_root F) "models") "emotion" in
  fs_exists F base = true /\ selector_candidate F "emotion" base = None /\ is_model_dir F base = false /\
  read_priority F base = Some "distil" /\ "distil" <> "" /\ NoDup (fs_iterdir F base) /\
  In "distil" (model_subdirs F base) /\
  (exists rest, build_local_candidates F "emotion" = path_join base "distil" :: map (path_join base) rest /\
     Permutation ("distil" :: rest) (model_subdirs F base) /\
     Sorted (fun a b => name_ltb b a = false) rest).
Proof.
  intros F base.
  assert (H1 : fs_exists F base = true) by reflexivity.
  assert (H2 : selector_candidate F "emotion" base = None) by reflexivity.
  assert (H3 : is_model_dir F base = false) by reflexivity.
  assert (H4 : read_priority F base = Some "distil") by reflexivity.
  assert (H5 : "distil" <> "") by discriminate.
  assert (H6 : NoDup (fs_iterdir F base)).
  { vm_compute. repeat (constructor; [simpl; intuition discriminate |]). constructor. }
  assert (H7 : In "distil" (model_subdirs F base)) by (vm_compute; auto 10).
  repeat (split; [assumption |]).
  exact (build_local_candidates_priority_first F "emotion" "distil" H1 H2 H3 H4 H5 H6 H7).
Defined.

Lemma build_local_candidates_sorted_without_priority_witness :
  let F := {| fs_exists := fun p => existsb (String.eqb p)
                ["/app/models/emotion"; "/app/models/emotion/priority.txt";
                 "/app/models/emotion/roberta/config.json"; "/app/models/emotion/Bert/model.safetensors";
                 "/app/models/emotion/distil/pytorch_model.bin"];
              fs_is_dir := fun p => existsb (String.eqb p)
                ["/app/models/emotion"; "/app/models/emotion/roberta"; "/app/models/emotion/Bert";
                 "/app/models/emotion/distil"; "/app/models/emotion/notes"];
              fs_iterdir := fun p => if String.eqb p "/app/models/emotion"
                                     then ["roberta"; "notes"; "distil"; "Bert"; "README.md"] else [];
              fs_read_text := fun p => if String.eqb p "/app/models/emotion/priority.txt"
                                       then Some (String "010" "notes") else None;
              get_model_selector := fun _ => None;
              fs_project_root := "/app" |} in
  let base := path_join (path_join (fs_project_root F) "models") "emotion" in
  fs_exists F base = true /\ selector_candidate F "emotion" base = None /\ is_model_dir F base = false /\
  (forall p, read_priority F base = Some p -> p <> "" -> ~ In p (model_subdirs F base)) /\
  (exists l, build_local_candidates F "emotion" = map (path_join base) l /\
     Permutation l (model_subdirs F base) /\ Sorted (fun a b => name_ltb b a = false) l).
Proof.
  intros F base.
  assert (H1 : fs_exists F base = true) by reflexivity.
  assert (H2 : selector_candidate F "emotion" base = None) by reflexivity.
  assert (H3 : is_model_dir F base = false) by reflexivity.
  assert (H4 : forall p, read_priority F base = Some p -> p <> "" -> ~ In p (model_subdirs F base)).
  { intros p Hp _. vm_compute in Hp. injection Hp as <-. vm_compute. intuition discriminate. }
  repeat (split; [assumption |]).
  exact (build_local_candidates_sorted_without_priority F "emotion" H1 H2 H3 H4).
Defined.

Lemma ensure_emotion_first_loadable_witness :
  let F := {| fs_exists := fun p => existsb (String.eqb p)
                ["/app/models/emotion"; "/app/models/emotion/roberta/config.json";
                 "/app/models/emotion/distil/pytorch_model.bin"];
              fs_is_dir := fun p => existsb (String.eqb p)
                ["/app/models/emotion"; "/app/models/emotion/roberta"; "/app/models/emotion/distil"];
              fs_iterdir := fun p => if String.eqb p "/app/models/emotion" then ["roberta"; "distil"] else [];
              fs_read_text := fun _ => None;
              get_model_selector := fun _ => None;
              fs_project_root := "/app" |} in
  let try_load := fun (mid : string) (_ : bool) =>
                    if String.eqb mid "/app/models/emotion/roberta" then Some (7%nat, 3#2) else None in
  let st := {| sentiment_pipe := None; sentiment_model_id := None; emotion_pipe := None;
               emotion_model_id := None; sentiment_candidates := []; emotion_candidates := [];
               sentiment_load_sec := None; emotion_load_sec := None |} in
  emotion_pipe st = None /\
  (let local := build_local_candidates F "emotion" in
   let '(st1, r) := ensure_emotion F try_load false st in
   emotion_candidates st1 = local /\ sentiment_pipe st1 = sentiment_pipe st /\
   sentiment_model_id st1 = sentiment_model_id st /\
   sentiment_candidates st1 = sentiment_candidates st /\ sentiment_load_sec st1 = sentiment_load_sec st /\
   match r with
   | Some (pipe, mid) =>
     exists pre m rest dt, local = (pre ++ m :: rest)%list /\ Forall (fun c => try_load c false = None) pre /\
       try_load m false = Some (pipe, dt) /\ mid = Some m /\
       emotion_pipe st1 = Some pipe /\ emotion_model_id st1 = Some m /\ emotion_load_sec st1 = Some dt /\
       (forall F' try_load' multi', ensure_emotion F' try_load' multi' st1 = (st1, Some (pipe, Some m)))
   | None => emotion_pipe st1 = None /\ Forall (fun c => try_load c false = None) local
   end).
Proof.
  intros F try_load st.
  assert (H : emotion_pipe st = None) by reflexivity.
  split; [exact H | exact (ensure_emotion_first_loadable F try_load false st H)].
Defined.
